(** * Resume matcher: structured extraction and section-weighted scoring

    A shallow embedding of [app/parser/cv_structured_parser.py] and
    [app/matching/semantic_matcher.py], with the text cleaning of
    [app/parser/utils.py], the loader of [app/parser/file_loader.py] and
    [app/parser/cv_preprocessor.py] and the upload filter of [run.py]; the
    properties of them that the design document states, and further
    properties that the code has.

    Modelling conventions.
    - A Python [str] is a [string]; a character is its code point, and the
      development covers text whose code points are below 256.  Case
      conversion, whitespace and line boundaries follow Python's tables on
      that range.  The pattern characters U+2013 and U+2014 (en and em dash)
      cannot occur in such text and are written as the empty class.
    - A Python [float] is an exact rational ([Q]); binary rounding error is
      not modelled.  [round(x, 2)] rounds half to even.
    - A [dict] is a [gmap]; [d.get(k, dflt)] is [default dflt (d !! k)].
    - An exception is a value of [exn]; a function that can raise returns
      [result A].
    - [re] patterns are values of [regex], run by a backtracking matcher with
      Python's priorities (leftmost alternative first, greedy and lazy
      repetition, named groups).
    - The sentence-embedding model and the cosine similarity are an
      interface ([Embedder]); the wall clock is the parameter [now]. *)

From Stdlib Require Import ZArith QArith Qround Qabs Ascii String List Bool Lia Lqa.
From stdpp Require Import base option list gmap strings sorting.

Local Open Scope string_scope.
Local Open Scope list_scope.
Local Open Scope nat_scope.

(** ** Characters and strings *)

Abbreviation len := String.length.

Definition ord (c : ascii) : N := N_of_ascii c.

Definition in_range (lo hi : N) (c : ascii) : bool :=
  ((lo <=? ord c) && (ord c <=? hi))%N.

Definition isdigit (c : ascii) : bool := in_range 48 57 c.
Definition isupper_ascii (c : ascii) : bool := in_range 65 90 c.
Definition islower_ascii (c : ascii) : bool := in_range 97 122 c.
Definition isalpha_ascii (c : ascii) : bool := isupper_ascii c || islower_ascii c.

(** [str.isspace] on one character, which is also [\s] of [re] on [str]. *)
Definition isspace (c : ascii) : bool :=
  in_range 9 13 c || in_range 28 32 c || (ord c =? 133)%N || (ord c =? 160)%N.

(** Line boundaries of [str.splitlines]. *)
Definition islinebreak (c : ascii) : bool :=
  in_range 10 13 c || in_range 28 30 c || (ord c =? 133)%N.

Definition lower_char (c : ascii) : ascii :=
  if isupper_ascii c || (in_range 192 222 c && negb (ord c =? 215)%N)
  then ascii_of_N (ord c + 32) else c.

Definition upper_char (c : ascii) : ascii :=
  if islower_ascii c then ascii_of_N (ord c - 32) else c.

Fixpoint lower (s : string) : string :=
  match s with
  | "" => ""
  | String c s' => String (lower_char c) (lower s')
  end.

(** [str.capitalize]: first character upper case, the rest lower case. *)
Definition capitalize (s : string) : string :=
  match s with
  | "" => ""
  | String c s' => String (upper_char c) (lower s')
  end.

Fixpoint drop_str (n : nat) (s : string) : string :=
  match n, s with
  | S n', String _ s' => drop_str n' s'
  | _, _ => s
  end.

Fixpoint take_str (n : nat) (s : string) : string :=
  match n, s with
  | S n', String c s' => String c (take_str n' s')
  | _, _ => ""
  end.

(** [s[a:b]] for [0 <= a] and [0 <= b]. *)
Definition slice (s : string) (a b : nat) : string :=
  take_str (b - a) (drop_str a s).

Fixpoint lstrip_with (p : ascii → bool) (s : string) : string :=
  match s with
  | "" => ""
  | String c s' => if p c then lstrip_with p s' else s
  end.

Fixpoint rstrip_with (p : ascii → bool) (s : string) : string :=
  match s with
  | "" => ""
  | String c s' =>
      match rstrip_with p s' with
      | "" => if p c then "" else String c ""
      | r => String c r
      end
  end.

Definition strip_with (p : ascii → bool) (s : string) : string :=
  rstrip_with p (lstrip_with p s).

(** [s.strip()]. *)
Definition strip (s : string) : string := strip_with isspace s.

Fixpoint mem_char (c : ascii) (cs : string) : bool :=
  match cs with
  | "" => false
  | String d cs' => Ascii.eqb c d || mem_char c cs'
  end.

(** [s.strip(chars)]. *)
Definition strip_chars (chars s : string) : string :=
  strip_with (fun c => mem_char c chars) s.

(** ** Regular expressions *)

Inductive regex : Type :=
| Eps
| Chr (p : ascii → bool)
| Cat (r1 r2 : regex)
| Alt (r1 r2 : regex)
| Rep (greedy : bool) (lo : nat) (hi : option nat) (r : regex)
| Grp (name : string) (r : regex)
| Bol.

Definition captures : Type := list (string * string).

Fixpoint group (name : string) (caps : captures) : option string :=
  match caps with
  | [] => None
  | (n, v) :: caps' => if String.eqb n name then Some v else group name caps'
  end.

Definition or_else {A} (x : option A) (y : unit → option A) : option A :=
  match x with
  | Some a => Some a
  | None => y tt
  end.

(** The loop of a repetition [r{lo,hi}]; [step] matches [r] once.  A greedy
    loop tries one more iteration before it tries to stop, a lazy one the
    other way round.  An iteration that consumes nothing ends the loop, so
    [fuel = len s] iterations are always enough. *)
Section RepLoop.
Context {R : Type}.
Variable step : string → captures → (string → captures → option R) → option R.
Variable k : string → captures → option R.
Variable greedy : bool.

Fixpoint rep_loop (fuel lo : nat) (hi : option nat) (s : string)
    (caps : captures) {struct fuel} : option R :=
  let stop (_ : unit) :=
    match lo with 0 => k s caps | S _ => None end in
  let more (_ : unit) :=
    match fuel, hi with
    | 0, _ | _, Some 0 => None
    | S fuel', _ =>
        step s caps
          (fun s1 c1 =>
             if len s1 <? len s
             then rep_loop fuel' (pred lo) (pred <$> hi) s1 c1
             else None)
    end in
  if greedy then or_else (more tt) stop else or_else (stop tt) more.
End RepLoop.

Section Matcher.
Context {R : Type}.
(** Length of the whole subject string: a suffix [s] of it starts at
    position [n0 - len s]. *)
Variable n0 : nat.

(** [rmatch r s caps k]: match [r] at the front of [s]; every way of doing
    so is offered to the continuation [k] in priority order, and the first
    one that [k] accepts is the result. *)
Fixpoint rmatch (r : regex) (s : string) (caps : captures)
    (k : string → captures → option R) {struct r} : option R :=
  match r with
  | Eps => k s caps
  | Chr p =>
      match s with
      | String c s' => if p c then k s' caps else None
      | "" => None
      end
  | Cat r1 r2 => rmatch r1 s caps (fun s1 c1 => rmatch r2 s1 c1 k)
  | Alt r1 r2 => or_else (rmatch r1 s caps k) (fun _ => rmatch r2 s caps k)
  | Grp name r1 =>
      rmatch r1 s caps
        (fun s1 c1 => k s1 ((name, take_str (len s - len s1) s) :: c1))
  | Bol => if len s =? n0 then k s caps else None
  | Rep greedy lo hi r1 => rep_loop (rmatch r1) k greedy (len s) lo hi s caps
  end.
End Matcher.

(** A match object: [m.start()], [m.end()] and the named groups. *)
Record rmatch_t : Type := MkMatch {
  m_start : nat;
  m_end : nat;
  m_groups : captures
}.

Definition match_here (r : regex) (n0 : nat) (s : string) (pos : nat)
    : option rmatch_t :=
  rmatch n0 r s []
    (fun s1 c1 => Some (MkMatch pos (pos + (len s - len s1)) c1)).

Fixpoint search_from (r : regex) (n0 : nat) (s : string) (pos : nat)
    : option rmatch_t :=
  match match_here r n0 s pos with
  | Some m => Some m
  | None =>
      match s with
      | "" => None
      | String _ s' => search_from r n0 s' (S pos)
      end
  end.

(** [re.search(r, s)]: the leftmost match. *)
Definition re_search (r : regex) (s : string) : option rmatch_t :=
  search_from r (len s) s 0.

(** [re.match(r, s)]: a match at position 0. *)
Definition re_match (r : regex) (s : string) : option rmatch_t :=
  match_here r (len s) s 0.

(** [r.finditer(s)]: the non-overlapping matches, left to right.  [skip]
    counts the characters still covered by the previous match.  After an
    empty match the scan moves on by one character. *)
Fixpoint finditer_from (r : regex) (n0 : nat) (s : string) (pos skip : nat)
    : list rmatch_t :=
  match skip with
  | S skip' =>
      match s with
      | "" => []
      | String _ s' => finditer_from r n0 s' (S pos) skip'
      end
  | 0 =>
      match match_here r n0 s pos, s with
      | Some m, String _ s' =>
          m :: finditer_from r n0 s' (S pos) (pred (m_end m - m_start m))
      | Some m, "" => [m]
      | None, String _ s' => finditer_from r n0 s' (S pos) 0
      | None, "" => []
      end
  end.

Definition re_finditer (r : regex) (s : string) : list rmatch_t :=
  finditer_from r (len s) s 0 0.

(** *** Pattern constructors *)

Definition chr_is (ic : bool) (c : ascii) : ascii → bool :=
  fun x => if ic then Ascii.eqb (lower_char x) (lower_char c) else Ascii.eqb x c.

(** A pattern without metacharacters: its characters in sequence. *)
Fixpoint lit (ic : bool) (s : string) : regex :=
  match s with
  | "" => Eps
  | String c s' => Cat (Chr (chr_is ic c)) (lit ic s')
  end.

Fixpoint alts (rs : list regex) : regex :=
  match rs with
  | [] => Chr (fun _ => false)
  | [r] => r
  | r :: rs' => Alt r (alts rs')
  end.

Fixpoint cats (rs : list regex) : regex :=
  match rs with
  | [] => Eps
  | [r] => r
  | r :: rs' => Cat r (cats rs')
  end.

Definition re_digit : regex := Chr isdigit.
Definition re_space : regex := Chr isspace.
Definition re_star (r : regex) : regex := Rep true 0 None r.
Definition re_plus (r : regex) : regex := Rep true 1 None r.
Definition re_opt (r : regex) : regex := Rep true 0 (Some 1) r.
Definition re_times (lo hi : nat) (r : regex) : regex := Rep true lo (Some hi) r.

(** ** Section segmentation: [extract_by_keywords] *)

Definition sections : list string :=
  ["Education"; "Experience"; "Skills"; "Projects"].

(** [re.compile(rf'{keyword}', re.IGNORECASE)] for a keyword without
    metacharacters, which the four section names are. *)
Definition keyword_re (keyword : string) : regex := lit true keyword.

(** The [for sec in sections] loop: the first section of the list, other
    than the keyword, that is found in [rest = text[start:]] sets [end] and
    leaves the loop. *)
Fixpoint section_end (start : nat) (rest keyword : string)
    (secs : list string) (dflt : nat) : nat :=
  match secs with
  | [] => dflt
  | sec :: secs' =>
      if String.eqb (lower sec) (lower keyword)
      then section_end start rest keyword secs' dflt
      else
        match re_search (keyword_re sec) rest with
        | Some m2 => start + m_start m2
        | None => section_end start rest keyword secs' dflt
        end
  end.

Definition extract_by_keywords (text keyword : string) : string :=
  match re_search (keyword_re keyword) text with
  | None => ""
  | Some m =>
      let start := m_end m in
      let e := section_end start (drop_str start text) keyword sections
                 (len text) in
      strip (slice text start e)
  end.

(** ** Exceptions *)

Inductive exn : Type :=
| ValueError (msg : string)
| AttributeError (msg : string).

Inductive result (A : Type) : Type :=
| Ok (a : A)
| Raise (e : exn).
Arguments Ok {A} a.
Arguments Raise {A} e.

Definition bind {A B} (x : result A) (f : A → result B) : result B :=
  match x with
  | Ok a => f a
  | Raise e => Raise e
  end.

(** ** Dates: the parts of [datetime] the parser uses *)

Local Open Scope Z_scope.

Record datetime : Type := MkDatetime {
  year : Z; month : Z; day : Z;
  hour : Z; minute : Z; second : Z; microsecond : Z
}.

Definition is_leap (y : Z) : bool :=
  (y mod 4 =? 0) && (negb (y mod 100 =? 0) || (y mod 400 =? 0)).

Definition days_in_month (y m : Z) : Z :=
  if m =? 2 then (if is_leap y then 29 else 28)
  else if (m =? 4) || (m =? 6) || (m =? 9) || (m =? 11) then 30
  else 31.

Definition days_before_year (y : Z) : Z :=
  let y1 := y - 1 in y1 * 365 + y1 / 4 - y1 / 100 + y1 / 400.

(** Days in the year before the first day of month [m] (1 to 12). *)
Definition days_before_month (y m : Z) : Z :=
  fold_right Z.add 0
    (map (days_in_month y) (map Z.of_nat (seq 1 (Z.to_nat (m - 1))))).

Definition ymd2ord (y m d : Z) : Z :=
  days_before_year y + days_before_month y m + d.

Definition toordinal (t : datetime) : Z := ymd2ord (year t) (month t) (day t).

Definition valid_date (y m d : Z) : bool :=
  (1 <=? y) && (y <=? 9999) && (1 <=? m) && (m <=? 12) &&
  (1 <=? d) && (d <=? days_in_month y m).

(** [datetime(y, m, d)]. *)
Definition make_date (y m d : Z) : result datetime :=
  if negb ((1 <=? y) && (y <=? 9999)) then Raise (ValueError "year is out of range")
  else if negb ((1 <=? m) && (m <=? 12)) then Raise (ValueError "month must be in 1..12")
  else if negb ((1 <=? d) && (d <=? days_in_month y m))
  then Raise (ValueError "day is out of range for month")
  else Ok (MkDatetime y m d 0 0 0 0).

Record timedelta : Type := MkTimedelta {
  td_days : Z; td_seconds : Z; td_microseconds : Z
}.

(** [timedelta(days, seconds, microseconds)]: the carries of the
    constructor. *)
Definition make_timedelta (d s us : Z) : timedelta :=
  let s1 := s + us / 1000000 in
  MkTimedelta (d + s1 / 86400) (s1 mod 86400) (us mod 1000000).

Definition seconds_of_day (t : datetime) : Z :=
  second t + minute t * 60 + hour t * 3600.

(** [a - b] on two datetimes. *)
Definition datetime_sub (a b : datetime) : timedelta :=
  make_timedelta (toordinal a - toordinal b)
    (seconds_of_day a - seconds_of_day b)
    (microsecond a - microsecond b).

Definition fields (t : datetime) : list Z :=
  [year t; month t; day t; hour t; minute t; second t; microsecond t].

Fixpoint lex_ltb (a b : list Z) : bool :=
  match a, b with
  | x :: a', y :: b' => (x <? y) || ((x =? y) && lex_ltb a' b')
  | [], _ :: _ => true
  | _, [] => false
  end.

(** [a < b] on two datetimes: the fields compared in order. *)
Definition datetime_ltb (a b : datetime) : bool := lex_ltb (fields a) (fields b).

(** *** [datetime.strptime] *)

Definition a_month : list string :=
  ["jan"; "feb"; "mar"; "apr"; "may"; "jun";
   "jul"; "aug"; "sep"; "oct"; "nov"; "dec"]%string.

Definition f_month : list string :=
  ["january"; "february"; "march"; "april"; "may"; "june"; "july";
   "august"; "september"; "october"; "november"; "december"]%string.

(** [sorted(names, key=len, reverse=True)]: longest first, names of one
    length in their order. *)
Fixpoint insert_by_len (x : string) (l : list string) : list string :=
  match l with
  | [] => [x]
  | y :: l' =>
      if (len y <? len x)%nat then x :: l else y :: insert_by_len x l'
  end.

Definition sort_by_len (l : list string) : list string :=
  fold_left (fun acc x => insert_by_len x acc) l [].

Definition seq_to_re (names : list string) (directive : string) : regex :=
  Grp directive (alts (map (lit true) (sort_by_len names))).

Definition chr_in (lo hi : string) : regex :=
  match lo, hi with
  | String a _, String b _ => Chr (in_range (ord a) (ord b))
  | _, _ => Chr (fun _ => false)
  end.

Definition chr_lit (c : string) : regex := lit true c.

(** The pattern of one directive, as the table of [_strptime.TimeRE]. *)
Definition directive_re (d : ascii) : regex :=
  if Ascii.eqb d "d" then
    Grp "d" (alts [Cat (chr_lit "3") (chr_in "0" "1");
                   Cat (chr_in "1" "2") re_digit;
                   Cat (chr_lit "0") (chr_in "1" "9");
                   chr_in "1" "9";
                   Cat (chr_lit " ") (chr_in "1" "9")])
  else if Ascii.eqb d "m" then
    Grp "m" (alts [Cat (chr_lit "1") (chr_in "0" "2");
                   Cat (chr_lit "0") (chr_in "1" "9");
                   chr_in "1" "9"])
  else if Ascii.eqb d "Y" then
    Grp "Y" (cats [re_digit; re_digit; re_digit; re_digit])
  else if Ascii.eqb d "b" then seq_to_re a_month "b"
  else if Ascii.eqb d "B" then seq_to_re f_month "B"
  else Chr (fun _ => false).

(** The pattern of a format: a directive gives its pattern, a run of
    whitespace gives [\s+], any other character stands for itself. *)
Fixpoint format_re (in_ws : bool) (fmt : string) : list regex :=
  match fmt with
  | EmptyString => []
  | String c rest =>
      if Ascii.eqb c "%" then
        match rest with
        | String d rest' => directive_re d :: format_re false rest'
        | EmptyString => []
        end
      else if isspace c then
        (if in_ws then [] else [re_plus re_space]) ++ format_re true rest
      else Chr (chr_is true c) :: format_re false rest
  end.

Definition format_regex (fmt : string) : regex := cats (format_re false fmt).

Definition digit_val (c : ascii) : Z := Z.of_N (ord c) - 48.

(** [int(s)] for a string of decimal digits, blanks around it ignored. *)
Definition int_of (s : string) : Z :=
  (fix go (acc : Z) (s : string) : Z :=
     match s with
     | "" => acc
     | String c s' => go (acc * 10 + digit_val c) s'
     end%string) 0 (strip s).

Fixpoint index_of (x : string) (l : list string) (i : Z) : option Z :=
  match l with
  | [] => None
  | y :: l' => if String.eqb x y then Some i else index_of x l' (i + 1)
  end.

(** The field a directive sets, with its default when the format lacks
    it. *)
Definition found_year (caps : captures) : Z :=
  match group "Y" caps with Some v => int_of v | None => 1900 end.

Definition found_month (caps : captures) : Z :=
  match group "m" caps, group "B" caps, group "b" caps with
  | Some v, _, _ => int_of v
  | None, Some v, _ => default 1 (index_of (lower v) f_month 1)
  | None, None, Some v => default 1 (index_of (lower v) a_month 1)
  | None, None, None => 1
  end.

Definition found_day (caps : captures) : Z :=
  match group "d" caps with Some v => int_of v | None => 1 end.

Definition strptime (data_string format : string) : result datetime :=
  match re_match (format_regex format) data_string with
  | None => Raise (ValueError "time data does not match format")
  | Some found =>
      if negb (m_end found =? len data_string)%nat
      then Raise (ValueError "unconverted data remains")
      else
        let caps := m_groups found in
        make_date (found_year caps) (found_month caps) (found_day caps)
  end.

(** *** [parse_date] *)

Definition date_formats : list string :=
  ["%Y-%m-%d"; "%Y/%m/%d";
   "%Y-%m"; "%Y/%m";
   "%d-%m-%Y"; "%d/%m/%Y";
   "%b %Y"; "%B %Y"]%string.

(** The [for fmt in date_formats] loop: a [ValueError] of [strptime] moves
    on to the next format, any other exception leaves the function. *)
Fixpoint try_formats (s : string) (fmts : list string) (date_str : string)
    : result datetime :=
  match fmts with
  | [] => Raise (ValueError ("Unknown date format: " ++ date_str))
  | fmt :: fmts' =>
      match strptime s fmt with
      | Ok t => Ok t
      | Raise (ValueError _) => try_formats s fmts' date_str
      | Raise e => Raise e
      end
  end.

Definition is_present (s : string) : bool :=
  String.eqb (lower s) "present" || String.eqb (lower s) "now".

Section Clock.
(** [datetime.now()]. *)
Variable now : datetime.

Definition parse_date (date_str : string) : result datetime :=
  let s := strip date_str in
  if is_present s then Ok now
  else try_formats s date_formats date_str.
End Clock.

(** ** Experience entries: [extract_experience] *)

Local Open Scope nat_scope.

(** [str.splitlines()]; a carriage return followed by a line feed is one
    boundary. *)
Fixpoint splitlines_go (cur : string) (s : string) : list string :=
  match s with
  | EmptyString => if String.eqb cur "" then [] else [String.rev cur]
  | String c s' =>
      if Ascii.eqb c "013" then
        match s' with
        | String d s'' =>
            if Ascii.eqb d "010"
            then String.rev cur :: splitlines_go "" s''
            else String.rev cur :: splitlines_go "" s'
        | EmptyString => [String.rev cur]
        end
      else if islinebreak c then String.rev cur :: splitlines_go "" s'
      else splitlines_go (String c cur) s'
  end.

Definition splitlines (s : string) : list string := splitlines_go "" s.

Definition sep_class : regex := Chr (fun c => mem_char c "/-").
Definition re_alpha : regex := Chr isalpha_ascii.
Definition no_char : regex := Chr (fun _ => false).

(** [\d{1,2}[/-]\d{1,2}[/-]\d{2,4}] *)
Definition re_dmy : regex :=
  cats [re_times 1 2 re_digit; sep_class; re_times 1 2 re_digit; sep_class;
        re_times 2 4 re_digit].

(** [[A-Za-z]{3,}\.? ?\d{4}] *)
Definition re_month_year : regex :=
  cats [Rep true 3 None re_alpha; re_opt (lit true "."); re_opt (lit true " ");
        re_times 4 4 re_digit].

(** [\d{4}[/-]\d{2}] *)
Definition re_ym : regex :=
  cats [re_times 4 4 re_digit; sep_class; re_times 2 2 re_digit].

(** [\s*(?:-|U+2013|U+2014|to)\s*] *)
Definition re_range_sep : regex :=
  cats [re_star re_space; alts [lit true "-"; no_char; no_char; lit true "to"];
        re_star re_space].

Definition date_pattern : regex :=
  cats [Grp "start" (alts [re_dmy; re_month_year; re_ym]);
        re_range_sep;
        Grp "end" (alts [re_dmy; lit true "Present"; lit true "Now";
                         re_month_year; re_ym])].

(** [During|Business|Website|Key|As], case-sensitive. *)
Definition noise_re : regex :=
  alts (map (lit false) ["During"; "Business"; "Website"; "Key"; "As"]).

(** [^[a-z]+(?:\s+[a-z]+)*,\s*], case-sensitive. *)
Definition prefix_re : regex :=
  cats [Bol; re_plus (Chr islower_ascii);
        re_star (Cat (re_plus re_space) (re_plus (Chr islower_ascii)));
        lit false ","; re_star re_space].

Definition re_any : regex := Chr (fun c => negb (Ascii.eqb c "010")).

(** [(?P<role>.+?)\s+at\s+(?P<company>.+)], ignoring case. *)
Definition role_re : regex :=
  cats [Grp "role" (Rep false 1 None re_any); re_plus re_space; lit true "at";
        re_plus re_space; Grp "company" (re_plus re_any)].

(** [re.split(r, s)[0]]: the text before the first match. *)
Definition re_split_head (r : regex) (s : string) : string :=
  match re_search r s with
  | Some m => take_str (m_start m) s
  | None => s
  end.

Fixpoint sub_pieces (ms : list rmatch_t) (repl s : string) (pos : nat) : string :=
  match ms with
  | [] => drop_str pos s
  | m :: ms' =>
      slice s pos (m_start m) ++ repl ++ sub_pieces ms' repl s (m_end m)
  end.

(** [re.sub(r, repl, s)] for a constant replacement. *)
Definition re_sub (r : regex) (repl s : string) : string :=
  sub_pieces (re_finditer r s) repl s 0.

Record entry : Type := MkEntry {
  role : string;
  company : string;
  start_date : datetime;
  end_date : datetime;
  duration : Q
}.

(** [x or y] on strings. *)
Definition str_or (x y : string) : string :=
  if String.eqb x "" then y else x.

Definition clean_label (seg : string) (m : rmatch_t) : string :=
  let label_part :=
    str_or (strip (drop_str (m_end m) seg)) (strip (take_str (m_start m) seg)) in
  let label_clean := strip_chars " -:" (re_split_head noise_re label_part) in
  re_sub prefix_re "" label_clean.

Definition role_company (label_clean : string) : string * string :=
  match re_match role_re label_clean with
  | Some rc =>
      (strip (default "" (group "role" (m_groups rc))),
       strip (default "" (group "company" (m_groups rc))))
  | None => (label_clean, "")
  end.

(** [(end_date - start_date).days / 365] *)
Definition duration_of (start_date end_date : datetime) : Q :=
  Qmake (td_days (datetime_sub end_date start_date)) 365.

Definition make_entry (seg : string) (m : rmatch_t)
    (start_date end_date : datetime) : entry :=
  let rc := role_company (clean_label seg m) in
  MkEntry (fst rc) (snd rc) start_date end_date
          (duration_of start_date end_date).

Section Extraction.
Variable now : datetime.

(** [parse_date(m.group(name))]; a group that took no part in the match
    is [None], on which [parse_date] fails at [date_str.strip()]. *)
Definition parse_group (m : rmatch_t) (name : string) : result datetime :=
  match group name (m_groups m) with
  | Some v => parse_date now v
  | None => Raise (AttributeError "'NoneType' object has no attribute 'strip'")
  end.

(** The body of the [try]. *)
Definition parse_range (m : rmatch_t) : result (datetime * datetime) :=
  bind (parse_group m "start") (fun start_date =>
  bind (parse_group m "end") (fun end_date =>
  Ok (start_date, end_date))).

(** One turn of the inner loop: [None] when [except ValueError: continue]
    skips the match. *)
Definition match_entry (seg : string) (m : rmatch_t) : result (option entry) :=
  match parse_range m with
  | Ok (start_date, end_date) => Ok (Some (make_entry seg m start_date end_date))
  | Raise (ValueError _) => Ok None
  | Raise e => Raise e
  end.

(** The inner loop, appending to [entries]. *)
Fixpoint scan_matches (seg : string) (ms : list rmatch_t) (entries : list entry)
    : result (list entry) :=
  match ms with
  | [] => Ok entries
  | m :: ms' =>
      bind (match_entry seg m) (fun oe =>
      scan_matches seg ms' (entries ++ option_list oe))
  end.

(** The outer loop. *)
Fixpoint scan_lines (lines : list string) (entries : list entry)
    : result (list entry) :=
  match lines with
  | [] => Ok entries
  | line :: lines' =>
      let seg := strip line in
      if String.eqb seg "" then scan_lines lines' entries
      else
        bind (scan_matches seg (re_finditer date_pattern seg) entries)
             (fun entries' => scan_lines lines' entries')
  end.

Definition extract_experience (text : string) : result (list entry) :=
  if String.eqb text "" then Ok []
  else scan_lines (splitlines text) [].
End Extraction.

(** ** Numbers *)

Local Open Scope Q_scope.

Definition Qltb (x y : Q) : bool := negb (Qle_bool y x).

(** The nearest integer, a tie going to the even one. *)
Definition round_half_even (x : Q) : Z :=
  let f := Qfloor x in
  match Qcompare (x - inject_Z f) (1 # 2) with
  | Lt => f
  | Gt => (f + 1)%Z
  | Eq => if Z.even f then f else (f + 1)%Z
  end.

(** [round(x, 2)] *)
Definition round2 (x : Q) : Q :=
  Qred (Qmake (round_half_even (x * 100)) 100).

(** [np.isclose(a, b)] with the default tolerances [rtol = 1e-05] and
    [atol = 1e-08]. *)
Definition np_isclose (a b : Q) : bool :=
  Qle_bool (Qabs (a - b)) ((1 # 100000000) + (1 # 100000) * Qabs b).

(** ** The scorer: [SemanticScorer] *)

(** The sentence-embedding model behind [embed] and the cosine similarity
    behind [get_similarity]. *)
Class Embedder : Type := {
  vec : Type;
  encode : string → vec;
  cosine_similarity : vec → vec → Q
}.

(** A value of the report: a float or a string. *)
Inductive pyval : Type :=
| VFloat (x : Q)
| VStr (s : string).

Definition SECTIONS : list string := ["skills"; "experience"; "education"]%string.

Definition default_weights : gmap string Q :=
  list_to_map [("skills", 4 # 10); ("experience", 3 # 10);
               ("education", 15 # 100); ("others", 15 # 100)]%string.

(** [sum(weights.values())] *)
Definition sum_values (weights : gmap string Q) : Q :=
  map_fold (fun _ v acc => acc + v) 0 weights.

Record scorer : Type := MkScorer { weights : gmap string Q }.

(** The body of [__init__] after [self.weights] is set. *)
Definition check_weights (w : gmap string Q) : result scorer :=
  if negb (np_isclose (sum_values w) 1)
  then Raise (ValueError "The weights must sum to 1.0")
  else Ok (MkScorer w).

(** [SemanticScorer()]: the constructor takes no argument and sets the
    weights itself. *)
Definition SemanticScorer : result scorer := check_weights default_weights.

Record loop_state : Type := MkLoop {
  section_scores : gmap string pyval;
  total_score : Q;
  best_match_score : Q;
  best_match_section : string
}.

Section Scoring.
Context `{Embedder}.
Variable self : scorer.

(** [text.strip() if text else ""], then the model. *)
Definition embed (text : string) : vec := encode (strip text).

Definition get_similarity (emb1 emb2 : vec) : Q := cosine_similarity emb1 emb2.

(** [d.get(sec, '')] *)
Definition get_text (d : gmap string string) (sec : string) : string :=
  default ""%string (d !! sec).

Definition section_similarity (cv jd : gmap string string) (sec : string) : Q :=
  get_similarity (embed (get_text cv sec)) (embed (get_text jd sec)).

(** One turn of [for sec in self.SECTIONS]. *)
Definition score_step (cv jd : gmap string string) (st : loop_state)
    (sec : string) : loop_state :=
  let sim := section_similarity cv jd sec in
  let weighted_score := sim * 100 * default 0 (weights self !! sec) in
  let better := Qltb (best_match_score st) sim in
  MkLoop (<[(sec ++ "_similarity")%string := VFloat sim]> (section_scores st))
         (total_score st + weighted_score)
         (if better then sim else best_match_score st)
         (if better then sec else best_match_section st).

Definition score_loop (cv jd : gmap string string) : loop_state :=
  fold_left (score_step cv jd) SECTIONS (MkLoop ∅ 0 (-1) ""%string).

Definition score_cv (cv jd : gmap string string) : gmap string pyval :=
  let st := score_loop cv jd in
  <["total_score"%string := VFloat (round2 (total_score st))]>
    (<["best_match_section"%string := VStr (capitalize (best_match_section st))]>
       (<["best_match_score"%string := VFloat (round2 (best_match_score st * 100))]>
          (section_scores st))).
End Scoring.

(** *** Missing keywords *)

(** [s.replace(',', ' ')] *)
Fixpoint replace_comma (s : string) : string :=
  match s with
  | EmptyString => EmptyString
  | String c s' =>
      String (if Ascii.eqb c "," then " "%char else c) (replace_comma s')
  end.

(** [s.split()]: the maximal runs of characters that are not whitespace. *)
Fixpoint split_go (cur : string) (s : string) : list string :=
  match s with
  | EmptyString => if String.eqb cur "" then [] else [String.rev cur]
  | String c s' =>
      if isspace c
      then (if String.eqb cur "" then [] else [String.rev cur]) ++ split_go "" s'
      else split_go (String c cur) s'
  end.

Definition split (s : string) : list string := split_go "" s.

(** [set(text.lower().replace(',', ' ').split())] *)
Definition words (text : string) : gset string :=
  list_to_set (split (replace_comma (lower text))).

Definition missing_step (cv jd : gmap string string) (missing : gset string)
    (sec : string) : gset string :=
  let cv_words := words (get_text cv sec) in
  let jd_words := words (get_text jd sec) in
  missing ∪ (jd_words ∖ cv_words).

Definition find_missing_keywords (cv jd : gmap string string) : list string :=
  let missing := fold_left (missing_step cv jd) SECTIONS ∅ in
  merge_sort String.le (elements missing).

(** ** Contact details: [extract_contact_info] *)

Local Open Scope nat_scope.

(** [m.group()]: the text of the match. *)
Definition group0 (s : string) (m : rmatch_t) : string :=
  slice s (m_start m) (m_end m).

(** [\w] of [re] on [str]: a letter, a digit or the underscore. *)
Definition isword (c : ascii) : bool :=
  isdigit c || isalpha_ascii c || (ord c =? 95)%N || (ord c =? 170)%N ||
  in_range 178 179 c || (ord c =? 181)%N || in_range 185 186 c ||
  in_range 188 190 c || in_range 192 214 c || in_range 216 246 c ||
  in_range 248 255 c.

(** [[\w\.-]] *)
Definition isemail (c : ascii) : bool := isword c || mem_char c ".-".

(** [[\w\.-]+@[\w\.-]+] *)
Definition email_re : regex :=
  cats [re_plus (Chr isemail); lit false "@"; re_plus (Chr isemail)].

(** [(?:\+\d{1,3}[\s-]?)?\d{10,15}] *)
Definition phone_re : regex :=
  cats [re_opt (cats [lit false "+"; re_times 1 3 re_digit;
                      re_opt (Chr (fun c => isspace c || Ascii.eqb c "-"))]);
        re_times 10 15 re_digit].

(** [\S] *)
Definition re_nonspace : regex := Chr (fun c => negb (isspace c)).

(** [github\.com/\S+], ignoring case. *)
Definition github_re : regex :=
  cats [lit true "github.com/"; re_plus re_nonspace].

(** [linkedin\.com/\S+], ignoring case. *)
Definition linkedin_re : regex :=
  cats [lit true "linkedin.com/"; re_plus re_nonspace].

(** One of the four [re.search] steps: the key is set when the pattern is
    found. *)
Definition set_found (key : string) (r : regex) (text : string)
    (contact : gmap string string) : gmap string string :=
  match re_search r text with
  | Some m => <[key := group0 text m]> contact
  | None => contact
  end.

Definition extract_contact_info (text : string) : gmap string string :=
  let contact := ∅ in
  let contact := set_found "email" email_re text contact in
  let contact := set_found "phone" phone_re text contact in
  let contact := set_found "github" github_re text contact in
  let contact := set_found "linkedin" linkedin_re text contact in
  contact.

(** ** All the fields: [extract_structured_fields] *)

Record structured : Type := MkStructured {
  contact : gmap string string;
  education : string;
  experience : string;
  skills : string;
  projects : string;
  experience_details : list entry
}.

Definition extract_structured_fields (now : datetime) (text : string)
    : result structured :=
  let contact := extract_contact_info text in
  let education := extract_by_keywords text "Education" in
  let experience := extract_by_keywords text "Experience" in
  let skills := extract_by_keywords text "Skills" in
  let projects := extract_by_keywords text "Projects" in
  bind (extract_experience now experience) (fun experience_details =>
  Ok (MkStructured contact education experience skills projects
        experience_details)).

(** The record as the scorer reads it: [data.get(sec, '')] on one of its
    text fields. *)
Definition section_texts (data : structured) : gmap string string :=
  list_to_map [("education", education data); ("experience", experience data);
               ("skills", skills data); ("projects", projects data)].

(** ** The timeline: [generate_experience_image] *)

(** [sep.join(ws)] *)
Fixpoint join (sep : string) (ws : list string) : string :=
  match ws with
  | [] => ""
  | [w] => w
  | w :: ws' => w +:+ sep +:+ join sep ws'
  end.

Record job : Type := MkJob {
  job_title : string;
  job_start : datetime;
  job_end : datetime
}.

(** One turn of [for e in entries]: the dates put in order, the title cut
    to six words. *)
Definition job_of (e : entry) : job :=
  let s := start_date e in
  let t := end_date e in
  let st := if datetime_ltb t s then (t, s) else (s, t) in
  let title :=
    role e +:+ (if String.eqb (company e) "" then "" else " at " +:+ company e) in
  let title :=
    if 6 <? length (split title)
    then join " " (take 6 (split title)) +:+ " ..."
    else title in
  MkJob title (fst st) (snd st).

(** [jobs.sort(key=lambda x: x['start'])]: jobs of one start stay in their
    order. *)
Fixpoint insert_job (j : job) (l : list job) : list job :=
  match l with
  | [] => [j]
  | x :: l' =>
      if datetime_ltb (job_start j) (job_start x)
      then j :: l else x :: insert_job j l'
  end.

Definition sort_jobs (l : list job) : list job :=
  fold_left (fun acc j => insert_job j acc) l [].

(** The list [jobs] once it is sorted. *)
Definition timeline_jobs (entries : list entry) : list job :=
  sort_jobs (map job_of entries).

(** [sum((job['end'] - job['start']).days for job in jobs) / 365] *)
Definition total_years (jobs : list job) : Q :=
  Qmake (fold_right Z.add 0%Z
           (map (fun j => td_days (datetime_sub (job_end j) (job_start j))) jobs))
        365.

(** ** The word cloud: [generate_word_cloud] *)

Section WordCloud.
(** [WordCloud(...).generate(text)] drawn, saved and encoded in base 64;
    the library raises when the text has no word to draw. *)
Variable draw_cloud : string → result string.

Definition generate_word_cloud (keywords : list string) : result (option string) :=
  match keywords with
  | [] => Ok None
  | _ => bind (draw_cloud (join " " keywords)) (fun png => Ok (Some png))
  end.
End WordCloud.

(** ** Text cleaning and loading: [utils.py], [file_loader.py],
    [cv_preprocessor.py] *)

(** [s.replace(old, '')] for a single character. *)
Fixpoint remove_char (old : ascii) (s : string) : string :=
  match s with
  | EmptyString => EmptyString
  | String c s' =>
      if Ascii.eqb c old then remove_char old s' else String c (remove_char old s')
  end.

Definition clean_text (text : string) : string :=
  let text := re_sub (re_plus re_space) " " text in
  let text := remove_char "012" text in
  strip text.

(** [s.endswith(suffix)] *)
Definition endswith (s suffix : string) : bool :=
  (len suffix <=? len s) && String.eqb (drop_str (len s - len suffix) s) suffix.

Record preprocessed : Type := MkPreprocessed {
  cleaned_text : string;
  sentences : list string
}.

Section Loader.
(** [pdfminer.high_level.extract_text] *)
Variable extract_text : string → result string.
(** [nltk.tokenize.sent_tokenize] *)
Variable sent_tokenize : string → result (list string).

Definition load_file (path : string) : result string :=
  if endswith (lower path) ".pdf" then extract_text path
  else Raise (ValueError "Unsupported file format. Only PDF is supported.").

Definition split_sentences (text : string) : result (list string) :=
  sent_tokenize text.

Definition preprocess_cv (filepath : string) : result preprocessed :=
  bind (load_file filepath) (fun raw_text =>
  let cleaned := clean_text raw_text in
  bind (split_sentences cleaned) (fun sentences =>
  Ok (MkPreprocessed cleaned sentences))).
End Loader.

(** ** The upload filter of [run.py]: [allowed_file] *)

Definition ALLOWED_EXTENSIONS : list string := ["pdf"; "docx"].

(** [s.rsplit(sep, 1)]: split at the last separator, if there is one. *)
Fixpoint rsplit1 (sep : ascii) (s : string) : list string :=
  match s with
  | EmptyString => [EmptyString]
  | String c s' =>
      match rsplit1 sep s' with
      | [a; b] => [String c a; b]
      | _ => if Ascii.eqb c sep then [EmptyString; s'] else [String c s']
      end
  end.

Definition allowed_file (filename : string) : bool :=
  mem_char "." filename &&
  bool_decide (lower (nth 1 (rsplit1 "." filename) "") ∈ ALLOWED_EXTENSIONS).

(** * Properties *)

(** ** Strings *)

Local Open Scope nat_scope.

Lemma len_lower s : len (lower s) = len s.
Proof. induction s as [|c s IH]; simpl; congruence. Qed.

Lemma len_take n s : len (take_str n s) = Nat.min n (len s).
Proof.
  revert s; induction n as [|n IH]; intros [|c s]; simpl; try reflexivity.
  now rewrite IH.
Qed.

Lemma len_drop n s : len (drop_str n s) = len s - n.
Proof.
  revert s; induction n as [|n IH]; intros [|c s]; simpl; try reflexivity.
  apply IH.
Qed.

(** ** Literal patterns *)

(** [kw] is a prefix of [s], ignoring case. *)
Definition ci_prefix (kw s : string) : bool :=
  String.eqb (lower (take_str (len kw) s)) (lower kw).

Lemma ci_prefix_cons c kw x s :
  ci_prefix (String c kw) (String x s) =
  Ascii.eqb (lower_char x) (lower_char c) && ci_prefix kw s.
Proof.
  unfold ci_prefix; simpl.
  destruct (Ascii.eqb (lower_char x) (lower_char c)); reflexivity.
Qed.

Lemma ci_prefix_len kw s : ci_prefix kw s = true → len kw ≤ len s.
Proof.
  unfold ci_prefix; intros E%String.eqb_eq.
  apply (f_equal len) in E. rewrite !len_lower, len_take in E. lia.
Qed.

Lemma rmatch_lit {R} n0 kw s caps (k : string → captures → option R) :
  rmatch n0 (lit true kw) s caps k =
  if ci_prefix kw s then k (drop_str (len kw) s) caps else None.
Proof.
  revert s; induction kw as [|c kw IH]; intros s.
  - reflexivity.
  - destruct s as [|x s].
    + reflexivity.
    + rewrite ci_prefix_cons. simpl. unfold chr_is.
      destruct (Ascii.eqb (lower_char x) (lower_char c)); simpl; [apply IH | reflexivity].
Qed.

Lemma match_here_lit n0 kw s pos :
  match_here (lit true kw) n0 s pos =
  if ci_prefix kw s then Some (MkMatch pos (pos + len kw) []) else None.
Proof.
  unfold match_here. rewrite rmatch_lit.
  destruct (ci_prefix kw s) eqn:E; [|reflexivity].
  apply ci_prefix_len in E. rewrite len_drop.
  do 2 f_equal. lia.
Qed.

(** [kw] occurs in [text] at index [i], ignoring case. *)
Definition occurs_at (kw text : string) (i : nat) : Prop :=
  lower (slice text i (i + len kw)) = lower kw.

(** The first occurrence of [kw] in [text] is at index [i]. *)
Definition first_at (kw text : string) (i : nat) : Prop :=
  occurs_at kw text i ∧ ∀ j, j < i → ¬ occurs_at kw text j.

(** [kw] does not occur in [text]. *)
Definition absent (kw text : string) : Prop := ∀ i, ¬ occurs_at kw text i.

Lemma occurs_at_prefix kw text i :
  occurs_at kw text i ↔ ci_prefix kw (drop_str i text) = true.
Proof.
  unfold occurs_at, ci_prefix, slice.
  replace (i + len kw - i) with (len kw) by lia.
  symmetry; apply String.eqb_eq.
Qed.

Lemma occurs_at_S kw c text i :
  occurs_at kw (String c text) (S i) ↔ occurs_at kw text i.
Proof. now rewrite !occurs_at_prefix. Qed.

Lemma search_from_lit n0 kw s pos :
  match search_from (lit true kw) n0 s pos with
  | Some m =>
      ∃ i, first_at kw s i ∧ m = MkMatch (pos + i) (pos + i + len kw) []
  | None => absent kw s
  end.
Proof.
  revert pos; induction s as [|c s IH]; intros pos; simpl;
    rewrite match_here_lit.
  - destruct (ci_prefix kw "") eqn:E.
    + exists 0. split; [split|].
      * now apply occurs_at_prefix.
      * intros j Hj; lia.
      * now rewrite !Nat.add_0_r.
    + intros i Hi. apply occurs_at_prefix in Hi.
      destruct i; simpl in Hi; congruence.
  - destruct (ci_prefix kw (String c s)) eqn:E.
    + exists 0. split; [split|].
      * now apply occurs_at_prefix.
      * intros j Hj; lia.
      * now rewrite !Nat.add_0_r.
    + specialize (IH (S pos)).
      destruct (search_from (lit true kw) n0 s (S pos)) as [m|].
      * destruct IH as (i & [Hi Hmin] & ->). exists (S i). split; [split|].
        -- now apply occurs_at_S.
        -- intros [|j] Hj.
           ++ rewrite occurs_at_prefix; simpl; congruence.
           ++ rewrite occurs_at_S. apply Hmin; lia.
        -- f_equal; lia.
      * intros [|i].
        -- rewrite occurs_at_prefix; simpl; congruence.
        -- rewrite occurs_at_S. apply IH.
Qed.

Lemma first_at_unique kw s i j : first_at kw s i → first_at kw s j → i = j.
Proof.
  intros [Hi Hi'] [Hj Hj'].
  destruct (Nat.lt_trichotomy i j) as [Hlt|[->|Hlt]]; [|reflexivity|].
  - now apply Hj' in Hlt.
  - now apply Hi' in Hlt.
Qed.

(** [re.search] with a keyword pattern finds the first occurrence. *)
Lemma re_search_keyword kw s :
  match re_search (keyword_re kw) s with
  | Some m => ∃ i, first_at kw s i ∧ m = MkMatch i (i + len kw) []
  | None => absent kw s
  end.
Proof.
  unfold re_search, keyword_re.
  pose proof (search_from_lit (len s) kw s 0) as Hs.
  destruct (search_from (lit true kw) (len s) s 0); [|exact Hs].
  destruct Hs as (i & Hi & ->). now exists i.
Qed.

Lemma re_search_first kw s i :
  first_at kw s i → re_search (keyword_re kw) s = Some (MkMatch i (i + len kw) []).
Proof.
  intros Hi. pose proof (re_search_keyword kw s) as Hs.
  destruct (re_search (keyword_re kw) s) as [m|].
  - destruct Hs as (j & Hj & ->). now rewrite (first_at_unique _ _ _ _ Hi Hj).
  - destruct Hi as [Hi _]. now apply Hs in Hi.
Qed.

Lemma re_search_absent kw s : absent kw s → re_search (keyword_re kw) s = None.
Proof.
  intros Ha. pose proof (re_search_keyword kw s) as Hs.
  destruct (re_search (keyword_re kw) s) as [m|]; [|reflexivity].
  destruct Hs as (j & [Hj _] & _). now apply Ha in Hj.
Qed.

(** ** Section segmentation *)

(** [sec] is a recognised section keyword other than [keyword]. *)
Definition other_section (keyword sec : string) : Prop :=
  In sec sections ∧ sec ≠ keyword.

Lemma section_skip keyword sec :
  In keyword sections → In sec sections →
  String.eqb (lower sec) (lower keyword) = true ↔ sec = keyword.
Proof.
  unfold sections; simpl; intros Hk Hs.
  repeat (destruct Hk as [<-|Hk]; [|]); try contradiction;
    repeat (destruct Hs as [<-|Hs]; [|]); try contradiction;
    vm_compute; split; congruence.
Qed.

(** The place of [sec] in the list [secs], which is the order in which the
    loop tries the sections. *)
Fixpoint place_of (sec : string) (secs : list string) : nat :=
  match secs with
  | [] => 0
  | x :: secs' => if String.eqb x sec then 0 else S (place_of sec secs')
  end.

(** [sec'] is tried before [sec]: it stands before it in the list
    Education, Experience, Skills, Projects. *)
Definition listed_before (sec' sec : string) : Prop :=
  place_of sec' sections < place_of sec sections.

Section SectionEnd.
Variables (start : nat) (rest keyword : string) (dflt : nat).
Hypothesis Hkw : In keyword sections.

Lemma section_end_none secs :
  incl secs sections →
  (∀ sec, In sec secs → sec ≠ keyword → absent sec rest) →
  section_end start rest keyword secs dflt = dflt.
Proof.
  induction secs as [|sec secs IH]; intros Hin Habs; simpl; [reflexivity|].
  assert (Hsec : In sec sections) by (apply Hin; now left).
  assert (Hrec : section_end start rest keyword secs dflt = dflt).
  { apply IH; [intros x Hx; apply Hin; now right|].
    intros x Hx; apply Habs; now right. }
  destruct (String.eqb (lower sec) (lower keyword)) eqn:E; [exact Hrec|].
  rewrite re_search_absent; [exact Hrec|].
  apply Habs; [now left|].
  intros ->. apply (section_skip keyword keyword) in Hsec; [|exact Hkw].
  assert (keyword = keyword) as Heq by reflexivity.
  apply Hsec in Heq. congruence.
Qed.

Lemma section_end_some secs :
  incl secs sections →
  let e := section_end start rest keyword secs dflt in
  (e = dflt ∧ ∀ sec, In sec secs → sec ≠ keyword → absent sec rest) ∨
  (∃ sec j, In sec secs ∧ sec ≠ keyword ∧ first_at sec rest j ∧ e = start + j).
Proof.
  induction secs as [|x secs IH]; intros Hin; simpl.
  - left. split; [reflexivity|]. intros sec [].
  - assert (Hx : In x sections) by (apply Hin; now left).
    assert (Hinc : incl secs sections) by (intros y Hy; apply Hin; now right).
    specialize (IH Hinc). simpl in IH.
    destruct (String.eqb (lower x) (lower keyword)) eqn:E.
    + apply (section_skip keyword x Hkw Hx) in E. subst x.
      destruct IH as [[He Habs]|(sec & j & Hs & Hne & Hj & He)].
      * left. split; [exact He|].
        intros sec [<-|Hs] Hne; [congruence | now apply Habs].
      * right. exists sec, j. split; [now right|].
           split; [exact Hne|]. split; [exact Hj|exact He].
    + pose proof (re_search_keyword x rest) as Hs.
      destruct (re_search (keyword_re x) rest) as [m|].
      * destruct Hs as (j & Hj & ->). right. exists x, j.
        split; [now left|]. split; [|split; [exact Hj|reflexivity]].
        intros ->. assert (keyword = keyword) as Heq by reflexivity.
        apply (section_skip keyword keyword Hkw Hx) in Heq. congruence.
      * destruct IH as [[He Habs]|(sec & j & Hsec & Hne & Hj & He)].
        -- left. split; [exact He|].
           intros sec [<-|Hsec] Hne; [exact Hs | now apply Habs].
        -- right. exists sec, j. split; [now right|].
           split; [exact Hne|]. split; [exact Hj|exact He].
Qed.
(** The loop stops at the first section of the list, other than the
    keyword, that occurs in [rest], wherever the later ones occur. *)
Lemma section_end_first secs sec j :
  incl secs sections → In sec secs → sec ≠ keyword → first_at sec rest j →
  (∀ sec', In sec' secs → sec' ≠ keyword →
     place_of sec' secs < place_of sec secs → absent sec' rest) →
  section_end start rest keyword secs dflt = start + j.
Proof.
  induction secs as [|x secs IH]; intros Hin Hsec Hne Hj Habs; simpl;
    [destruct Hsec|].
  assert (Hx : In x sections) by (apply Hin; now left).
  assert (Hinc : incl secs sections) by (intros y Hy; apply Hin; now right).
  destruct (String.eqb (lower x) (lower keyword)) eqn:E.
  - apply (section_skip keyword x Hkw Hx) in E. subst x.
    destruct Hsec as [->|Hsec]; [congruence|].
    apply IH; auto. intros y Hy Hyk Hlt. apply Habs; [now right|exact Hyk|].
    simpl. destruct (String.eqb_spec keyword y) as [->|_]; [congruence|].
    destruct (String.eqb_spec keyword sec) as [->|_]; [congruence|]. lia.
  - destruct (string_dec x sec) as [->|Hxs].
    + now rewrite (re_search_first _ _ _ Hj).
    + assert (Hxk : x ≠ keyword).
      { intros ->. assert (keyword = keyword) as Heq by reflexivity.
        apply (section_skip keyword keyword Hkw Hx) in Heq. congruence. }
      rewrite re_search_absent.
      * destruct Hsec as [->|Hsec]; [congruence|].
        apply IH; auto. intros y Hy Hyk Hlt. apply Habs; [now right|exact Hyk|].
        simpl. destruct (String.eqb_spec x sec) as [->|_]; [congruence|].
        destruct (String.eqb x y); lia.
      * apply Habs; [now left|exact Hxk|].
        simpl. rewrite String.eqb_refl.
        destruct (String.eqb_spec x sec) as [->|_]; [congruence|]. lia.
Qed.

(** What the loop returns: the default when no other section occurs in
    [rest], and otherwise the first occurrence of the section that is first
    in the list among those that occur. *)
Lemma section_end_order secs :
  incl secs sections →
  let e := section_end start rest keyword secs dflt in
  (e = dflt ∧ ∀ sec, In sec secs → sec ≠ keyword → absent sec rest) ∨
  (∃ sec j, In sec secs ∧ sec ≠ keyword ∧ first_at sec rest j ∧ e = start + j ∧
     ∀ sec', In sec' secs → sec' ≠ keyword →
       place_of sec' secs < place_of sec secs → absent sec' rest).
Proof.
  intros Hin.
  destruct (section_end_some secs Hin) as [Hnone|(sec & j & Hs & Hne & Hj & He)];
    [now left|].
  clear He. right. revert sec j Hs Hne Hj.
  induction secs as [|x secs IH]; intros sec j Hs Hne Hj; [destruct Hs|].
  assert (Hx : In x sections) by (apply Hin; now left).
  assert (Hinc : incl secs sections) by (intros y Hy; apply Hin; now right).
  simpl section_end.
  destruct (String.eqb (lower x) (lower keyword)) eqn:E.
  - apply (section_skip keyword x Hkw Hx) in E. subst x.
    destruct Hs as [->|Hs]; [congruence|].
    destruct (IH Hinc sec j Hs Hne Hj) as (s0 & j0 & Hs0 & Hne0 & Hj0 & He0 & Hord).
    exists s0, j0. split; [now right|]. split; [exact Hne0|].
    split; [exact Hj0|]. split; [exact He0|].
    intros y [<-|Hy] Hyk; [congruence|]. simpl.
    destruct (String.eqb_spec keyword y) as [->|_]; [congruence|].
    destruct (String.eqb_spec keyword s0) as [->|_]; [congruence|].
    intros Hlt. apply Hord; [exact Hy|exact Hyk|lia].
  - assert (Hxk : x ≠ keyword).
    { intros ->. assert (keyword = keyword) as Heq by reflexivity.
      apply (section_skip keyword keyword Hkw Hx) in Heq. congruence. }
    pose proof (re_search_keyword x rest) as Hsx.
    destruct (re_search (keyword_re x) rest) as [m|].
    + destruct Hsx as (jx & Hjx & ->). exists x, jx.
      split; [now left|]. split; [exact Hxk|]. split; [exact Hjx|].
      split; [reflexivity|].
      intros y _ _. simpl. rewrite String.eqb_refl. lia.
    + assert (Hs' : In sec secs).
      { destruct Hs as [->|Hs]; [|exact Hs].
        destruct Hj as [Hocc _]. now apply Hsx in Hocc. }
      destruct (IH Hinc sec j Hs' Hne Hj) as (s0 & j0 & Hs0 & Hne0 & Hj0 & He0 & Hord).
      exists s0, j0. split; [now right|]. split; [exact Hne0|].
      split; [exact Hj0|]. split; [exact He0|].
      intros y [<-|Hy] Hyk; [intros _; exact Hsx|]. simpl.
      destruct (String.eqb_spec x s0) as [->|_].
      { destruct Hj0 as [Hocc _]. now apply Hsx in Hocc. }
      destruct (String.eqb_spec x y) as [->|_]; [intros _; exact Hsx|].
      intros Hlt. apply Hord; [exact Hy|exact Hyk|lia].
Qed.
End SectionEnd.

Lemma first_at_by_search kw s m :
  re_search (keyword_re kw) s = Some m → first_at kw s (m_start m).
Proof.
  intros E. pose proof (re_search_keyword kw s) as Hs. rewrite E in Hs.
  now destruct Hs as (i & Hi & ->).
Qed.

Lemma absent_by_search kw s : re_search (keyword_re kw) s = None → absent kw s.
Proof.
  intros E. pose proof (re_search_keyword kw s) as Hs. now rewrite E in Hs.
Qed.

Lemma first_at_le kw s i j : first_at kw s i → occurs_at kw s j → i ≤ j.
Proof.
  intros [_ Hmin] Hj. destruct (Nat.le_gt_cases i j) as [|Hlt]; [assumption|].
  now apply Hmin in Hlt.
Qed.

(** The boundary rule as the design document words it, for an extractor [f]
    whose result is passed through [post]: nothing when the keyword is
    absent; otherwise the text after the keyword's first occurrence, up to
    the nearest occurrence of any other recognised keyword, or to the end
    of the document when there is none. *)
Definition stated_segmentation (post : string → string)
    (f : string → string → string) : Prop :=
  ∀ text keyword, In keyword sections →
    (absent keyword text → f text keyword = "") ∧
    (∀ i, first_at keyword text i →
       let start := i + len keyword in
       let rest := drop_str start text in
       ((∀ sec, other_section keyword sec → absent sec rest) →
          f text keyword = post (slice text start (len text))) ∧
       (∀ sec j, other_section keyword sec → first_at sec rest j →
          (∀ sec' j', other_section keyword sec' → occurs_at sec' rest j' → j ≤ j') →
          f text keyword = post (slice text start (start + j)))).

(** C1 (as amended).  For a keyword among Education, Experience, Skills and
    Projects, [extract_by_keywords] returns the empty string when the keyword
    does not occur in the text, ignoring case.  Otherwise, with [start] just
    after the keyword's first occurrence, it returns [text[start:e]] with the
    whitespace at both ends stripped.  The end [e] is the end of the document
    when no other recognised keyword occurs after [start].  When some do, [e]
    is the first occurrence after [start] of the one among them that stands
    first in the list Education, Experience, Skills, Projects, wherever the
    others occur: the order of the list decides, not the order in the
    text. *)
Theorem extract_by_keywords_segments (text keyword : string) :
  In keyword sections →
  (absent keyword text → extract_by_keywords text keyword = "") ∧
  (∀ i, first_at keyword text i →
     let start := i + len keyword in
     let rest := drop_str start text in
     ((∀ sec, other_section keyword sec → absent sec rest) →
        extract_by_keywords text keyword = strip (slice text start (len text))) ∧
     (∀ sec j, other_section keyword sec → first_at sec rest j →
        (∀ sec', other_section keyword sec' → listed_before sec' sec →
           absent sec' rest) →
        extract_by_keywords text keyword = strip (slice text start (start + j))) ∧
     (∃ e, extract_by_keywords text keyword = strip (slice text start e) ∧
        ((e = len text ∧ ∀ sec, other_section keyword sec → absent sec rest) ∨
         (∃ sec j, other_section keyword sec ∧ first_at sec rest j ∧
            e = start + j ∧
            ∀ sec', other_section keyword sec' → listed_before sec' sec →
              absent sec' rest)))).
Proof.
  intros Hkw. unfold extract_by_keywords. split.
  - intros Habs. now rewrite re_search_absent.
  - intros i Hi. rewrite (re_search_first _ _ _ Hi). cbn [m_end].
    set (start := i + len keyword). set (rest := drop_str start text).
    split; [|split].
    + intros Habs. rewrite section_end_none; auto.
      * apply incl_refl.
      * intros sec Hs Hne. apply Habs. now split.
    + intros sec j [Hs Hne] Hj Habs.
      rewrite (section_end_first start rest keyword (len text) Hkw sections sec j);
        auto using incl_refl.
      intros sec' Hs' Hne' Hlt. apply Habs; [now split | exact Hlt].
    + exists (section_end start rest keyword sections (len text)).
      split; [reflexivity|].
      destruct (section_end_order start rest keyword (len text) Hkw sections
                  (incl_refl _))
        as [[He Habs]|(sec & j & Hs & Hne & Hj & He & Hord)].
      * left. split; [exact He|]. intros sec [Hs Hne]. now apply Habs.
      * right. exists sec, j. split; [now split|]. split; [exact Hj|].
        split; [exact He|].
        intros sec' [Hs' Hne'] Hlt. now apply Hord.
Qed.

Lemma extract_by_keywords_segments_witness :
  In "Skills" sections ∧
  extract_by_keywords "Skills python Projects app Education bsc" "Skills"
  = strip (slice "Skills python Projects app Education bsc" 6 (6 + 21)).
Proof.
  assert (Hk : In "Skills" sections) by (simpl; auto).
  split; [exact Hk|].
  pose (text := "Skills python Projects app Education bsc").
  destruct (extract_by_keywords_segments text "Skills" Hk) as [_ Hocc].
  assert (Hi : first_at "Skills" text 0)
    by (apply (first_at_by_search _ _ (MkMatch 0 6 [])); vm_compute; reflexivity).
  destruct (Hocc 0 Hi) as (_ & Hfirst & _).
  apply (Hfirst "Education" 21).
  - split; [simpl; auto | discriminate].
  - apply (first_at_by_search _ _ (MkMatch 21 30 [])); vm_compute; reflexivity.
  - intros sec' [Hs Hne] Hlt. exfalso. simpl in Hs.
    destruct Hs as [<-|[<-|[<-|[<-|[]]]]]; vm_compute in Hlt; lia.
Defined.

(** C1 (as stated) fails.  Read without any trimming, it fails on
    ["Skills python "], where the code returns ["python"] and not
    [" python "].  Read with the trimming, it fails on
    ["Skills python Projects app Education bsc"]: the nearest other keyword
    after "Skills" is "Projects", and the code returns
    ["python Projects app"], the text up to "Education". *)
Lemma extract_by_keywords_not_nearest :
  ¬ stated_segmentation (fun s => s) extract_by_keywords ∧
  ¬ stated_segmentation strip extract_by_keywords ∧
  extract_by_keywords "Skills python " "Skills" = "python" ∧
  extract_by_keywords "Skills python Projects app Education bsc" "Skills"
  = "python Projects app".
Proof.
  assert (Hk : In "Skills" sections) by (simpl; auto).
  split; [|split; [|split; vm_compute; reflexivity]].
  - intros H. destruct (H "Skills python " "Skills" Hk) as [_ Hocc].
    assert (Hi : first_at "Skills" "Skills python " 0)
      by (apply (first_at_by_search _ _ (MkMatch 0 6 [])); vm_compute; reflexivity).
    destruct (Hocc 0 Hi) as [Hend _].
    assert (Hf : extract_by_keywords "Skills python " "Skills"
                 = slice "Skills python " 6 (len "Skills python ")).
    { apply Hend. intros sec [Hs Hne]. simpl in Hs.
      destruct Hs as [<-|[<-|[<-|[<-|[]]]]]; try congruence;
        apply absent_by_search; vm_compute; reflexivity. }
    vm_compute in Hf. discriminate Hf.
  - intros H.
    pose (text := "Skills python Projects app Education bsc").
    destruct (H text "Skills" Hk) as [_ Hocc].
    assert (Hi : first_at "Skills" text 0)
      by (apply (first_at_by_search _ _ (MkMatch 0 6 [])); vm_compute; reflexivity).
    destruct (Hocc 0 Hi) as [_ Hnear].
    assert (Hp : first_at "Projects" (drop_str 6 text) 8)
      by (apply (first_at_by_search _ _ (MkMatch 8 16 [])); vm_compute; reflexivity).
    assert (He : first_at "Education" (drop_str 6 text) 21)
      by (apply (first_at_by_search _ _ (MkMatch 21 30 [])); vm_compute; reflexivity).
    assert (Hf : extract_by_keywords text "Skills" = strip (slice text 6 (6 + 8))).
    { apply (Hnear "Projects" 8); [split; [simpl; auto | discriminate] | exact Hp |].
      intros sec' j' [Hs Hne] Hj'. simpl in Hs.
      destruct Hs as [<-|[<-|[<-|[<-|[]]]]]; try congruence.
      - pose proof (first_at_le _ _ _ _ He Hj'). lia.
      - exfalso. revert Hj'. apply absent_by_search. vm_compute; reflexivity.
      - apply (first_at_le _ _ _ _ Hp Hj'). }
    vm_compute in Hf. discriminate Hf.
Qed.

(** The order of the list decides: tried in the reverse order, the same
    sections end the segment at "Projects". *)
Example section_end_list_order :
  section_end 6 " python Projects app Education bsc" "Skills" sections 40 = 27 ∧
  section_end 6 " python Projects app Education bsc" "Skills" (rev sections) 40 = 14.
Proof. split; vm_compute; reflexivity. Qed.

(** With "Education" after "Experience" the section is the text between
    the two headers, without either of them. *)
Example experience_before_education :
  extract_by_keywords
    "John Doe Experience Dev at Acme 2019-01 - 2020-02 Education BSc Physics"
    "Experience"
  = "Dev at Acme 2019-01 - 2020-02".
Proof. vm_compute. reflexivity. Qed.

(** ** Dates *)

Local Open Scope Z_scope.

Definition valid_datetime (t : datetime) : Prop :=
  valid_date (year t) (month t) (day t) = true ∧
  0 <= hour t < 24 ∧ 0 <= minute t < 60 ∧ 0 <= second t < 60 ∧
  0 <= microsecond t < 1000000.

Definition leap_day (y : Z) : Z := if is_leap y then 1 else 0.

Lemma valid_date_bounds y m d :
  valid_date y m d = true →
  1 <= y <= 9999 ∧ 1 <= m <= 12 ∧ 1 <= d <= days_in_month y m.
Proof. unfold valid_date. lia. Qed.

Lemma days_before_year_succ y :
  days_before_year (y + 1) = days_before_year y + 365 + leap_day y.
Proof.
  unfold days_before_year, leap_day, is_leap.
  replace (y + 1 - 1) with y by lia.
  destruct (y mod 4 =? 0) eqn:E4; destruct (y mod 100 =? 0) eqn:E100;
    destruct (y mod 400 =? 0) eqn:E400; simpl;
    Z.div_mod_to_equations; lia.
Qed.

Lemma days_before_year_mono y1 y2 :
  y1 <= y2 → days_before_year y1 <= days_before_year y2.
Proof. unfold days_before_year. Z.div_mod_to_equations. lia. Qed.

Lemma month_cases m :
  1 <= m <= 12 →
  m = 1 ∨ m = 2 ∨ m = 3 ∨ m = 4 ∨ m = 5 ∨ m = 6 ∨
  m = 7 ∨ m = 8 ∨ m = 9 ∨ m = 10 ∨ m = 11 ∨ m = 12.
Proof. lia. Qed.

Ltac each_month H :=
  apply month_cases in H;
  destruct H as [->|[->|[->|[->|[->|[->|[->|[->|[->|[->|[->| ->]]]]]]]]]]].

Lemma days_before_month_succ y m :
  1 <= m <= 12 →
  days_before_month y (m + 1) = days_before_month y m + days_in_month y m.
Proof.
  intros Hm. each_month Hm; unfold days_before_month, days_in_month;
    destruct (is_leap y); reflexivity.
Qed.

Lemma days_before_month_bound y m :
  1 <= m <= 12 →
  0 <= days_before_month y m ∧
  days_before_month y m + days_in_month y m <= 365 + leap_day y.
Proof.
  intros Hm. each_month Hm; unfold days_before_month, days_in_month, leap_day;
    destruct (is_leap y); simpl; lia.
Qed.

Lemma days_before_month_mono y m1 m2 :
  1 <= m1 → m1 < m2 → m2 <= 12 →
  days_before_month y m1 + days_in_month y m1 <= days_before_month y m2.
Proof.
  intros H1 H12 H2.
  assert (Hm1 : 1 <= m1 <= 12) by lia. assert (Hm2 : 1 <= m2 <= 12) by lia.
  each_month Hm1; each_month Hm2; try lia;
    unfold days_before_month, days_in_month; destruct (is_leap y); simpl; lia.
Qed.

(** The ordinal of a date orders dates as their fields do. *)
Lemma ymd2ord_lt y1 m1 d1 y2 m2 d2 :
  valid_date y1 m1 d1 = true → valid_date y2 m2 d2 = true →
  lex_ltb [y1; m1; d1] [y2; m2; d2] = true ↔
  ymd2ord y1 m1 d1 < ymd2ord y2 m2 d2.
Proof.
  intros (Hy1 & Hm1 & Hd1)%valid_date_bounds (Hy2 & Hm2 & Hd2)%valid_date_bounds.
  unfold ymd2ord; simpl.
  pose proof (days_before_month_bound y1 m1 Hm1) as B1.
  pose proof (days_before_month_bound y2 m2 Hm2) as B2.
  destruct (Z.lt_trichotomy y1 y2) as [Hy|[Hy|Hy]].
  - pose proof (days_before_year_succ y1).
    pose proof (days_before_year_mono (y1 + 1) y2). lia.
  - subst y2. destruct (Z.lt_trichotomy m1 m2) as [Hm|[Hm|Hm]].
    + pose proof (days_before_month_mono y1 m1 m2). lia.
    + subst m2. lia.
    + pose proof (days_before_month_mono y1 m2 m1). lia.
  - pose proof (days_before_year_succ y2).
    pose proof (days_before_year_mono (y2 + 1) y1). lia.
Qed.

Lemma ymd2ord_eq y1 m1 d1 y2 m2 d2 :
  valid_date y1 m1 d1 = true → valid_date y2 m2 d2 = true →
  ymd2ord y1 m1 d1 = ymd2ord y2 m2 d2 → y1 = y2 ∧ m1 = m2 ∧ d1 = d2.
Proof.
  intros V1 V2 E.
  pose proof (ymd2ord_lt _ _ _ _ _ _ V1 V2) as H12.
  pose proof (ymd2ord_lt _ _ _ _ _ _ V2 V1) as H21.
  simpl in H12, H21. lia.
Qed.

(** [a < b] holds exactly when [(a - b).days] is negative. *)
Lemma datetime_sub_negative a b :
  valid_datetime a → valid_datetime b →
  td_days (datetime_sub a b) < 0 ↔ datetime_ltb a b = true.
Proof.
  intros (Va & Ha & Ma & Sa & Ua) (Vb & Hb & Mb & Sb & Ub).
  pose proof (ymd2ord_lt _ _ _ _ _ _ Va Vb) as Hlt.
  pose proof (ymd2ord_eq _ _ _ _ _ _ Va Vb) as Heq.
  pose proof (ymd2ord_lt _ _ _ _ _ _ Vb Va) as Hgt.
  unfold datetime_ltb, datetime_sub, make_timedelta, toordinal, seconds_of_day,
    fields; cbn [td_days lex_ltb].
  cbn [lex_ltb] in Hlt, Hgt.
  set (oa := ymd2ord (year a) (month a) (day a)) in *.
  set (ob := ymd2ord (year b) (month b) (day b)) in *.
  clearbody oa ob. clear Va Vb.
  Z.div_mod_to_equations. lia.
Qed.

(** ** The matcher *)

Local Open Scope nat_scope.

(** [c1] is [caps] with more groups recorded in front. *)
Definition extends (caps c1 : captures) : Prop := ∃ pre, c1 = pre ++ caps.

Lemma extends_refl caps : extends caps caps.
Proof. now exists []. Qed.

Lemma extends_trans c0 c1 c2 : extends c0 c1 → extends c1 c2 → extends c0 c2.
Proof. intros [p1 ->] [p2 ->]. exists (p2 ++ p1). now rewrite app_assoc. Qed.

Lemma extends_cons c0 c1 x : extends c0 c1 → extends c0 (x :: c1).
Proof. intros [p ->]. now exists (x :: p). Qed.

(** A result of a matching step is a result of its continuation, called
    with groups added to the ones given. *)
Definition step_sound {R}
    (step : string → captures → (string → captures → option R) → option R) : Prop :=
  ∀ s caps k x, step s caps k = Some x →
    ∃ s1 c1, k s1 c1 = Some x ∧ extends caps c1.

Lemma or_else_some {A} (x : option A) y a :
  or_else x y = Some a → x = Some a ∨ y tt = Some a.
Proof. destruct x; simpl; auto. Qed.

Lemma rep_loop_eq {R} step (k : string → captures → option R) greedy fuel lo hi s caps :
  rep_loop step k greedy fuel lo hi s caps =
  let stop (_ : unit) := match lo with 0 => k s caps | S _ => None end in
  let more (_ : unit) :=
    match fuel, hi with
    | 0, _ | _, Some 0 => None
    | S fuel', _ =>
        step s caps
          (fun s1 c1 =>
             if len s1 <? len s
             then rep_loop step k greedy fuel' (pred lo) (pred <$> hi) s1 c1
             else None)
    end in
  if greedy then or_else (more tt) stop else or_else (stop tt) more.
Proof. destruct fuel; reflexivity. Qed.

Lemma rep_loop_sound {R} step (k : string → captures → option R) greedy :
  step_sound step →
  ∀ fuel lo hi s caps x, rep_loop step k greedy fuel lo hi s caps = Some x →
    ∃ s1 c1, k s1 c1 = Some x ∧ extends caps c1.
Proof.
  intros Hstep. induction fuel as [|fuel IH]; intros lo hi s caps x Hx;
    rewrite rep_loop_eq in Hx; cbv zeta in Hx.
  - assert (Hstop : match lo with 0 => k s caps | S _ => None end = Some x).
    { destruct greedy; apply or_else_some in Hx;
        destruct Hx as [Hx|Hx]; (discriminate Hx || exact Hx). }
    destruct lo; [|discriminate]. exists s, caps. auto using extends_refl.
  - assert (Hcase :
      match lo with 0 => k s caps | S _ => None end = Some x ∨
      step s caps (fun s1 c1 =>
        if len s1 <? len s
        then rep_loop step k greedy fuel (pred lo) (pred <$> hi) s1 c1
        else None) = Some x).
    { destruct greedy; apply or_else_some in Hx; destruct Hx as [Hx|Hx];
        auto; destruct hi as [[|h]|]; (discriminate Hx || auto). }
    destruct Hcase as [Hstop|Hmore].
    + destruct lo; [|discriminate]. exists s, caps. auto using extends_refl.
    + apply Hstep in Hmore. destruct Hmore as (s1 & c1 & Hk & Hext).
      destruct (len s1 <? len s); [|discriminate].
      apply IH in Hk. destruct Hk as (s2 & c2 & Hk & Hext').
      exists s2, c2. eauto using extends_trans.
Qed.

Lemma rmatch_sound {R} n0 r : step_sound (rmatch (R:=R) n0 r).
Proof.
  induction r as [|p|r1 IH1 r2 IH2|r1 IH1 r2 IH2|g lo hi r1 IH|name r1 IH|];
    intros s caps k x Hx; simpl in Hx.
  - exists s, caps. auto using extends_refl.
  - destruct s as [|c s]; [discriminate|].
    destruct (p c); [|discriminate]. exists s, caps. auto using extends_refl.
  - apply IH1 in Hx. destruct Hx as (s1 & c1 & Hx & Hext).
    apply IH2 in Hx. destruct Hx as (s2 & c2 & Hx & Hext').
    exists s2, c2. eauto using extends_trans.
  - apply or_else_some in Hx. destruct Hx as [Hx|Hx];
      [apply (IH1 _ _ _ _ Hx) | apply (IH2 _ _ _ _ Hx)].
  - now apply (rep_loop_sound _ _ _ IH) in Hx.
  - apply IH in Hx. destruct Hx as (s1 & c1 & Hx & [p ->]).
    eexists _, _. split; [exact Hx|]. now exists ((name, take_str (len s - len s1) s) :: p).
  - destruct (len s =? n0); [|discriminate]. exists s, caps. auto using extends_refl.
Qed.

Lemma group_extends name v caps c1 :
  extends ((name, v) :: caps) c1 → is_Some (group name c1).
Proof.
  intros [pre ->]. induction pre as [|[n w] pre IH]; simpl.
  - rewrite String.eqb_refl. eauto.
  - destruct (String.eqb n name); eauto.
Qed.

(** Every match of a pattern [(?P<start>A) sep (?P<end>B)] has both groups. *)
Lemma range_groups A sep B n0 s pos m :
  match_here (Cat (Grp "start" A) (Cat sep (Grp "end" B))) n0 s pos = Some m →
  is_Some (group "start" (m_groups m)) ∧ is_Some (group "end" (m_groups m)).
Proof.
  unfold match_here. cbn [rmatch]. intros Hm.
  apply rmatch_sound in Hm. destruct Hm as (s1 & c1 & Hm & _).
  apply rmatch_sound in Hm. destruct Hm as (s2 & c2 & Hm & Hext).
  apply rmatch_sound in Hm. destruct Hm as (s3 & c3 & Hm & Hext').
  injection Hm as <-. cbn [m_groups]. split.
  - apply (group_extends "start" (take_str (len s - len s1) s) c1).
    apply extends_cons. eauto using extends_trans.
  - simpl. eauto.
Qed.

Lemma finditer_from_matches r n0 s pos skip m :
  In m (finditer_from r n0 s pos skip) →
  ∃ s' pos', match_here r n0 s' pos' = Some m.
Proof.
  revert pos skip; induction s as [|c s IH]; intros pos skip Hm.
  - destruct skip; simpl in Hm; [|destruct Hm].
    destruct (match_here r n0 "" pos) eqn:E; [|destruct Hm].
    destruct Hm as [<-|[]]. eauto.
  - destruct skip; simpl in Hm; [|eauto].
    destruct (match_here r n0 (String c s) pos) eqn:E; [|eauto].
    destruct Hm as [<-|Hm]; eauto.
Qed.

Lemma date_pattern_groups seg m :
  In m (re_finditer date_pattern seg) →
  is_Some (group "start" (m_groups m)) ∧ is_Some (group "end" (m_groups m)).
Proof.
  intros Hm. apply finditer_from_matches in Hm. destruct Hm as (s' & pos' & Hm).
  now apply range_groups in Hm.
Qed.

(** ** Date parsing raises nothing but [ValueError] *)

Definition is_value_error (e : exn) : Prop := ∃ msg, e = ValueError msg.

Lemma make_date_raises y m d e : make_date y m d = Raise e → is_value_error e.
Proof.
  unfold make_date, is_value_error.
  repeat match goal with |- context [if ?b then _ else _] => destruct b end;
    intros [= <-]; eauto.
Qed.

Lemma make_date_ok y m d t :
  make_date y m d = Ok t ↔
  valid_date y m d = true ∧ t = MkDatetime y m d 0 0 0 0.
Proof.
  unfold make_date, valid_date.
  destruct (1 <=? y)%Z, (y <=? 9999)%Z, (1 <=? m)%Z, (m <=? 12)%Z,
    (1 <=? d)%Z, (d <=? days_in_month y m)%Z; simpl;
    (split;
     [ first [discriminate | intros [= <-]; auto]
     | intros [Hv ->]; first [reflexivity | discriminate] ]).
Qed.

Lemma strptime_raises s fmt e : strptime s fmt = Raise e → is_value_error e.
Proof.
  unfold strptime. destruct (re_match (format_regex fmt) s) as [found|].
  - destruct (negb (m_end found =? len s)).
    + intros [= <-]. red; eauto.
    + apply make_date_raises.
  - intros [= <-]. red; eauto.
Qed.

Lemma strptime_valid s fmt t : strptime s fmt = Ok t → valid_datetime t.
Proof.
  unfold strptime. destruct (re_match (format_regex fmt) s) as [found|];
    [|discriminate].
  destruct (negb (m_end found =? len s)); [discriminate|].
  intros [Hv ->]%make_date_ok. unfold valid_datetime; simpl. repeat split; lia || exact Hv.
Qed.

Lemma try_formats_raises s fmts date_str e :
  try_formats s fmts date_str = Raise e → is_value_error e.
Proof.
  induction fmts as [|fmt fmts IH]; simpl.
  - intros [= <-]. red; eauto.
  - destruct (strptime s fmt) as [t|e'] eqn:E; [discriminate|].
    apply strptime_raises in E. destruct E as [msg ->]. exact IH.
Qed.

Lemma try_formats_valid s fmts date_str t :
  try_formats s fmts date_str = Ok t → valid_datetime t.
Proof.
  induction fmts as [|fmt fmts IH]; simpl; [discriminate|].
  destruct (strptime s fmt) as [t'|e'] eqn:E.
  - intros [= <-]. now apply strptime_valid in E.
  - apply strptime_raises in E. destruct E as [msg ->]. exact IH.
Qed.

Lemma parse_date_raises now s e : parse_date now s = Raise e → is_value_error e.
Proof.
  unfold parse_date. destruct (is_present (strip s)); [discriminate|].
  apply try_formats_raises.
Qed.

Lemma parse_date_valid now s t :
  valid_datetime now → parse_date now s = Ok t → valid_datetime t.
Proof.
  unfold parse_date. intros Hnow. destruct (is_present (strip s)).
  - now intros [= <-].
  - apply try_formats_valid.
Qed.

(** ** Experience entries *)

Section ExtractionSpec.
Variable now : datetime.

(** The date parsed from a named group of a match, when it parses. *)
Definition parsed (m : rmatch_t) (name : string) : option datetime :=
  match group name (m_groups m) with
  | Some v =>
      match parse_date now v with
      | Ok t => Some t
      | Raise _ => None
      end
  | None => None
  end.

(** The entry of one match: there is one when both halves parse. *)
Definition entry_of (seg : string) (m : rmatch_t) : option entry :=
  match parsed m "start", parsed m "end" with
  | Some start_date, Some end_date => Some (make_entry seg m start_date end_date)
  | _, _ => None
  end.

(** The entries of one line: one per match that has one, in match order. *)
Definition line_entries (line : string) : list entry :=
  omap (entry_of (strip line)) (re_finditer date_pattern (strip line)).

Lemma match_entry_spec seg m :
  is_Some (group "start" (m_groups m)) → is_Some (group "end" (m_groups m)) →
  match_entry now seg m = Ok (entry_of seg m).
Proof.
  intros [vs Hs] [ve He].
  unfold match_entry, parse_range, parse_group, entry_of, parsed.
  rewrite Hs, He.
  destruct (parse_date now vs) as [sd|e1] eqn:E1; simpl.
  - destruct (parse_date now ve) as [ed|e2] eqn:E2; simpl; [reflexivity|].
    apply parse_date_raises in E2. now destruct E2 as [msg ->].
  - apply parse_date_raises in E1. now destruct E1 as [msg ->].
Qed.

Lemma scan_matches_spec seg ms entries :
  (∀ m, In m ms →
     is_Some (group "start" (m_groups m)) ∧ is_Some (group "end" (m_groups m))) →
  scan_matches now seg ms entries = Ok (entries ++ omap (entry_of seg) ms).
Proof.
  revert entries; induction ms as [|m ms IH]; intros entries Hg; simpl.
  - now rewrite app_nil_r.
  - destruct (Hg m) as [Hs He]; [now left|].
    rewrite (match_entry_spec seg m Hs He). simpl.
    rewrite IH by (intros m' Hm'; apply Hg; now right).
    rewrite <- app_assoc. now destruct (entry_of seg m).
Qed.

Lemma scan_lines_spec lines entries :
  scan_lines now lines entries = Ok (entries ++ flat_map line_entries lines).
Proof.
  revert entries; induction lines as [|line lines IH]; intros entries; simpl.
  - now rewrite app_nil_r.
  - unfold line_entries at 1.
    destruct (String.eqb (strip line) "") eqn:E.
    + apply String.eqb_eq in E. rewrite E. simpl. apply IH.
    + rewrite scan_matches_spec by (intros m; apply date_pattern_groups).
      simpl. rewrite IH. now rewrite app_assoc.
Qed.
End ExtractionSpec.

(** The result of [extract_experience] as a list: no exception leaves it. *)
Lemma extract_experience_entries now text :
  extract_experience now text = Ok (flat_map (line_entries now) (splitlines text)).
Proof.
  unfold extract_experience. destruct (String.eqb text "") eqn:E.
  - apply String.eqb_eq in E. now subst text.
  - now rewrite scan_lines_spec.
Qed.

(** C7.  [extract_experience] never raises: on every text it returns the
    list that holds, line by line in the order of [splitlines], and match by
    match in the order of [finditer] on the stripped line, one entry for each
    date-range match both of whose halves [parse_date] accepts.  A match one
    of whose halves fails to parse has no entry and stops nothing; a line
    without a match has no entry. *)
Theorem extract_experience_total (now : datetime) (text : string) :
  extract_experience now text
  = Ok (flat_map
          (fun line =>
             omap (entry_of now (strip line))
                  (re_finditer date_pattern (strip line)))
          (splitlines text)) ∧
  (∀ seg m, entry_of now seg m = None ↔
            parsed now m "start" = None ∨ parsed now m "end" = None) ∧
  (∀ seg m, entry_of now seg m ≠ None →
            ∃ start_date end_date,
              parsed now m "start" = Some start_date ∧
              parsed now m "end" = Some end_date ∧
              entry_of now seg m = Some (make_entry seg m start_date end_date)) ∧
  (∀ line, re_finditer date_pattern (strip line) = [] →
           line_entries now line = []) ∧
  (∀ line, (length (line_entries now line)
            ≤ length (re_finditer date_pattern (strip line)))%nat).
Proof.
  split; [|split; [|split; [|split]]].
  - apply extract_experience_entries.
  - intros seg m. unfold entry_of.
    destruct (parsed now m "start"), (parsed now m "end"); split; intros Hn;
      try discriminate; auto; destruct Hn; discriminate.
  - intros seg m. unfold entry_of.
    destruct (parsed now m "start") as [sd|], (parsed now m "end") as [ed|];
      intros Hn; try congruence. eauto.
  - intros line Hnone. unfold line_entries. now rewrite Hnone.
  - intros line. unfold line_entries, omap.
    induction (re_finditer date_pattern (strip line)) as [|m ms IH]; simpl; [lia|].
    destruct (entry_of now (strip line) m); simpl; lia.
Qed.

Lemma entry_in_result now text es e :
  extract_experience now text = Ok es → In e es →
  ∃ seg m start_date end_date,
    parsed now m "start" = Some start_date ∧
    parsed now m "end" = Some end_date ∧
    e = make_entry seg m start_date end_date.
Proof.
  rewrite extract_experience_entries. intros [= <-] He.
  apply in_flat_map in He. destruct He as (line & _ & He).
  apply list_elem_of_In, list_elem_of_omap in He. destruct He as (m & _ & He).
  unfold entry_of in He.
  destruct (parsed now m "start") as [sd|] eqn:Es; [|discriminate].
  destruct (parsed now m "end") as [ed|] eqn:Ee; [|discriminate].
  injection He as <-. now exists (strip line), m, sd, ed.
Qed.

Lemma parsed_valid now m name t :
  valid_datetime now → parsed now m name = Some t → valid_datetime t.
Proof.
  unfold parsed. intros Hnow. destruct (group name (m_groups m)); [|discriminate].
  destruct (parse_date now s) eqn:E; [|discriminate].
  intros [= <-]. eapply parse_date_valid; eauto.
Qed.



(** A range that ends at the present moment: the end date is the moment
    of the call, role and company are split at the word [at]. *)
Example software_engineer_at_acme now :
  extract_experience now "Jan 2019 - Present Software Engineer at Acme Corp"
  = Ok [MkEntry "Software Engineer" "Acme Corp" (MkDatetime 2019 1 1 0 0 0 0) now
          (duration_of (MkDatetime 2019 1 1 0 0 0 0) now)].
Proof. lazy -[duration_of]. reflexivity. Qed.

(** The first range of this line has a start that no format accepts
    ([Sept] is neither an abbreviation nor a month name); it is passed over
    and the second range of the same line gives its entry. *)
Example unparseable_half_skipped now :
  extract_experience now
    "Sept 2019 - 2020-01 Trainee, 2020-02 - 2021-03 Analyst at Initech"
  = Ok [MkEntry "Analyst" "Initech" (MkDatetime 2020 2 1 0 0 0 0)
          (MkDatetime 2021 3 1 0 0 0 0) (Qmake 394 365)].
Proof. vm_compute. reflexivity. Qed.

(** Entries come in the order of the lines; lines without a range give
    none. *)
Example entries_in_line_order now :
  extract_experience now
    ("Acme Corp" +:+ String "010" "2019-01 - 2020-02 Developer"
     +:+ String "010" "notes"
     +:+ String "013" (String "010" "Mar 2021 to 2022-03 Lead at Initech"))
  = Ok [MkEntry "Developer" "" (MkDatetime 2019 1 1 0 0 0 0)
          (MkDatetime 2020 2 1 0 0 0 0) (Qmake 396 365);
        MkEntry "Lead" "Initech" (MkDatetime 2021 3 1 0 0 0 0)
          (MkDatetime 2022 3 1 0 0 0 0) (Qmake 365 365)].
Proof. vm_compute. reflexivity. Qed.

(** ** Rounding *)

Local Open Scope Q_scope.

Lemma round_half_even_comp x y : x == y → round_half_even x = round_half_even y.
Proof.
  intros E. unfold round_half_even.
  rewrite (Qfloor_comp x y E).
  now rewrite (Qcompare_comp (x - inject_Z (Qfloor y)) (y - inject_Z (Qfloor y))
                 (Qplus_comp _ _ E _ _ (Qeq_refl _)) (1 # 2) (1 # 2) (Qeq_refl _)).
Qed.

Lemma round2_comp x y : x == y → round2 x = round2 y.
Proof.
  intros E. unfold round2.
  now rewrite (round_half_even_comp (x * 100) (y * 100))
    by (now rewrite E).
Qed.

Lemma round_half_even_bounds (a b : Z) (x : Q) :
  inject_Z a <= x → x <= inject_Z b →
  (a <= round_half_even x <= b)%Z.
Proof.
  intros Ha Hb. unfold round_half_even.
  pose proof (Qfloor_le x) as Hfl.
  pose proof (Qfloor_resp_le _ _ Ha) as Hfa. rewrite Qfloor_Z in Hfa.
  pose proof (Qfloor_resp_le _ _ Hb) as Hfb. rewrite Qfloor_Z in Hfb.
  assert (Hup : inject_Z (Qfloor x) < x → (Qfloor x + 1 <= b)%Z).
  { intros Hlt. assert (Hq : inject_Z (Qfloor x) < inject_Z b)
      by (eapply Qlt_le_trans; eauto).
    rewrite <- Zlt_Qlt in Hq. lia. }
  destruct (Qcompare (x - inject_Z (Qfloor x)) (1 # 2)) eqn:E.
  - apply Qeq_alt in E.
    assert (Hlt : inject_Z (Qfloor x) < x) by lra.
    destruct (Z.even (Qfloor x)); [lia|]. specialize (Hup Hlt). lia.
  - lia.
  - apply Qgt_alt in E.
    assert (Hlt : inject_Z (Qfloor x) < x) by lra.
    specialize (Hup Hlt). lia.
Qed.

Lemma Qmake_100 (n : Z) : Qmake n 100 == inject_Z n * (1 # 100).
Proof. unfold Qeq; simpl. lia. Qed.

(** Rounding to two places keeps a value between bounds that have at most
    two places themselves. *)
Lemma round2_bounds (a b : Z) (x : Q) :
  Qmake a 100 <= x → x <= Qmake b 100 →
  Qmake a 100 <= round2 x ∧ round2 x <= Qmake b 100.
Proof.
  unfold round2. rewrite Qred_correct.
  rewrite (Qmake_100 a), (Qmake_100 b), (Qmake_100 (round_half_even (x * 100))).
  intros Ha Hb.
  destruct (round_half_even_bounds a b (x * 100)) as [Hl Hu].
  - revert Ha. generalize (inject_Z a). intros qa Ha. lra.
  - revert Hb. generalize (inject_Z b). intros qb Hb. lra.
  - rewrite Zle_Qle in Hl, Hu. revert Hl Hu.
    generalize (inject_Z (round_half_even (x * 100))), (inject_Z a), (inject_Z b).
    intros qr qa qb Hl Hu. lra.
Qed.

(** [round2 x] is a whole number of hundredths, nearest to [x]. *)
Lemma round2_nearest (x : Q) :
  round2 x == Qmake (round_half_even (x * 100)) 100 ∧
  Qabs (x * 100 - inject_Z (round_half_even (x * 100))) <= 1 # 2.
Proof.
  split; [unfold round2; apply Qred_correct|].
  unfold round_half_even.
  pose proof (Qfloor_le (x * 100)) as Hle.
  pose proof (Qlt_floor (x * 100)) as Hlt.
  rewrite inject_Z_plus in Hlt.
  change (inject_Z 1) with 1 in Hlt.
  set (y := x * 100) in *. set (f := Qfloor y) in *. clearbody y.
  destruct (Qcompare (y - inject_Z f) (1 # 2)) eqn:E;
    [apply Qeq_alt in E; destruct (Z.even f)
    |apply Qlt_alt in E | apply Qgt_alt in E];
    rewrite ?inject_Z_plus; change (inject_Z 1) with 1;
    revert Hle Hlt E; generalize (inject_Z f); intros q Hle Hlt E;
    apply Qabs_case; intros; lra.
Qed.

Lemma Qltb_lt x y : Qltb x y = true ↔ x < y.
Proof.
  unfold Qltb. rewrite negb_true_iff. split.
  - intros E. apply Qnot_le_lt. intros Hle. apply Qle_bool_iff in Hle. congruence.
  - intros Hlt. destruct (Qle_bool y x) eqn:E; [|reflexivity].
    apply Qle_bool_iff in E. exfalso. eapply Qlt_not_le; eauto.
Qed.

Lemma Qltb_ge x y : Qltb x y = false ↔ y <= x.
Proof.
  unfold Qltb. rewrite negb_false_iff. apply Qle_bool_iff.
Qed.

(** ** The scorer *)

(** A model with four directions of the plane: the text [west] is opposite
    to every other text, [north] is orthogonal to it, and [slant] is at an
    obtuse angle; all vectors have length one, and the cosine similarity is
    their dot product. *)
Definition plane : Embedder := {|
  vec := Q * Q;
  encode := fun s =>
    if String.eqb s "west" then (-1, 0)
    else if String.eqb s "north" then (0, 1)
    else if String.eqb s "slant" then (- (3 # 5), 4 # 5)
    else (1, 0);
  cosine_similarity := fun u v => fst u * fst v + snd u * snd v
|}.

Definition all_sections (text : string) : gmap string string :=
  list_to_map [("skills", text); ("experience", text); ("education", text)]%string.

Section ScoringSpec.
Context `{Embedder}.
Variables (self : scorer) (cv jd : gmap string string).

(** [self.weights.get(sec, 0)] *)
Definition weight (sec : string) : Q := default 0 (weights self !! sec).

Abbreviation sim := (section_similarity cv jd).
Abbreviation report := (score_cv self cv jd).

Lemma score_loop_total :
  total_score (score_loop self cv jd)
  = 0 + sim "skills" * 100 * weight "skills"
      + sim "experience" * 100 * weight "experience"
      + sim "education" * 100 * weight "education".
Proof. reflexivity. Qed.

Lemma report_total :
  report !! "total_score"%string
  = Some (VFloat (round2 (total_score (score_loop self cv jd)))).
Proof. unfold score_cv. apply lookup_insert_eq. Qed.

Lemma report_best_section :
  report !! "best_match_section"%string
  = Some (VStr (capitalize (best_match_section (score_loop self cv jd)))).
Proof.
  unfold score_cv. rewrite lookup_insert_ne by discriminate.
  apply lookup_insert_eq.
Qed.

Lemma report_best_score :
  report !! "best_match_score"%string
  = Some (VFloat (round2 (best_match_score (score_loop self cv jd) * 100))).
Proof.
  unfold score_cv. do 2 (rewrite lookup_insert_ne by discriminate).
  apply lookup_insert_eq.
Qed.

Lemma report_similarity sec :
  In sec SECTIONS →
  report !! (sec ++ "_similarity")%string = Some (VFloat (sim sec)).
Proof.
  intros Hsec. unfold score_cv.
  simpl in Hsec. destruct Hsec as [<-|[<-|[<-|[]]]]; cbn [String.append];
    do 3 (rewrite lookup_insert_ne by discriminate);
    unfold score_loop, SECTIONS; cbn [fold_left score_step section_scores String.append];
    repeat (rewrite lookup_insert_ne by discriminate);
    apply lookup_insert_eq.
Qed.
End ScoringSpec.

Lemma default_weight_values :
  default 0 (default_weights !! "skills"%string) = 4 # 10 ∧
  default 0 (default_weights !! "experience"%string) = 3 # 10 ∧
  default 0 (default_weights !! "education"%string) = 15 # 100.
Proof. repeat split; vm_compute; reflexivity. Qed.

(** C3.  [total_score] is the sum, over the three sections skills,
    experience and education in that order, of the section's similarity
    times 100 times its weight, rounded to two places.  The weight of
    "others" has no part in it.  With the built-in weights, three
    similarities of 1 give 85. *)
Theorem total_score_three_sections `{Embedder} (self : scorer)
    (cv jd : gmap string string) :
  score_cv self cv jd !! "total_score"%string
  = Some (VFloat (round2
      (section_similarity cv jd "skills" * 100 * weight self "skills"
       + section_similarity cv jd "experience" * 100 * weight self "experience"
       + section_similarity cv jd "education" * 100 * weight self "education"))) ∧
  (∀ x, score_cv (MkScorer (<["others"%string := x]> (weights self))) cv jd
          !! "total_score"%string
        = score_cv self cv jd !! "total_score"%string) ∧
  (weights self = default_weights →
   section_similarity cv jd "skills" == 1 →
   section_similarity cv jd "experience" == 1 →
   section_similarity cv jd "education" == 1 →
   score_cv self cv jd !! "total_score"%string = Some (VFloat 85)).
Proof.
  split; [|split].
  - rewrite report_total, score_loop_total. do 2 f_equal.
    apply round2_comp. ring.
  - intros x. rewrite !report_total, !score_loop_total. unfold weight.
    cbn [weights]. now rewrite !lookup_insert_ne by discriminate.
  - intros Hw E1 E2 E3.
    rewrite report_total, score_loop_total. unfold weight. rewrite Hw.
    destruct default_weight_values as (-> & -> & ->).
    do 2 f_equal. rewrite (round2_comp _ 85); [reflexivity|].
    rewrite E1, E2, E3. reflexivity.
Qed.

(** ** Bounds of the report *)

(** The ranges the design document gives for the scores of a report
    [r]. *)
Definition stated_ranges (r : gmap string pyval) : Prop :=
  ∃ b t, r !! "best_match_score"%string = Some (VFloat b) ∧
         r !! "total_score"%string = Some (VFloat t) ∧
         0 <= b ∧ b <= 100 ∧ 0 <= t ∧ t <= 100.

Section Bounds.
Context `{Embedder}.
Variables (cv jd : gmap string string).

Abbreviation s1 := (section_similarity cv jd "skills").
Abbreviation s2 := (section_similarity cv jd "experience").
Abbreviation s3 := (section_similarity cv jd "education").

Lemma best_score_bounds self lo :
  -1 <= lo → lo <= s1 → lo <= s2 → lo <= s3 →
  s1 <= 1 → s2 <= 1 → s3 <= 1 →
  (-1 <= best_match_score (score_loop self cv jd) <= 1) ∧
  (0 <= lo → 0 <= best_match_score (score_loop self cv jd)).
Proof.
  intros Hlo L1 L2 L3 U1 U2 U3.
  unfold score_loop, SECTIONS. cbn [fold_left score_step best_match_score].
  destruct (Qltb (-1) s1) eqn:E1;
    [apply Qltb_lt in E1 | apply Qltb_ge in E1];
    (destruct (Qltb _ s2) eqn:E2;
     [apply Qltb_lt in E2 | apply Qltb_ge in E2]);
    (destruct (Qltb _ s3) eqn:E3;
     [apply Qltb_lt in E3 | apply Qltb_ge in E3]);
    (split; [split|intros Hpos]; lra).
Qed.
End Bounds.

Lemma SemanticScorer_ok : SemanticScorer = Ok (MkScorer default_weights).
Proof. vm_compute. reflexivity. Qed.

(** C4 (as amended).  For a scorer built by the constructor and section
    similarities between -1 and 1, the report holds each of the three
    similarities as computed, [best_match_score] lies between -100 and 100
    and [total_score] between -85 and 85; when no similarity is negative,
    both scores are at least 0. *)
Theorem score_ranges `{Embedder} (self : scorer) (cv jd : gmap string string) :
  SemanticScorer = Ok self →
  (∀ sec, In sec SECTIONS →
     -1 <= section_similarity cv jd sec ∧ section_similarity cv jd sec <= 1) →
  (∀ sec, In sec SECTIONS →
     score_cv self cv jd !! (sec ++ "_similarity")%string
     = Some (VFloat (section_similarity cv jd sec))) ∧
  ∃ b t,
    score_cv self cv jd !! "best_match_score"%string = Some (VFloat b) ∧
    score_cv self cv jd !! "total_score"%string = Some (VFloat t) ∧
    -100 <= b ∧ b <= 100 ∧ -85 <= t ∧ t <= 85 ∧
    ((∀ sec, In sec SECTIONS → 0 <= section_similarity cv jd sec) →
     0 <= b ∧ 0 <= t).
Proof.
  intros Hself Hsim.
  assert (Hw : weights self = default_weights).
  { rewrite SemanticScorer_ok in Hself. now injection Hself as <-. }
  destruct (Hsim "skills"%string) as [L1 U1]; [simpl; auto|].
  destruct (Hsim "experience"%string) as [L2 U2]; [simpl; auto|].
  destruct (Hsim "education"%string) as [L3 U3]; [simpl; auto|].
  split; [intros sec Hsec; now apply report_similarity|].
  eexists _, _. split; [apply report_best_score|].
  split; [apply report_total|].
  rewrite score_loop_total. unfold weight. rewrite Hw.
  destruct default_weight_values as (-> & -> & ->).
  destruct (best_score_bounds cv jd self (-1)) as [[Hb1 Hb2] _]; try lra.
  destruct (round2_bounds (-10000) 10000
              (best_match_score (score_loop self cv jd) * 100)) as [B1 B2];
    try lra.
  destruct (round2_bounds (-8500) 8500
              (0 + section_similarity cv jd "skills" * 100 * (4 # 10)
               + section_similarity cv jd "experience" * 100 * (3 # 10)
               + section_similarity cv jd "education" * 100 * (15 # 100)))
    as [T1 T2]; try lra.
  repeat (split; [lra|]).
  intros Hpos.
  pose proof (Hpos "skills"%string ltac:(simpl; auto)) as P1.
  pose proof (Hpos "experience"%string ltac:(simpl; auto)) as P2.
  pose proof (Hpos "education"%string ltac:(simpl; auto)) as P3.
  destruct (best_score_bounds cv jd self 0) as [_ Hb0]; try lra.
  specialize (Hb0 ltac:(lra)).
  destruct (round2_bounds 0 10000
              (best_match_score (score_loop self cv jd) * 100)) as [B0 _];
    try lra.
  destruct (round2_bounds 0 8500
              (0 + section_similarity cv jd "skills" * 100 * (4 # 10)
               + section_similarity cv jd "experience" * 100 * (3 # 10)
               + section_similarity cv jd "education" * 100 * (15 # 100)))
    as [T0 _]; lra.
Qed.

Lemma plane_similarity_range (cv jd : gmap string string) (sec : string) :
  -1 <= @section_similarity plane cv jd sec ∧
  @section_similarity plane cv jd sec <= 1.
Proof.
  unfold section_similarity, get_similarity, embed; cbn [encode cosine_similarity plane].
  repeat match goal with |- context [String.eqb ?a ?b] => destruct (String.eqb a b) end;
    cbn [fst snd]; split; vm_compute; discriminate.
Qed.

Lemma score_ranges_witness :
  SemanticScorer = Ok (MkScorer default_weights) ∧
  ∃ b t,
    @score_cv plane (MkScorer default_weights) (all_sections "north") ∅
      !! "best_match_score"%string = Some (VFloat b) ∧
    @score_cv plane (MkScorer default_weights) (all_sections "north") ∅
      !! "total_score"%string = Some (VFloat t) ∧
    -100 <= b ∧ b <= 100 ∧ -85 <= t ∧ t <= 85.
Proof.
  pose proof SemanticScorer_ok as Hs.
  split; [exact Hs|].
  destruct (@score_ranges plane (MkScorer default_weights)
              (all_sections "north") ∅ Hs
              (fun sec _ => plane_similarity_range _ _ sec))
    as (_ & b & t & Hb & Ht & B1 & B2 & T1 & T2 & _).
  exists b, t. auto 10.
Defined.


(** C4 (as stated) fails: with similarities of -3/5 in all three sections
    the report has a best score of -60 and a total of -51, below 0. *)
Lemma score_below_zero :
  (∀ sec, In sec SECTIONS →
     @section_similarity plane (all_sections "slant") ∅ sec == - (3 # 5)) ∧
  @score_cv plane (MkScorer default_weights) (all_sections "slant") ∅
    !! "best_match_score"%string = Some (VFloat (-60)) ∧
  @score_cv plane (MkScorer default_weights) (all_sections "slant") ∅
    !! "total_score"%string = Some (VFloat (-51)) ∧
  ¬ stated_ranges
      (@score_cv plane (MkScorer default_weights) (all_sections "slant") ∅).
Proof.
  assert (Hb : @score_cv plane (MkScorer default_weights) (all_sections "slant") ∅
                 !! "best_match_score"%string = Some (VFloat (-60)))
    by (vm_compute; reflexivity).
  assert (Ht : @score_cv plane (MkScorer default_weights) (all_sections "slant") ∅
                 !! "total_score"%string = Some (VFloat (-51)))
    by (vm_compute; reflexivity).
  split; [|split; [exact Hb|split; [exact Ht|]]].
  - intros sec Hsec. simpl in Hsec.
    destruct Hsec as [<-|[<-|[<-|[]]]]; vm_compute; reflexivity.
  - intros (b & t & Hb' & Ht' & B0 & _ & T0 & _).
    rewrite Hb in Hb'. injection Hb' as <-. vm_compute in B0. now apply B0.
Qed.

(** ** The best match *)

(** The place of a section in the evaluation order. *)
Definition position (sec : string) : nat :=
  if String.eqb sec "skills" then 0
  else if String.eqb sec "experience" then 1
  else if String.eqb sec "education" then 2
  else 3.

(** The selection the design document states: [best] has the greatest
    similarity, every section before it has a smaller one, and the report
    names it, capitalized, with its similarity as a percentage rounded to two
    places. *)
Definition best_match_is `{Embedder} (self : scorer) (cv jd : gmap string string)
    (best : string) : Prop :=
  In best SECTIONS ∧
  (∀ sec, In sec SECTIONS →
     section_similarity cv jd sec <= section_similarity cv jd best ∧
     ((position sec < position best)%nat →
      section_similarity cv jd sec < section_similarity cv jd best)) ∧
  score_cv self cv jd !! "best_match_section"%string
  = Some (VStr (capitalize best)) ∧
  score_cv self cv jd !! "best_match_score"%string
  = Some (VFloat (round2 (section_similarity cv jd best * 100))).

(** C5 (as amended).  When the similarity of at least one section is
    greater than -1, [best_match_section] names the section of greatest
    similarity, the earliest of them in the order skills, experience,
    education when several share it (the comparison is strict), and
    [best_match_score] is that similarity times 100 rounded to two places. *)
Theorem best_match_first_maximum `{Embedder} (self : scorer)
    (cv jd : gmap string string) :
  (∃ sec, In sec SECTIONS ∧ -1 < section_similarity cv jd sec) →
  ∃ best, best_match_is self cv jd best.
Proof.
  intros (sec0 & Hsec0 & Hgt).
  assert (Hsome : -1 < section_similarity cv jd "skills" ∨
                  -1 < section_similarity cv jd "experience" ∨
                  -1 < section_similarity cv jd "education").
  { simpl in Hsec0. destruct Hsec0 as [<-|[<-|[<-|[]]]]; auto. }
  clear sec0 Hsec0 Hgt.
  unfold best_match_is. rewrite report_best_section, report_best_score.
  unfold score_loop, SECTIONS.
  cbn [fold_left score_step best_match_score best_match_section].
  set (s1 := section_similarity cv jd "skills") in *.
  set (s2 := section_similarity cv jd "experience") in *.
  set (s3 := section_similarity cv jd "education") in *.
  destruct (Qltb (-1) s1) eqn:E1;
    [apply Qltb_lt in E1 | apply Qltb_ge in E1];
    (destruct (Qltb _ s2) eqn:E2;
     [apply Qltb_lt in E2 | apply Qltb_ge in E2]);
    (destruct (Qltb _ s3) eqn:E3;
     [apply Qltb_lt in E3 | apply Qltb_ge in E3]);
    try (exfalso; lra);
    [ exists "education"%string | exists "experience"%string
    | exists "education"%string | exists "skills"%string
    | exists "education"%string | exists "experience"%string
    | exists "education"%string ];
    (split; [simpl; auto|]);
    (split; [|split; reflexivity]);
    intros sec Hsec; simpl in Hsec;
    destruct Hsec as [<-|[<-|[<-|[]]]]; fold s1 s2 s3;
    (split; [lra | cbn; intros Hpos; first [lia | lra]]).
Qed.

Lemma best_match_first_maximum_witness :
  (∃ sec, In sec SECTIONS ∧
          -1 < @section_similarity plane (all_sections "north") ∅ sec) ∧
  ∃ best, @best_match_is plane (MkScorer default_weights)
            (all_sections "north") ∅ best.
Proof.
  assert (Hex : ∃ sec, In sec SECTIONS ∧
            -1 < @section_similarity plane (all_sections "north") ∅ sec).
  { exists "skills"%string. split; [simpl; auto|]. vm_compute. reflexivity. }
  split; [exact Hex|].
  exact (@best_match_first_maximum plane (MkScorer default_weights)
           (all_sections "north") ∅ Hex).
Defined.

(** Three equal similarities: the first section is named. *)
Example best_match_tie :
  @score_cv plane (MkScorer default_weights) (all_sections "north") ∅
    !! "best_match_section"%string = Some (VStr "Skills").
Proof. vm_compute. reflexivity. Qed.

(** C5 (as stated) fails: when all three similarities are -1, no section is
    selected, and the report names the empty string with a score of -100. *)
Lemma best_match_none :
  (∀ sec, In sec SECTIONS →
     @section_similarity plane (all_sections "west") ∅ sec == -1) ∧
  @score_cv plane (MkScorer default_weights) (all_sections "west") ∅
    !! "best_match_section"%string = Some (VStr "") ∧
  @score_cv plane (MkScorer default_weights) (all_sections "west") ∅
    !! "best_match_score"%string = Some (VFloat (-100)) ∧
  ¬ ∃ best, @best_match_is plane (MkScorer default_weights)
              (all_sections "west") ∅ best.
Proof.
  assert (Hs : @score_cv plane (MkScorer default_weights) (all_sections "west") ∅
                 !! "best_match_section"%string = Some (VStr ""))
    by (vm_compute; reflexivity).
  split; [|split; [exact Hs|split; [vm_compute; reflexivity|]]].
  - intros sec Hsec. simpl in Hsec.
    destruct Hsec as [<-|[<-|[<-|[]]]]; vm_compute; reflexivity.
  - intros (best & Hin & _ & Hsec & _). rewrite Hs in Hsec.
    simpl in Hin. destruct Hin as [<-|[<-|[<-|[]]]]; discriminate Hsec.
Qed.

(** The winning section: its similarity is greater than -1, the start
    value of the loop, no section has a greater one, and every section before
    it in the evaluation order has a smaller one. *)
Definition winning_section `{Embedder} (cv jd : gmap string string)
    (best : string) : Prop :=
  In best SECTIONS ∧
  -1 < section_similarity cv jd best ∧
  ∀ sec, In sec SECTIONS →
    section_similarity cv jd sec <= section_similarity cv jd best ∧
    ((position sec < position best)%nat →
     section_similarity cv jd sec < section_similarity cv jd best).

(** The loop selects the winning section. *)
Lemma score_loop_selects `{Embedder} (self : scorer)
    (cv jd : gmap string string) (best : string) :
  winning_section cv jd best →
  best_match_section (score_loop self cv jd) = best.
Proof.
  intros (Hin & Hgt & Hmax).
  destruct (Hmax "skills"%string) as [A1 B1]; [simpl; auto|].
  destruct (Hmax "experience"%string) as [A2 B2]; [simpl; auto|].
  destruct (Hmax "education"%string) as [A3 B3]; [simpl; auto|].
  clear Hmax. unfold score_loop, SECTIONS.
  cbn [fold_left score_step best_match_score best_match_section].
  set (s1 := section_similarity cv jd "skills") in *.
  set (s2 := section_similarity cv jd "experience") in *.
  set (s3 := section_similarity cv jd "education") in *.
  simpl in Hin. destruct Hin as [<-|[<-|[<-|[]]]]; fold s1 s2 s3 in Hgt, A1, A2, A3;
    cbn in B1, B2, B3; fold s1 s2 s3 in B1, B2, B3;
    try (assert (L12 : s1 < s2) by (apply B1; lia));
    try (assert (L13 : s1 < s3) by (apply B1; lia));
    try (assert (L23 : s2 < s3) by (apply B2; lia));
    clear B1 B2 B3;
    (destruct (Qltb (-1) s1) eqn:E1;
     [apply Qltb_lt in E1 | apply Qltb_ge in E1]);
    (destruct (Qltb _ s2) eqn:E2;
     [apply Qltb_lt in E2 | apply Qltb_ge in E2]);
    (destruct (Qltb _ s3) eqn:E3;
     [apply Qltb_lt in E3 | apply Qltb_ge in E3]);
    first [reflexivity | exfalso; lra].
Qed.

(** When no similarity is greater than -1, the loop selects nothing. *)
Lemma score_loop_selects_none `{Embedder} (self : scorer)
    (cv jd : gmap string string) :
  (∀ sec, In sec SECTIONS → section_similarity cv jd sec <= -1) →
  best_match_section (score_loop self cv jd) = ""%string.
Proof.
  intros Hle.
  pose proof (Hle "skills"%string) as A1.
  pose proof (Hle "experience"%string) as A2.
  pose proof (Hle "education"%string) as A3.
  clear Hle. unfold score_loop, SECTIONS.
  cbn [fold_left score_step best_match_score best_match_section].
  set (s1 := section_similarity cv jd "skills") in *.
  set (s2 := section_similarity cv jd "experience") in *.
  set (s3 := section_similarity cv jd "education") in *.
  assert (H1 : s1 <= -1) by (apply A1; simpl; auto).
  assert (H2 : s2 <= -1) by (apply A2; simpl; auto).
  assert (H3 : s3 <= -1) by (apply A3; simpl; auto).
  clear A1 A2 A3.
  apply Qltb_ge in H1. rewrite H1.
  apply Qltb_ge in H2. rewrite H2.
  apply Qltb_ge in H3. rewrite H3.
  reflexivity.
Qed.

(** A similarity greater than -1 makes some section win. *)
Lemma winning_section_exists `{Embedder} (cv jd : gmap string string) :
  (∃ sec, In sec SECTIONS ∧ -1 < section_similarity cv jd sec) →
  ∃ best, winning_section cv jd best.
Proof.
  intros (sec0 & Hsec0 & Hgt).
  assert (Hsome : -1 < section_similarity cv jd "skills" ∨
                  -1 < section_similarity cv jd "experience" ∨
                  -1 < section_similarity cv jd "education").
  { simpl in Hsec0. destruct Hsec0 as [<-|[<-|[<-|[]]]]; auto. }
  clear sec0 Hsec0 Hgt. unfold winning_section.
  set (s1 := section_similarity cv jd "skills") in *.
  set (s2 := section_similarity cv jd "experience") in *.
  set (s3 := section_similarity cv jd "education") in *.
  destruct (Qlt_le_dec s1 s2) as [L12|L12];
    destruct (Qlt_le_dec s1 s3) as [L13|L13];
    destruct (Qlt_le_dec s2 s3) as [L23|L23];
    try (exfalso; lra);
    [ exists "education"%string | exists "experience"%string
    | exists "experience"%string | exists "education"%string
    | exists "skills"%string | exists "skills"%string ];
    (split; [simpl; auto|]); fold s1 s2 s3;
    (split; [lra|]);
    intros sec Hsec; simpl in Hsec;
    destruct Hsec as [<-|[<-|[<-|[]]]]; fold s1 s2 s3;
    (split; [lra | cbn; intros Hpos; first [lia | lra]]).
Qed.

(** C10 (as amended).  When the similarity of at least one section is
    greater than -1 there is a winning section, the first section of greatest
    similarity in the order skills, experience, education, and
    [best_match_section] in the report is the name of that section with its
    first letter in upper case: "Skills" for skills, "Experience" for
    experience, "Education" for education, never one of the lower-case
    section keys.  When no similarity is greater than -1, no section wins and
    [best_match_section] is the empty string. *)
Theorem best_match_section_capitalized `{Embedder} (self : scorer)
    (cv jd : gmap string string) :
  (∀ best, winning_section cv jd best →
     score_cv self cv jd !! "best_match_section"%string
     = Some (VStr (capitalize best)) ∧
     (best = "skills"%string ∧ capitalize best = "Skills"%string ∨
      best = "experience"%string ∧ capitalize best = "Experience"%string ∨
      best = "education"%string ∧ capitalize best = "Education"%string) ∧
     (∀ sec, In sec SECTIONS →
        score_cv self cv jd !! "best_match_section"%string ≠ Some (VStr sec))) ∧
  ((∃ sec, In sec SECTIONS ∧ -1 < section_similarity cv jd sec) →
   ∃ best, winning_section cv jd best) ∧
  ((∀ sec, In sec SECTIONS → section_similarity cv jd sec <= -1) →
   score_cv self cv jd !! "best_match_section"%string = Some (VStr "")).
Proof.
  split; [|split].
  - intros best Hwin. rewrite report_best_section.
    rewrite (score_loop_selects self cv jd best Hwin).
    destruct Hwin as (Hin & _). simpl in Hin.
    destruct Hin as [<-|[<-|[<-|[]]]];
      (split; [reflexivity|]);
      (split; [cbn; tauto|]);
      intros sec Hsec; simpl in Hsec;
      destruct Hsec as [<-|[<-|[<-|[]]]]; discriminate.
  - apply winning_section_exists.
  - intros Hle. rewrite report_best_section.
    now rewrite (score_loop_selects_none self cv jd Hle).
Qed.

(** The second section wins when its similarity is the greatest: "slant"
    against "north" for the skills, "north" against "north" for the
    experience and the education, which tie. *)
Lemma best_match_section_capitalized_witness :
  @winning_section plane
    (<["skills"%string := "slant"%string]> (all_sections "north"))
    (all_sections "north") "experience" ∧
  @score_cv plane (MkScorer default_weights)
    (<["skills"%string := "slant"%string]> (all_sections "north"))
    (all_sections "north") !! "best_match_section"%string
  = Some (VStr "Experience").
Proof.
  assert (Hw : @winning_section plane
                 (<["skills"%string := "slant"%string]> (all_sections "north"))
                 (all_sections "north") "experience").
  { split; [simpl; auto|]. split; [vm_compute; reflexivity|].
    intros sec Hsec. simpl in Hsec.
    destruct Hsec as [<-|[<-|[<-|[]]]];
      (split; [vm_compute; discriminate|]);
      vm_compute; intros Hpos; first [reflexivity | lia]. }
  split; [exact Hw|].
  destruct (@best_match_section_capitalized plane (MkScorer default_weights)
              (<["skills"%string := "slant"%string]> (all_sections "north"))
              (all_sections "north")) as [Hbest _].
  exact (proj1 (Hbest "experience"%string Hw)).
Defined.

(** C10 (as stated) fails: when all three similarities are -1, the report
    names no section at all, capitalized or not, but the empty string. *)
Lemma best_match_section_empty :
  @score_cv plane (MkScorer default_weights) (all_sections "west")
    (all_sections "east") !! "best_match_section"%string = Some (VStr "") ∧
  ¬ (∃ best, In best SECTIONS ∧
       @score_cv plane (MkScorer default_weights) (all_sections "west")
         (all_sections "east") !! "best_match_section"%string
       = Some (VStr (capitalize best))) ∧
  ¬ (∃ name, In name ["Skills"; "Experience"; "Education"]%string ∧
       @score_cv plane (MkScorer default_weights) (all_sections "west")
         (all_sections "east") !! "best_match_section"%string
       = Some (VStr name)).
Proof.
  assert (Hs : @score_cv plane (MkScorer default_weights) (all_sections "west")
                 (all_sections "east") !! "best_match_section"%string
               = Some (VStr ""))
    by (vm_compute; reflexivity).
  split; [exact Hs|]. split.
  - intros (best & Hin & Hb). rewrite Hs in Hb. simpl in Hin.
    destruct Hin as [<-|[<-|[<-|[]]]]; discriminate Hb.
  - intros (name & Hin & Hb). rewrite Hs in Hb. simpl in Hin.
    destruct Hin as [<-|[<-|[<-|[]]]]; discriminate Hb.
Qed.

(** ** The weights check *)

Definition half_weights : gmap string Q :=
  list_to_map [("skills", 1 # 2); ("experience", 1 # 2)]%string.

Definition heavy_weights : gmap string Q :=
  list_to_map [("skills", 1 # 2); ("experience", 6 # 10)]%string.

Definition weights_tolerance : Q := (1 # 100000000) + (1 # 100000).

Lemma np_isclose_one a :
  np_isclose a 1 = true ↔ Qabs (a - 1) <= weights_tolerance.
Proof.
  unfold np_isclose, weights_tolerance. rewrite Qle_bool_iff.
  assert (E : (1 # 100000000) + (1 # 100000) * Qabs 1
              == (1 # 100000000) + (1 # 100000)) by reflexivity.
  now rewrite E.
Qed.

(** C2 (as amended).  The constructor takes no weights: it sets the four
    weights 0.4, 0.3, 0.15 and 0.15 itself and succeeds.  Its check accepts a
    weight mapping exactly when the sum of its values is within the
    tolerance of [np.isclose] from 1.0, whatever its keys, and raises
    [ValueError] otherwise: [{skills: 0.5, experience: 0.5}] passes it, and
    [{skills: 0.5, experience: 0.6}] does not. *)
Theorem check_weights_by_sum (w : gmap string Q) :
  (check_weights w = Ok (MkScorer w) ↔
   Qabs (sum_values w - 1) <= weights_tolerance) ∧
  (check_weights w = Raise (ValueError "The weights must sum to 1.0") ↔
   ¬ Qabs (sum_values w - 1) <= weights_tolerance) ∧
  SemanticScorer = Ok (MkScorer default_weights) ∧
  check_weights half_weights = Ok (MkScorer half_weights) ∧
  check_weights heavy_weights = Raise (ValueError "The weights must sum to 1.0").
Proof.
  split; [|split; [|split; [|split]]].
  - unfold check_weights. rewrite <- np_isclose_one.
    destruct (np_isclose (sum_values w) 1); simpl; split; congruence.
  - unfold check_weights. rewrite <- np_isclose_one.
    destruct (np_isclose (sum_values w) 1); simpl; split; congruence.
  - exact SemanticScorer_ok.
  - vm_compute. reflexivity.
  - vm_compute. reflexivity.
Qed.

(** C2 (as stated) fails: the check does not reject the two weights 0.5 and
    0.5. *)
Lemma half_weights_accepted :
  sum_values half_weights == 1 ∧
  ¬ ∃ e, check_weights half_weights = Raise e.
Proof.
  split; [vm_compute; reflexivity|].
  intros [e He]. vm_compute in He. discriminate He.
Qed.

(** ** Words of a text *)

Fixpoint no_space (s : string) : bool :=
  match s with
  | EmptyString => true
  | String c s' => negb (isspace c) && no_space s'
  end.

(** The string is empty or starts with whitespace. *)
Definition at_space (s : string) : bool :=
  match s with
  | EmptyString => true
  | String c _ => isspace c
  end.

(** [t] is a word of [s]: a run of characters without whitespace, not empty,
    that starts at the start of [s] or after whitespace and ends at the end
    of [s] or before whitespace. *)
Definition is_word (t s : string) : Prop :=
  t ≠ "" ∧ no_space t = true ∧
  ((∃ post, s = t +:+ post ∧ at_space post = true) ∨
   (∃ pre c post, s = pre +:+ String c (t +:+ post) ∧ isspace c = true ∧
                  at_space post = true)).

Lemma append_cons (x : ascii) (a b : string) :
  String x a +:+ b = String x (a +:+ b).
Proof. reflexivity. Qed.

Lemma append_nil_l (b : string) : "" +:+ b = b.
Proof. reflexivity. Qed.

Ltac str_simpl :=
  repeat (rewrite ?append_cons, ?append_nil_l in * ); simpl in *.

Lemma append_assoc_str (a b c : string) : (a +:+ b) +:+ c = a +:+ (b +:+ c).
Proof.
  induction a as [|x a IH]; str_simpl; [reflexivity | now rewrite IH].
Qed.

Lemma append_nil_r (a : string) : a +:+ "" = a.
Proof. induction a as [|x a IH]; str_simpl; [reflexivity | now rewrite IH]. Qed.

Lemma rev_app_append (a b : string) : String.rev_app a b = String.rev a +:+ b.
Proof.
  unfold String.rev. revert b. induction a as [|x a IH]; intros b; simpl; [reflexivity|].
  rewrite IH, (IH (String x "")), append_assoc_str. reflexivity.
Qed.

Lemma rev_cons_append (c : ascii) (cur run : string) :
  String.rev (String c cur) +:+ run = String.rev cur +:+ String c run.
Proof.
  unfold String.rev at 1. simpl. rewrite rev_app_append, append_assoc_str. reflexivity.
Qed.

Lemma rev_empty (cur : string) : String.rev cur = "" ↔ cur = "".
Proof.
  split; [|now intros ->]. destruct cur as [|c cur]; [reflexivity|].
  unfold String.rev; simpl. rewrite rev_app_append.
  destruct (String.rev cur); discriminate.
Qed.

Lemma append_inv_nil (a b : string) : "" = a +:+ b → a = "" ∧ b = "".
Proof.
  destruct a; [|discriminate]. rewrite append_nil_l. now intros <-.
Qed.

Lemma append_inv_cons c s (a b : string) :
  String c s = a +:+ b →
  (a = "" ∧ b = String c s) ∨ (∃ a', a = String c a' ∧ s = a' +:+ b).
Proof.
  destruct a as [|x a]; [now left|]. rewrite append_cons. intros [= <- ->].
  right. eauto.
Qed.

(** What [split_go] yields: the word that [cur] starts, completed by the
    run at the start of [s], and the words after the first whitespace. *)
Lemma split_go_spec s : ∀ cur t,
  In t (split_go cur s) ↔
  (t ≠ "" ∧ ∃ run post, s = run +:+ post ∧ no_space run = true ∧
                        at_space post = true ∧ t = String.rev cur +:+ run) ∨
  (t ≠ "" ∧ no_space t = true ∧
   ∃ pre c post, s = pre +:+ String c (t +:+ post) ∧ isspace c = true ∧
                 at_space post = true).
Proof.
  induction s as [|c s IH]; intros cur t.
  - assert (Hcur : In t (split_go cur "") ↔ t ≠ "" ∧ t = String.rev cur).
    { simpl. destruct (String.eqb cur "") eqn:E.
      - apply String.eqb_eq in E. subst cur. split; [intros []|].
        now intros [Hne ->].
      - apply String.eqb_neq in E. split.
        + intros [<-|[]]. split; [now rewrite rev_empty | reflexivity].
        + intros [_ ->]. now left. }
    rewrite Hcur. split.
    + intros [Hne ->]. left. split; [exact Hne|].
      exists "", "". rewrite !append_nil_r. repeat split.
    + intros [(Hne & run & post & Hs & _ & _ & ->)|(_ & _ & pre & x & post & Hs & _)].
      * apply append_inv_nil in Hs as [-> ->]. now rewrite append_nil_r in *.
      * apply append_inv_nil in Hs as [_ Hs]. discriminate.
  - assert (Hcur : In t (if String.eqb cur "" then [] else [String.rev cur])
                   ↔ t ≠ "" ∧ t = String.rev cur).
    { destruct (String.eqb cur "") eqn:E.
      - apply String.eqb_eq in E. subst cur. split; [intros []|].
        now intros [Hne ->].
      - apply String.eqb_neq in E. split.
        + intros [<-|[]]. split; [now rewrite rev_empty | reflexivity].
        + intros [_ ->]. now left. }
    cbn [split_go]. destruct (isspace c) eqn:Ec.
    + rewrite in_app_iff, Hcur, (IH "" t). clear Hcur IH.
      change (String.rev "") with "". split.
      * intros [[Hne ->]|[(Hne & run & post & -> & Hr & Hp & ->)
                         |(Hne & Ht & pre & x & post & -> & Hx & Hp)]].
        -- left. split; [exact Hne|]. exists "", (String c s).
           rewrite append_nil_r. cbn [at_space no_space]. auto.
        -- right. rewrite append_nil_l in *. split; [exact Hne|]. split; [exact Hr|].
           exists "", c, post. auto.
        -- right. split; [exact Hne|]. split; [exact Ht|].
           exists (String c pre), x, post. auto.
      * intros [(Hne & run & post & Hs & Hr & Hp & ->)
               |(Hne & Ht & pre & x & post & Hs & Hx & Hp)].
        -- apply append_inv_cons in Hs as [[-> ->]|(run' & -> & ->)].
           ++ left. now rewrite append_nil_r in *.
           ++ cbn [no_space] in Hr. rewrite Ec in Hr. discriminate.
        -- right. apply append_inv_cons in Hs as [[-> [= -> <-]]|(pre' & -> & ->)].
           ++ left. split; [exact Hne|]. exists t, post. auto.
           ++ right. split; [exact Hne|]. split; [exact Ht|]. exists pre', x, post. auto.
    + rewrite (IH (String c cur) t). clear Hcur IH. split.
      * intros [(Hne & run & post & -> & Hr & Hp & ->)
               |(Hne & Ht & pre & x & post & -> & Hx & Hp)].
        -- left. split; [exact Hne|]. exists (String c run), post.
           cbn [no_space]. rewrite Ec, Hr, rev_cons_append. auto.
        -- right. split; [exact Hne|]. split; [exact Ht|].
           exists (String c pre), x, post. auto.
      * intros [(Hne & run & post & Hs & Hr & Hp & ->)
               |(Hne & Ht & pre & x & post & Hs & Hx & Hp)].
        -- left. split; [exact Hne|].
           apply append_inv_cons in Hs as [[-> ->]|(run' & -> & ->)].
           ++ cbn [at_space] in Hp. congruence.
           ++ cbn [no_space] in Hr. apply andb_true_iff in Hr as [_ Hr].
              exists run', post. rewrite rev_cons_append. auto.
        -- right. split; [exact Hne|]. split; [exact Ht|].
           apply append_inv_cons in Hs as [[-> [= -> _]]|(pre' & -> & ->)];
             [congruence|].
           exists pre', x, post. auto.
Qed.

(** [str.split()] yields the words of the string. *)
Lemma split_words s t : In t (split s) ↔ is_word t s.
Proof.
  unfold split, is_word. rewrite split_go_spec.
  change (String.rev "") with "". split.
  - intros [(Hne & run & post & -> & Hr & Hp & ->)|(Hne & Ht & pre & c & post & -> & Hc & Hp)].
    + rewrite append_nil_l in *. split; [exact Hne|]. split; [exact Hr|]. left. eauto.
    + split; [exact Hne|]. split; [exact Ht|]. right. eauto 10.
  - intros (Hne & Ht & [(post & -> & Hp)|(pre & c & post & -> & Hc & Hp)]).
    + left. split; [exact Hne|]. exists t, post. now rewrite append_nil_l.
    + right. split; [exact Hne|]. split; [exact Ht|]. eauto 10.
Qed.

(** ** Missing keywords *)

Local Open Scope nat_scope.

(** The text of section [sec] in a record, in lower case and with its
    commas turned into blanks. *)
Definition spaced (d : gmap string string) (sec : string) : string :=
  replace_comma (lower (get_text d sec)).

Lemma missing_fold cv jd t :
  t ∈ fold_left (missing_step cv jd) SECTIONS ∅ ↔
  ∃ sec, In sec SECTIONS ∧ is_word t (spaced jd sec) ∧ ¬ is_word t (spaced cv sec).
Proof.
  unfold SECTIONS. cbn [fold_left]. unfold missing_step, words, spaced.
  rewrite !elem_of_union, !elem_of_difference, !elem_of_list_to_set.
  rewrite !list_elem_of_In, !split_words.
  split.
  - intros [[[Hem|H1]|H2]|H3].
    + now apply not_elem_of_empty in Hem.
    + exists "skills"%string. simpl; auto.
    + exists "experience"%string. simpl; auto.
    + exists "education"%string. simpl; auto.
  - intros (sec & Hsec & Hin). simpl in Hsec.
    destruct Hsec as [<-|[<-|[<-|[]]]]; auto.
Qed.

Lemma lower_char_idem x : lower_char (lower_char x) = lower_char x.
Proof. destruct x as [[] [] [] [] [] [] [] []]; vm_compute; reflexivity. Qed.

Lemma spaced_lower s c :
  In c (list_ascii_of_string (replace_comma (lower s))) → lower_char c = c.
Proof.
  induction s as [|x s IH]; simpl; [intros []|].
  intros [<-|Hc]; [|now apply IH].
  destruct (Ascii.eqb (lower_char x) ","); [reflexivity | apply lower_char_idem].
Qed.

Lemma replace_comma_no_comma s c :
  In c (list_ascii_of_string (replace_comma s)) → c ≠ ","%char.
Proof.
  induction s as [|x s IH]; simpl; [intros []|].
  intros [<-|Hc]; [|now apply IH].
  destruct (Ascii.eqb x ",") eqn:E; [discriminate|].
  now apply Ascii.eqb_neq in E.
Qed.

(** C9.  [find_missing_keywords] is the sorted list, without repetition, of
    the tokens that, for one of the three sections skills, experience and
    education, are among the tokens of the job description's text of the
    section and not among those of the CV's text of the same section.  The
    tokens of a text are the words of its lower-case form in which commas
    count as blanks: the runs of characters, none of them whitespace,
    between whitespace or the ends of the text.  For CV skills "python sql"
    and job skills "python sql aws" the list is ["aws"]. *)
Theorem find_missing_keywords_spec (cv jd : gmap string string) :
  StronglySorted String.le (find_missing_keywords cv jd) ∧
  NoDup (find_missing_keywords cv jd) ∧
  (∀ t, In t (find_missing_keywords cv jd) ↔
        ∃ sec, In sec SECTIONS ∧
               is_word t (spaced jd sec) ∧ ¬ is_word t (spaced cv sec)) ∧
  (∀ d sec c, In c (list_ascii_of_string (spaced d sec)) →
              c ≠ ","%char ∧ lower_char c = c) ∧
  find_missing_keywords {[ "skills"%string := "python sql"%string ]}
                        {[ "skills"%string := "python sql aws"%string ]}
  = ["aws"%string].
Proof.
  unfold find_missing_keywords. split; [|split; [|split; [|split]]].
  - apply StronglySorted_merge_sort; apply _.
  - rewrite merge_sort_Permutation. apply NoDup_elements.
  - intros t. rewrite <- list_elem_of_In, merge_sort_Permutation, elem_of_elements.
    apply missing_fold.
  - intros d sec c Hc. split;
      [now apply replace_comma_no_comma in Hc | now apply spaced_lower in Hc].
  - vm_compute. reflexivity.
Qed.

(** ** Date formats *)

Local Open Scope Z_scope.

Definition digit_char (n : Z) : ascii := ascii_of_N (Z.to_N (48 + n)).

Definition pad2 (n : Z) : string :=
  String (digit_char (n / 10)) (String (digit_char (n mod 10)) "").

Definition pad4 (n : Z) : string := (pad2 (n / 100) ++ pad2 (n mod 100))%string.

Lemma digit_not_space c : isdigit c = true → isspace c = false.
Proof. destruct c as [[] [] [] [] [] [] [] []]; vm_compute; congruence. Qed.

Lemma digit_not_present c s : isdigit c = true → is_present (String c s) = false.
Proof.
  intros Hc. unfold is_present. cbn [lower String.eqb].
  assert (Ascii.eqb (lower_char c) "p" = false ∧ Ascii.eqb (lower_char c) "n" = false)
    as [-> ->]; [|reflexivity].
  revert Hc. destruct c as [[] [] [] [] [] [] [] []]; vm_compute; auto; congruence.
Qed.

(** *** All the matches of a pattern *)

Local Open Scope nat_scope.

(** The ways a repetition can match, best first. *)
Fixpoint ways_rep (step : string → captures → list (string * captures))
    (greedy : bool) (fuel lo : nat) (hi : option nat) (s : string)
    (caps : captures) {struct fuel} : list (string * captures) :=
  let stop := match lo with 0 => [(s, caps)] | S _ => [] end in
  let more :=
    match fuel, hi with
    | 0, _ | _, Some 0 => []
    | S fuel', _ =>
        flat_map
          (fun w =>
             if len (fst w) <? len s
             then ways_rep step greedy fuel' (pred lo) (pred <$> hi) (fst w) (snd w)
             else [])
          (step s caps)
    end in
  if greedy then more ++ stop else stop ++ more.

(** The ways [r] can match at the front of [s], best first: each is the
    rest of the string with the groups recorded. *)
Fixpoint ways (n0 : nat) (r : regex) (s : string) (caps : captures)
    : list (string * captures) :=
  match r with
  | Eps => [(s, caps)]
  | Chr p =>
      match s with
      | String c s' => if p c then [(s', caps)] else []
      | EmptyString => []
      end
  | Cat r1 r2 =>
      flat_map (fun w => ways n0 r2 (fst w) (snd w)) (ways n0 r1 s caps)
  | Alt r1 r2 => ways n0 r1 s caps ++ ways n0 r2 s caps
  | Grp name r1 =>
      map (fun w => (fst w, (name, take_str (len s - len (fst w)) s) :: snd w))
          (ways n0 r1 s caps)
  | Bol => if len s =? n0 then [(s, caps)] else []
  | Rep greedy lo hi r1 => ways_rep (ways n0 r1) greedy (len s) lo hi s caps
  end.

(** The first way that the continuation accepts. *)
Fixpoint first_accepted {R} (k : string → captures → option R)
    (l : list (string * captures)) : option R :=
  match l with
  | [] => None
  | w :: l' => or_else (k (fst w) (snd w)) (fun _ => first_accepted k l')
  end.

Lemma first_accepted_app {R} (k : string → captures → option R) l1 l2 :
  first_accepted k (l1 ++ l2)
  = or_else (first_accepted k l1) (fun _ => first_accepted k l2).
Proof.
  induction l1 as [|w l1 IH]; simpl; [reflexivity|].
  destruct (k (fst w) (snd w)); simpl; [reflexivity | exact IH].
Qed.

Lemma first_accepted_ext {R} (k1 k2 : string → captures → option R) l :
  (∀ s c, k1 s c = k2 s c) → first_accepted k1 l = first_accepted k2 l.
Proof.
  intros E. induction l as [|w l IH]; simpl; [reflexivity|].
  now rewrite E, IH.
Qed.

Lemma first_accepted_flat_map {R} (k : string → captures → option R) f l :
  first_accepted k (flat_map f l)
  = first_accepted (fun s1 c1 => first_accepted k (f (s1, c1))) l.
Proof.
  induction l as [|[s1 c1] l IH]; simpl; [reflexivity|].
  now rewrite first_accepted_app, IH.
Qed.

Lemma first_accepted_map {R} (k : string → captures → option R) f l :
  first_accepted k (map f l)
  = first_accepted (fun s1 c1 => k (fst (f (s1, c1))) (snd (f (s1, c1)))) l.
Proof.
  induction l as [|[s1 c1] l IH]; simpl; [reflexivity|]. now rewrite IH.
Qed.

Lemma rep_loop_ways {R} step wstep (k : string → captures → option R) greedy :
  (∀ s caps k', step s caps k' = first_accepted k' (wstep s caps)) →
  ∀ fuel lo hi s caps,
    rep_loop step k greedy fuel lo hi s caps
    = first_accepted k (ways_rep wstep greedy fuel lo hi s caps).
Proof.
  intros Hstep. induction fuel as [|fuel IH]; intros lo hi s caps;
    rewrite rep_loop_eq; cbv zeta.
  - simpl. destruct greedy; simpl.
    + destruct lo; simpl; [now destruct (k s caps) | reflexivity].
    + destruct lo; simpl; [now destruct (k s caps) | reflexivity].
  - assert (Hmore :
      step s caps
        (fun s1 c1 =>
           if len s1 <? len s
           then rep_loop step k greedy fuel (pred lo) (pred <$> hi) s1 c1
           else None)
      = first_accepted k
          (flat_map
             (fun w =>
                if len (fst w) <? len s
                then ways_rep wstep greedy fuel (pred lo) (pred <$> hi) (fst w) (snd w)
                else [])
             (wstep s caps))).
    { rewrite Hstep, first_accepted_flat_map. apply first_accepted_ext.
      intros s1 c1. simpl. destruct (len s1 <? len s); [apply IH | reflexivity]. }
    cbn [ways_rep].
    destruct greedy, hi as [[|h]|]; rewrite first_accepted_app;
      try rewrite Hmore; destruct lo; simpl; try reflexivity;
      try (now destruct (k s caps)).
Qed.

(** The matcher returns what its continuation makes of the first way it
    accepts. *)
Lemma rmatch_ways {R} n0 r :
  ∀ s caps (k : string → captures → option R),
    rmatch n0 r s caps k = first_accepted k (ways n0 r s caps).
Proof.
  induction r as [|p|r1 IH1 r2 IH2|r1 IH1 r2 IH2|g lo hi r1 IH|name r1 IH|];
    intros s caps k; cbn [rmatch ways].
  - simpl. now destruct (k s caps).
  - destruct s as [|c s]; [reflexivity|].
    destruct (p c); simpl; [now destruct (k s caps) | reflexivity].
  - rewrite IH1, first_accepted_flat_map. apply first_accepted_ext.
    intros s1 c1. apply IH2.
  - now rewrite first_accepted_app, IH1, IH2.
  - now apply rep_loop_ways.
  - rewrite IH, first_accepted_map. reflexivity.
  - destruct (len s =? n0); simpl; [now destruct (k s caps) | reflexivity].
Qed.

Lemma flat_map_ext_in {A B} (f g : A → list B) l :
  (∀ x, In x l → f x = g x) → flat_map f l = flat_map g l.
Proof.
  induction l as [|x l IH]; intros E; simpl; [reflexivity|].
  rewrite E by now left. rewrite IH; [reflexivity|].
  intros y Hy. apply E. now right.
Qed.

Lemma flat_map_nil {A B} (f : A → list B) l :
  (∀ x, In x l → f x = []) → flat_map f l = [].
Proof.
  induction l as [|x l IH]; intros E; simpl; [reflexivity|].
  rewrite E by now left. apply IH. intros y Hy. apply E. now right.
Qed.

(** The loop of a repetition never runs out of iterations: any number of
    them from [len s] on gives the same matches. *)
Lemma ways_rep_fuel step greedy : ∀ f1 f2 lo hi s caps,
  len s ≤ f1 → len s ≤ f2 →
  ways_rep step greedy f1 lo hi s caps = ways_rep step greedy f2 lo hi s caps.
Proof.
  induction f1 as [|f1 IH]; intros f2 lo hi s caps L1 L2.
  - destruct f2 as [|f2]; [reflexivity|]. cbn [ways_rep].
    assert (Hnone : ∀ f : string * captures → list (string * captures), flat_map
              (fun w => if len (fst w) <? len s
                        then f w else []) (step s caps) = []).
    { intros f. apply flat_map_nil. intros w _.
      replace (len (fst w) <? len s) with false; [reflexivity|].
      symmetry. apply Nat.ltb_ge. lia. }
    destruct hi as [[|h]|]; try reflexivity; now rewrite Hnone.
  - destruct f2 as [|f2].
    + cbn [ways_rep].
      assert (Hnone : ∀ f : string * captures → list (string * captures), flat_map
                (fun w => if len (fst w) <? len s
                          then f w else []) (step s caps) = []).
      { intros f. apply flat_map_nil. intros w _.
        replace (len (fst w) <? len s) with false; [reflexivity|].
        symmetry. apply Nat.ltb_ge. lia. }
      destruct hi as [[|h]|]; try reflexivity; now rewrite Hnone.
    + cbn [ways_rep].
      assert (Hsame :
        flat_map (fun w => if len (fst w) <? len s
                           then ways_rep step greedy f1 (pred lo) (pred <$> hi) (fst w) (snd w)
                           else []) (step s caps)
        = flat_map (fun w => if len (fst w) <? len s
                             then ways_rep step greedy f2 (pred lo) (pred <$> hi) (fst w) (snd w)
                             else []) (step s caps)).
      { apply flat_map_ext_in. intros w _.
        destruct (len (fst w) <? len s) eqn:E; [|reflexivity].
        apply Nat.ltb_lt in E. apply IH; lia. }
      destruct hi as [[|h]|]; try reflexivity; now rewrite Hsame.
Qed.

Lemma rep_loop_fuel {R} n0 r (k : string → captures → option R) greedy fuel lo hi s caps :
  len s ≤ fuel →
  rep_loop (rmatch n0 r) k greedy fuel lo hi s caps
  = rmatch n0 (Rep greedy lo hi r) s caps k.
Proof.
  intros Hf. cbn [rmatch].
  rewrite !(rep_loop_ways _ (ways n0 r)) by (intros; apply rmatch_ways).
  f_equal. apply ways_rep_fuel; lia.
Qed.

Lemma rmatch_cat {R} n0 r1 r2 s caps (k : string → captures → option R) :
  rmatch n0 (Cat r1 r2) s caps k
  = rmatch n0 r1 s caps (fun s1 c1 => rmatch n0 r2 s1 c1 k).
Proof. reflexivity. Qed.

(** One or more blanks, on a blank followed by another character. *)
Lemma space_step {R} n0 c rest caps (k : string → captures → option R) :
  isspace c = false →
  rmatch n0 (re_plus re_space) (String " " (String c rest)) caps k
  = k (String c rest) caps.
Proof.
  intros Hc. unfold re_plus, re_space. cbn [rmatch].
  rewrite rep_loop_eq. cbv zeta. cbn [len rmatch].
  change (isspace " ") with true. cbv iota.
  assert (Hlt : (S (len rest) <? S (S (len rest)))%nat = true)
    by (apply Nat.ltb_lt; lia).
  rewrite Hlt. rewrite rep_loop_eq. cbv zeta. rewrite Hc. simpl.
  now destruct (k (String c rest) caps).
Qed.

Lemma strptime_no_match s fmt :
  re_match (format_regex fmt) s = None →
  strptime s fmt = Raise (ValueError "time data does not match format").
Proof. unfold strptime. now intros ->. Qed.

Lemma strptime_match s fmt caps :
  re_match (format_regex fmt) s = Some (MkMatch 0 (len s) caps) →
  strptime s fmt = make_date (found_year caps) (found_month caps) (found_day caps).
Proof. unfold strptime. intros ->. cbn [m_end m_groups]. now rewrite Nat.eqb_refl. Qed.

Lemma day_cases d :
  (1 <= d <= 31)%Z →
  (d = 1 ∨ d = 2 ∨ d = 3 ∨ d = 4 ∨ d = 5 ∨ d = 6 ∨ d = 7 ∨ d = 8 ∨ d = 9 ∨ d = 10 ∨
   d = 11 ∨ d = 12 ∨ d = 13 ∨ d = 14 ∨ d = 15 ∨ d = 16 ∨ d = 17 ∨ d = 18 ∨ d = 19 ∨
   d = 20 ∨ d = 21 ∨ d = 22 ∨ d = 23 ∨ d = 24 ∨ d = 25 ∨ d = 26 ∨ d = 27 ∨ d = 28 ∨
   d = 29 ∨ d = 30 ∨ d = 31)%Z.
Proof. lia. Qed.

Ltac each_day H :=
  apply day_cases in H;
  repeat (destruct H as [->|H]); [..|subst].

Fixpoint last_char (s : string) : option ascii :=
  match s with
  | EmptyString => None
  | String c EmptyString => Some c
  | String _ s' => last_char s'
  end.

Lemma rstrip_id p s c : last_char s = Some c → p c = false → rstrip_with p s = s.
Proof.
  intros Hl Hc. induction s as [|a s IH]; [discriminate|].
  destruct s as [|b s].
  - injection Hl as ->. simpl. now rewrite Hc.
  - change (rstrip_with p (String a (String b s)))
      with (match rstrip_with p (String b s) with
            | EmptyString => if p a then EmptyString else String a EmptyString
            | r => String a r
            end).
    now rewrite IH.
Qed.

Lemma strip_id c rest c' :
  isspace c = false → last_char (String c rest) = Some c' → isspace c' = false →
  strip (String c rest) = String c rest.
Proof.
  intros Hc Hl Hc'. unfold strip, strip_with. cbn [lstrip_with]. rewrite Hc.
  now apply (rstrip_id _ _ c').
Qed.

Lemma parse_date_at now s pre fmt post caps t :
  strip s = s → is_present s = false →
  date_formats = pre ++ fmt :: post →
  (∀ f, In f pre → re_match (format_regex f) s = None) →
  re_match (format_regex fmt) s = Some (MkMatch 0 (len s) caps) →
  make_date (found_year caps) (found_month caps) (found_day caps) = Ok t →
  parse_date now s = Ok t.
Proof.
  intros Hs Hp Hf Hpre Hm Ht. unfold parse_date. rewrite Hs, Hp, Hf. clear Hf.
  induction pre as [|f pre IH]; simpl.
  - now rewrite (strptime_match _ _ _ Hm), Ht.
  - rewrite strptime_no_match by (apply Hpre; now left).
    apply IH. intros f' Hf'. apply Hpre. now right.
Qed.

Definition month_abbr : list string :=
  ["Jan"; "Feb"; "Mar"; "Apr"; "May"; "Jun";
   "Jul"; "Aug"; "Sep"; "Oct"; "Nov"; "Dec"]%string.

Definition month_name : list string :=
  ["January"; "February"; "March"; "April"; "May"; "June"; "July";
   "August"; "September"; "October"; "November"; "December"]%string.

Definition nth_month (names : list string) (m : Z) : string :=
  nth (Z.to_nat (m - 1)) names ""%string.

Section YearDigits.
Variables (now : datetime) (c1 c2 c3 c4 : ascii).
Hypothesis H1 : isdigit c1 = true.
Hypothesis H2 : isdigit c2 = true.
Hypothesis H3 : isdigit c3 = true.
Hypothesis H4 : isdigit c4 = true.

Definition ystr : string := String c1 (String c2 (String c3 (String c4 ""))).

(** The year directive takes four digits. *)
Lemma year_step {R} n0 rest caps (k : string → captures → option R) :
  rmatch n0 (directive_re "Y")
    (String c1 (String c2 (String c3 (String c4 rest)))) caps k
  = k rest (("Y"%string, ystr) :: caps).
Proof.
  change (directive_re "Y")
    with (Grp "Y" (Cat re_digit (Cat re_digit (Cat re_digit re_digit)))).
  unfold re_digit. cbn [rmatch]. rewrite H1, H2, H3, H4.
  cbn [len]. replace (S (S (S (S (len rest)))) - len rest)%nat with 4%nat by lia.
  reflexivity.
Qed.

(** A format whose last directive is the year, on a string whose part
    before the year can be matched in one way only. *)
Lemma match_year_last P s caps :
  ways (len s) P s [] = [(ystr, caps)] →
  match_here (Cat P (directive_re "Y")) (len s) s 0
  = Some (MkMatch 0 (len s) (("Y"%string, ystr) :: caps)).
Proof.
  intros Hw. unfold match_here. rewrite rmatch_cat, rmatch_ways, Hw.
  cbn [first_accepted fst snd]. unfold ystr. rewrite year_step.
  cbn [or_else len]. now rewrite Nat.sub_0_r.
Qed.

(** The same with blanks before the year. *)
Lemma match_space_year_last P s caps :
  ways (len s) P s [] = [(String " " ystr, caps)] →
  match_here (Cat P (Cat (re_plus re_space) (directive_re "Y"))) (len s) s 0
  = Some (MkMatch 0 (len s) (("Y"%string, ystr) :: caps)).
Proof.
  intros Hw. unfold match_here. rewrite rmatch_cat, rmatch_ways, Hw.
  cbn [first_accepted fst snd]. unfold ystr.
  rewrite rmatch_cat, space_step by (now apply digit_not_space).
  rewrite year_step. cbn [or_else len]. now rewrite Nat.sub_0_r.
Qed.

Definition dm_prefix (sep : ascii) : regex :=
  Cat (directive_re "d") (Cat (Chr (chr_is true sep))
    (Cat (directive_re "m") (Chr (chr_is true sep)))).

Lemma dmy_regroup fmt sep n0 s pos :
  format_regex fmt
  = Cat (directive_re "d") (Cat (Chr (chr_is true sep))
      (Cat (directive_re "m") (Cat (Chr (chr_is true sep)) (directive_re "Y")))) →
  match_here (format_regex fmt) n0 s pos
  = match_here (Cat (dm_prefix sep) (directive_re "Y")) n0 s pos.
Proof. now intros ->. Qed.

(** Evaluate a pattern that starts with the year on a string that starts
    with the four digits. *)
Ltac year_first fmt_rest :=
  unfold re_match, match_here;
  change (format_regex _)
    with (Cat (directive_re "Y") (cats (format_re false fmt_rest)));
  rewrite rmatch_cat, year_step; vm_compute; reflexivity.

Ltac strip_tac :=
  eapply strip_id;
  [ first [apply digit_not_space; assumption | vm_compute; reflexivity]
  | vm_compute; reflexivity
  | first [apply digit_not_space; assumption | vm_compute; reflexivity] ].

Ltac year_first_any :=
  first [ year_first "-%m-%d"%string | year_first "/%m/%d"%string
        | year_first "-%m"%string | year_first "/%m"%string ].

Ltac all_before tac :=
  let f := fresh "f" in
  let Hf := fresh "Hf" in
  intros f Hf; repeat (destruct Hf as [<-|Hf]; [tac|]); destruct Hf.

Ltac year_last_match sep :=
  unfold re_match; rewrite (dmy_regroup _ sep) by reflexivity;
  apply match_year_last; vm_compute; reflexivity.

Ltac month_name_match d :=
  unfold re_match;
  change (format_regex _)
    with (Cat (directive_re d) (Cat (re_plus re_space) (directive_re "Y")));
  apply match_space_year_last; vm_compute; reflexivity.

Lemma parse_ymd_dash m d t :
  (1 <= m <= 12)%Z → (1 <= d <= 31)%Z →
  make_date (int_of ystr) m d = Ok t →
  parse_date now
    (String c1 (String c2 (String c3 (String c4 ("-" ++ pad2 m ++ "-" ++ pad2 d)))))
  = Ok t.
Proof.
  intros Hm Hd Ht.
  each_month Hm; each_day Hd;
    (eapply (parse_date_at _ _ [] "%Y-%m-%d");
     [ strip_tac | apply (digit_not_present _ _ H1) | reflexivity
     | all_before year_first_any | year_first_any | exact Ht ]).
Qed.

Lemma parse_ymd_slash m d t :
  (1 <= m <= 12)%Z → (1 <= d <= 31)%Z →
  make_date (int_of ystr) m d = Ok t →
  parse_date now
    (String c1 (String c2 (String c3 (String c4 ("/" ++ pad2 m ++ "/" ++ pad2 d)))))
  = Ok t.
Proof.
  intros Hm Hd Ht.
  each_month Hm; each_day Hd;
    (eapply (parse_date_at _ _ ["%Y-%m-%d"] "%Y/%m/%d")%string;
     [ strip_tac | apply (digit_not_present _ _ H1) | reflexivity
     | all_before year_first_any | year_first_any | exact Ht ]).
Qed.

Lemma parse_ym_dash m t :
  (1 <= m <= 12)%Z →
  make_date (int_of ystr) m 1 = Ok t →
  parse_date now (String c1 (String c2 (String c3 (String c4 ("-" ++ pad2 m)))))
  = Ok t.
Proof.
  intros Hm Ht.
  each_month Hm;
    (eapply (parse_date_at _ _ ["%Y-%m-%d"; "%Y/%m/%d"] "%Y-%m")%string;
     [ strip_tac | apply (digit_not_present _ _ H1) | reflexivity
     | all_before year_first_any | year_first_any | exact Ht ]).
Qed.

Lemma parse_ym_slash m t :
  (1 <= m <= 12)%Z →
  make_date (int_of ystr) m 1 = Ok t →
  parse_date now (String c1 (String c2 (String c3 (String c4 ("/" ++ pad2 m)))))
  = Ok t.
Proof.
  intros Hm Ht.
  each_month Hm;
    (eapply (parse_date_at _ _ ["%Y-%m-%d"; "%Y/%m/%d"; "%Y-%m"] "%Y/%m")%string;
     [ strip_tac | apply (digit_not_present _ _ H1) | reflexivity
     | all_before year_first_any | year_first_any | exact Ht ]).
Qed.

Lemma parse_dmy_dash m d t :
  (1 <= m <= 12)%Z → (1 <= d <= 31)%Z →
  make_date (int_of ystr) m d = Ok t →
  parse_date now (pad2 d ++ "-" ++ pad2 m ++ "-" ++ ystr) = Ok t.
Proof.
  intros Hm Hd Ht.
  each_month Hm; each_day Hd;
    (eapply (parse_date_at _ _ ["%Y-%m-%d"; "%Y/%m/%d"; "%Y-%m"; "%Y/%m"]
               "%d-%m-%Y")%string;
     [ strip_tac | vm_compute; reflexivity | reflexivity
     | all_before ltac:(vm_compute; reflexivity)
     | year_last_match "-"%char | exact Ht ]).
Qed.

Lemma parse_dmy_slash m d t :
  (1 <= m <= 12)%Z → (1 <= d <= 31)%Z →
  make_date (int_of ystr) m d = Ok t →
  parse_date now (pad2 d ++ "/" ++ pad2 m ++ "/" ++ ystr) = Ok t.
Proof.
  intros Hm Hd Ht.
  each_month Hm; each_day Hd;
    (eapply (parse_date_at _ _
               ["%Y-%m-%d"; "%Y/%m/%d"; "%Y-%m"; "%Y/%m"; "%d-%m-%Y"]
               "%d/%m/%Y")%string;
     [ strip_tac | vm_compute; reflexivity | reflexivity
     | all_before ltac:(vm_compute; reflexivity)
     | year_last_match "/"%char | exact Ht ]).
Qed.

Lemma parse_abbr m t :
  (1 <= m <= 12)%Z →
  make_date (int_of ystr) m 1 = Ok t →
  parse_date now (nth_month month_abbr m ++ " " ++ ystr) = Ok t.
Proof.
  intros Hm Ht.
  each_month Hm;
    (eapply (parse_date_at _ _
               ["%Y-%m-%d"; "%Y/%m/%d"; "%Y-%m"; "%Y/%m"; "%d-%m-%Y"; "%d/%m/%Y"]
               "%b %Y")%string;
     [ strip_tac | vm_compute; reflexivity | reflexivity
     | all_before ltac:(vm_compute; reflexivity)
     | month_name_match "b"%char | exact Ht ]).
Qed.

Lemma parse_full m t :
  (1 <= m <= 12)%Z →
  make_date (int_of ystr) m 1 = Ok t →
  parse_date now (nth_month month_name m ++ " " ++ ystr) = Ok t.
Proof.
  intros Hm Ht.
  destruct (Z.eq_dec m 5%Z) as [->|Hne].
  - exact (parse_abbr 5%Z t ltac:(lia) Ht).
  - each_month Hm; try congruence;
    (eapply (parse_date_at _ _
               ["%Y-%m-%d"; "%Y/%m/%d"; "%Y-%m"; "%Y/%m"; "%d-%m-%Y"; "%d/%m/%Y";
                "%b %Y"] "%B %Y")%string;
     [ strip_tac | vm_compute; reflexivity | reflexivity
     | all_before ltac:(vm_compute; reflexivity)
     | month_name_match "B"%char | exact Ht ]).
Qed.
End YearDigits.

(** The text a directive stands for, and a date written in a format
    ([strftime] with four-digit years). *)
Definition directive_text (d : ascii) (t : datetime) : string :=
  if Ascii.eqb d "Y" then pad4 (year t)
  else if Ascii.eqb d "m" then pad2 (month t)
  else if Ascii.eqb d "d" then pad2 (day t)
  else if Ascii.eqb d "b" then nth_month month_abbr (month t)
  else if Ascii.eqb d "B" then nth_month month_name (month t)
  else ""%string.

Fixpoint strftime (fmt : string) (t : datetime) : string :=
  match fmt with
  | EmptyString => EmptyString
  | String c rest =>
      if Ascii.eqb c "%" then
        match rest with
        | String d rest' => (directive_text d t ++ strftime rest' t)%string
        | EmptyString => EmptyString
        end
      else String c (strftime rest t)
  end.

(** The format has the directive [%d]. *)
Fixpoint has_day (fmt : string) : bool :=
  match fmt with
  | EmptyString => false
  | String c rest =>
      match rest with
      | String d _ => (Ascii.eqb c "%" && Ascii.eqb d "d") || has_day rest
      | EmptyString => false
      end
  end.

Lemma digit_cases n :
  (0 <= n <= 9)%Z →
  (n = 0 ∨ n = 1 ∨ n = 2 ∨ n = 3 ∨ n = 4 ∨ n = 5 ∨ n = 6 ∨ n = 7 ∨ n = 8 ∨ n = 9)%Z.
Proof. lia. Qed.

Lemma digit_char_spec n :
  (0 <= n <= 9)%Z → isdigit (digit_char n) = true ∧ digit_val (digit_char n) = n.
Proof.
  intros Hn. apply digit_cases in Hn.
  repeat (destruct Hn as [->|Hn]; [split; vm_compute; reflexivity|]).
  subst. split; vm_compute; reflexivity.
Qed.

Lemma int_of_digits a b c d :
  isdigit a = true → isdigit b = true → isdigit c = true → isdigit d = true →
  int_of (String a (String b (String c (String d ""))))
  = (((digit_val a * 10 + digit_val b) * 10 + digit_val c) * 10 + digit_val d)%Z.
Proof.
  intros Ha Hb Hc Hd. unfold int_of.
  rewrite (strip_id a (String b (String c (String d ""))) d
             (digit_not_space _ Ha) eq_refl (digit_not_space _ Hd)).
  reflexivity.
Qed.

Lemma pad4_digits y :
  (0 <= y <= 9999)%Z →
  ∃ a b c d,
    pad4 y = String a (String b (String c (String d ""))) ∧
    isdigit a = true ∧ isdigit b = true ∧ isdigit c = true ∧ isdigit d = true ∧
    int_of (String a (String b (String c (String d "")))) = y.
Proof.
  intros Hy.
  destruct (digit_char_spec (y / 100 / 10)) as [Ha Va]; [Z.div_mod_to_equations; lia|].
  destruct (digit_char_spec (y / 100 mod 10)) as [Hb Vb]; [Z.div_mod_to_equations; lia|].
  destruct (digit_char_spec (y mod 100 / 10)) as [Hc Vc]; [Z.div_mod_to_equations; lia|].
  destruct (digit_char_spec (y mod 100 mod 10)) as [Hd Vd]; [Z.div_mod_to_equations; lia|].
  eexists _, _, _, _. split; [reflexivity|].
  repeat (split; [assumption|]).
  rewrite int_of_digits by assumption. rewrite Va, Vb, Vc, Vd.
  Z.div_mod_to_equations; lia.
Qed.

Lemma try_formats_ok s fmts date_str t :
  try_formats s fmts date_str = Ok t ↔
  ∃ pre fmt post, fmts = pre ++ fmt :: post ∧ strptime s fmt = Ok t ∧
    ∀ f, In f pre → ∃ msg, strptime s f = Raise (ValueError msg).
Proof.
  induction fmts as [|fmt fmts IH]; simpl.
  - split; [discriminate|]. intros (pre & f & post & E & _). now destruct pre.
  - destruct (strptime s fmt) as [t'|e] eqn:E.
    + split.
      * intros [= <-]. exists [], fmt, fmts. split; [reflexivity|].
        split; [exact E|]. intros f [].
      * intros (pre & f & post & Eq & Hf & Hpre). destruct pre as [|p pre].
        -- injection Eq as <- _. congruence.
        -- injection Eq as <- _. destruct (Hpre fmt) as [msg Hm]; [now left|].
           congruence.
    + pose proof (strptime_raises _ _ _ E) as [msg ->]. rewrite IH. split.
      * intros (pre & f & post & -> & Hf & Hpre). exists (fmt :: pre), f, post.
        split; [reflexivity|]. split; [exact Hf|].
        intros f' [<-|Hf']; [eauto | now apply Hpre].
      * intros (pre & f & post & Eq & Hf & Hpre). destruct pre as [|p pre].
        -- injection Eq as <- _. congruence.
        -- injection Eq as <- ->. exists pre, f, post. split; [reflexivity|].
           split; [exact Hf|]. intros f' Hf'. apply Hpre. now right.
Qed.

Lemma try_formats_error s fmts date_str :
  (∃ msg, try_formats s fmts date_str = Raise (ValueError msg)) ↔
  ∀ fmt, In fmt fmts → ∃ msg, strptime s fmt = Raise (ValueError msg).
Proof.
  induction fmts as [|fmt fmts IH]; simpl.
  - split; [intros _ f [] | eauto].
  - destruct (strptime s fmt) as [t'|e] eqn:E.
    + split; [intros [msg [=]]|]. intros Hall.
      destruct (Hall fmt) as [msg Hm]; [now left | congruence].
    + pose proof (strptime_raises _ _ _ E) as [msg ->]. rewrite IH. split.
      * intros Hall f [<-|Hf]; [eauto | now apply Hall].
      * intros Hall f Hf. apply Hall. now right.
Qed.

Lemma is_present_spec s :
  is_present s = true ↔ lower s = "present"%string ∨ lower s = "now"%string.
Proof.
  unfold is_present. rewrite orb_true_iff, !String.eqb_eq. reflexivity.
Qed.

(** A date that a format can carry: a valid calendar date at midnight, on
    the first of the month when the format has no day. *)
Definition fits (fmt : string) (t : datetime) : Prop :=
  valid_date (year t) (month t) (day t) = true ∧
  hour t = 0%Z ∧ minute t = 0%Z ∧ second t = 0%Z ∧ microsecond t = 0%Z ∧
  (has_day fmt = false → day t = 1%Z).

Lemma parse_strftime now fmt t :
  In fmt date_formats → fits fmt t → parse_date now (strftime fmt t) = Ok t.
Proof.
  intros Hfmt (Hv & Hh & Hmi & Hs & Hus & Hday).
  destruct t as [y m d h mi sec us]. cbn [year month day hour minute second microsecond] in *.
  subst h mi sec us.
  pose proof (valid_date_bounds _ _ _ Hv) as (Hy & Hm & Hd).
  assert (Hd31 : (1 <= d <= 31)%Z).
  { split; [lia|]. unfold days_in_month in Hd.
    repeat match type of Hd with context [if ?b then _ else _] => destruct b end; lia. }
  destruct (pad4_digits y) as (a & b & c & e & Hpad & Ha & Hb & Hc & He & Hint); [lia|].
  assert (Hmk : make_date (int_of (ystr a b c e)) m d = Ok (MkDatetime y m d 0 0 0 0)).
  { unfold ystr. rewrite Hint. now apply make_date_ok. }
  unfold date_formats in Hfmt. simpl in Hfmt.
  destruct Hfmt as [<-|[<-|[<-|[<-|[<-|[<-|[<-|[<-|[]]]]]]]]];
    cbn [strftime Ascii.eqb Bool.eqb directive_text year month day];
    cbv beta iota; rewrite Hpad; try (rewrite (Hday eq_refl) in * ).
  - exact (parse_ymd_dash now a b c e Ha Hb Hc He m d _ Hm Hd31 Hmk).
  - exact (parse_ymd_slash now a b c e Ha Hb Hc He m d _ Hm Hd31 Hmk).
  - exact (parse_ym_dash now a b c e Ha Hb Hc He m _ Hm Hmk).
  - exact (parse_ym_slash now a b c e Ha Hb Hc He m _ Hm Hmk).
  - exact (parse_dmy_dash now a b c e Ha Hb Hc He m d _ Hm Hd31 Hmk).
  - exact (parse_dmy_slash now a b c e Ha Hb Hc He m d _ Hm Hd31 Hmk).
  - exact (parse_abbr now a b c e Ha Hb Hc He m _ Hm Hmk).
  - exact (parse_full now a b c e Ha Hb Hc He m _ Hm Hmk).
Qed.

(** C6.  [parse_date] strips its argument.  When the lower-case form of the
    result is "present" or "now" it returns the current moment.  Otherwise it
    returns the date of the first format of the list, in order, that
    [strptime] accepts, and raises [ValueError] exactly when [strptime]
    accepts none.  A valid date written in any of the eight formats parses
    to that date: "2020-05" and "May 2020" both give the first of May
    2020. *)
Theorem parse_date_formats (now : datetime) :
  (∀ s, is_present (strip s) = true ↔
        lower (strip s) = "present"%string ∨ lower (strip s) = "now"%string) ∧
  (∀ s, is_present (strip s) = true → parse_date now s = Ok now) ∧
  (∀ s t, is_present (strip s) = false →
     (parse_date now s = Ok t ↔
      ∃ pre fmt post,
        date_formats = pre ++ fmt :: post ∧
        strptime (strip s) fmt = Ok t ∧
        ∀ f, In f pre → ∃ msg, strptime (strip s) f = Raise (ValueError msg))) ∧
  (∀ s, is_present (strip s) = false →
     ((∃ msg, parse_date now s = Raise (ValueError msg)) ↔
      ∀ fmt, In fmt date_formats →
             ∃ msg, strptime (strip s) fmt = Raise (ValueError msg))) ∧
  (∀ s e, parse_date now s = Raise e → is_value_error e) ∧
  parse_date now "2020-05" = Ok (MkDatetime 2020 5 1 0 0 0 0) ∧
  parse_date now "May 2020" = Ok (MkDatetime 2020 5 1 0 0 0 0) ∧
  (∀ fmt t, In fmt date_formats → fits fmt t →
            parse_date now (strftime fmt t) = Ok t).
Proof.
  split; [|split; [|split; [|split; [|split; [|split; [|split]]]]]].
  - intros s. apply is_present_spec.
  - intros s Hp. unfold parse_date. now rewrite Hp.
  - intros s t Hp. unfold parse_date. rewrite Hp. apply try_formats_ok.
  - intros s Hp. unfold parse_date. rewrite Hp. apply try_formats_error.
  - apply parse_date_raises.
  - vm_compute. reflexivity.
  - vm_compute. reflexivity.
  - apply parse_strftime.
Qed.

(** * The rest of the pipeline *)

(** ** What a pattern matches *)

Local Open Scope nat_scope.

(** A repetition: [lo] to [hi] turns, each of which consumes something. *)
Inductive iter (P : string → string → Prop)
    : nat → option nat → string → string → Prop :=
| iter_stop hi s : iter P 0 hi s s
| iter_more lo hi s s1 s2 :
    hi ≠ Some 0 → P s s1 → len s1 < len s →
    iter P (pred lo) (pred <$> hi) s1 s2 → iter P lo hi s s2.

(** [den n0 r s s']: the pattern [r] matches the front of [s] and leaves
    [s']; [n0] is the length of the whole subject. *)
Fixpoint den (n0 : nat) (r : regex) (s s' : string) : Prop :=
  match r with
  | Eps => s' = s
  | Chr p => ∃ c, s = String c s' ∧ p c = true
  | Cat r1 r2 => ∃ s1, den n0 r1 s s1 ∧ den n0 r2 s1 s'
  | Alt r1 r2 => den n0 r1 s s' ∨ den n0 r2 s s'
  | Rep _ lo hi r1 => iter (den n0 r1) lo hi s s'
  | Grp _ r1 => den n0 r1 s s'
  | Bol => s' = s ∧ len s = n0
  end.

Lemma ways_rep_iter wstep (P : string → string → Prop) greedy :
  (∀ s caps s' c', In (s', c') (wstep s caps) → P s s') →
  ∀ fuel lo hi s caps s' c',
    In (s', c') (ways_rep wstep greedy fuel lo hi s caps) → iter P lo hi s s'.
Proof.
  intros Hstep. induction fuel as [|fuel IH]; intros lo hi s caps s' c' Hin.
  - cbn [ways_rep] in Hin.
    assert (Hstop : In (s', c') (match lo with 0 => [(s, caps)] | S _ => [] end)).
    { destruct greedy; rewrite ?app_nil_r in Hin; exact Hin. }
    destruct lo; [|destruct Hstop]. destruct Hstop as [[= <- <-]|[]]. constructor.
  - cbn [ways_rep] in Hin.
    assert (Hcase :
      In (s', c') (match lo with 0 => [(s, caps)] | S _ => [] end) ∨
      (hi ≠ Some 0 ∧
       In (s', c')
          (flat_map
             (fun w => if len (fst w) <? len s
                       then ways_rep wstep greedy fuel (pred lo) (pred <$> hi) (fst w) (snd w)
                       else []) (wstep s caps)))).
    { destruct greedy; apply in_app_or in Hin; destruct Hin as [Hin|Hin]; auto;
        destruct hi as [[|h]|]; try (destruct Hin; fail); right; (split; [congruence|exact Hin]). }
    destruct Hcase as [Hstop|[Hhi Hmore]].
    + destruct lo; [|destruct Hstop]. destruct Hstop as [[= <- <-]|[]]. constructor.
    + apply in_flat_map in Hmore. destruct Hmore as ([s1 c1] & Hw & Hin').
      cbn [fst snd] in Hin'. destruct (len s1 <? len s) eqn:E; [|destruct Hin'].
      apply Nat.ltb_lt in E.
      eapply iter_more; eauto.
Qed.

Lemma iter_ways_rep wstep (P : string → string → Prop) greedy :
  (∀ s s', P s s' → ∀ caps, ∃ c', In (s', c') (wstep s caps)) →
  ∀ lo hi s s', iter P lo hi s s' →
    ∀ fuel caps, len s ≤ fuel →
      ∃ c', In (s', c') (ways_rep wstep greedy fuel lo hi s caps).
Proof.
  intros Hstep lo hi s s' Hit.
  induction Hit as [hi s|lo hi s s1 s2 Hhi HP Hlt Hit IH]; intros fuel caps Hf.
  - exists caps. destruct fuel; cbn [ways_rep]; destruct greedy;
      apply in_or_app; simpl; auto.
  - destruct fuel as [|fuel]; [lia|].
    destruct (Hstep _ _ HP caps) as (c1 & Hc1).
    destruct (IH fuel c1) as (c2 & Hc2); [lia|].
    exists c2. cbn [ways_rep].
    assert (Hmore :
      In (s2, c2)
         (flat_map
            (fun w => if len (fst w) <? len s
                      then ways_rep wstep greedy fuel (pred lo) (pred <$> hi) (fst w) (snd w)
                      else []) (wstep s caps))).
    { apply in_flat_map. exists (s1, c1). split; [exact Hc1|]. cbn [fst snd].
      apply Nat.ltb_lt in Hlt. now rewrite Hlt. }
    destruct greedy, hi as [[|h]|]; try congruence; apply in_or_app; auto.
Qed.

(** The matcher's ways are the matches of the pattern. *)
Lemma ways_den n0 r : ∀ s caps s' c',
  In (s', c') (ways n0 r s caps) → den n0 r s s'.
Proof.
  induction r as [|p|r1 IH1 r2 IH2|r1 IH1 r2 IH2|g lo hi r1 IH|name r1 IH|];
    intros s caps s' c' Hin; cbn [ways den] in *.
  - now destruct Hin as [[= <- <-]|[]].
  - destruct s as [|c s]; [destruct Hin|].
    destruct (p c) eqn:E; [|destruct Hin].
    destruct Hin as [[= <- <-]|[]]. eauto.
  - apply in_flat_map in Hin. destruct Hin as ([s1 c1] & H1 & H2). eauto.
  - apply in_app_or in Hin. destruct Hin; eauto.
  - eapply ways_rep_iter; eauto.
  - apply in_map_iff in Hin. destruct Hin as ([s1 c1] & [= <- <-] & Hin). eauto.
  - destruct (len s =? n0) eqn:E; [|destruct Hin].
    apply Nat.eqb_eq in E. now destruct Hin as [[= <- <-]|[]].
Qed.

Lemma den_ways n0 r : ∀ s s', den n0 r s s' →
  ∀ caps, ∃ c', In (s', c') (ways n0 r s caps).
Proof.
  induction r as [|p|r1 IH1 r2 IH2|r1 IH1 r2 IH2|g lo hi r1 IH|name r1 IH|];
    intros s s' Hd caps; cbn [ways den] in *.
  - subst s'. exists caps. now left.
  - destruct Hd as (c & -> & Hc). rewrite Hc. exists caps. now left.
  - destruct Hd as (s1 & H1 & H2).
    destruct (IH1 _ _ H1 caps) as (c1 & Hc1).
    destruct (IH2 _ _ H2 c1) as (c2 & Hc2).
    exists c2. apply in_flat_map. now exists (s1, c1).
  - destruct Hd as [Hd|Hd].
    + destruct (IH1 _ _ Hd caps) as (c1 & Hc1). exists c1. apply in_or_app; auto.
    + destruct (IH2 _ _ Hd caps) as (c1 & Hc1). exists c1. apply in_or_app; auto.
  - eapply iter_ways_rep; eauto.
  - destruct (IH _ _ Hd caps) as (c1 & Hc1).
    eexists. apply in_map_iff. exists (s', c1). split; [reflexivity|exact Hc1].
  - destruct Hd as [-> Hn]. apply Nat.eqb_eq in Hn. rewrite Hn. exists caps. now left.
Qed.

Lemma first_accepted_some {R} (k : string → captures → option R) l x :
  first_accepted k l = Some x → ∃ s1 c1, In (s1, c1) l ∧ k s1 c1 = Some x.
Proof.
  induction l as [|[s1 c1] l IH]; simpl; [discriminate|].
  destruct (k s1 c1) eqn:E; simpl.
  - intros [= <-]. eauto.
  - intros Hx. destruct (IH Hx) as (s2 & c2 & Hin & Hk). eauto.
Qed.

Lemma first_accepted_none {R} (k : string → captures → option R) l :
  first_accepted k l = None → ∀ s1 c1, In (s1, c1) l → k s1 c1 = None.
Proof.
  induction l as [|[s1 c1] l IH]; simpl; [intros _ ? ? []|].
  destruct (k s1 c1) eqn:E; simpl; [discriminate|].
  intros Hn s2 c2 [[= <- <-]|Hin]; auto.
Qed.

(** A match at a position is a match of the pattern at the front of the
    text from there on. *)
Lemma match_here_den r n0 s pos m :
  match_here r n0 s pos = Some m →
  ∃ s', den n0 r s s' ∧ m_start m = pos ∧ m_end m = pos + (len s - len s').
Proof.
  unfold match_here. rewrite rmatch_ways. intros Hm.
  apply first_accepted_some in Hm. destruct Hm as (s1 & c1 & Hin & [= <-]).
  exists s1. split; [eapply ways_den; eauto|]. auto.
Qed.

Lemma match_here_none r n0 s pos :
  match_here r n0 s pos = None → ∀ s', ¬ den n0 r s s'.
Proof.
  unfold match_here. rewrite rmatch_ways. intros Hn s' Hd.
  destruct (den_ways _ _ _ _ Hd []) as (c' & Hin).
  now apply (first_accepted_none _ _ Hn) in Hin.
Qed.

(** What a match leaves is an end of the text. *)
Lemma iter_suffix (P : string → string → Prop) :
  (∀ s s', P s s' → ∃ pre, s = pre +:+ s') →
  ∀ lo hi s s', iter P lo hi s s' → ∃ pre, s = pre +:+ s'.
Proof.
  intros HP lo hi s s' Hit.
  induction Hit as [hi s|lo hi s s1 s2 Hhi H1 Hlt Hit IH].
  - now exists "".
  - destruct (HP _ _ H1) as (p1 & ->). destruct IH as (p2 & ->).
    exists (p1 +:+ p2). now rewrite append_assoc_str.
Qed.

Lemma den_suffix n0 r : ∀ s s', den n0 r s s' → ∃ pre, s = pre +:+ s'.
Proof.
  induction r as [|p|r1 IH1 r2 IH2|r1 IH1 r2 IH2|g lo hi r1 IH|name r1 IH|];
    intros s s' Hd; cbn [den] in Hd.
  - subst. now exists "".
  - destruct Hd as (c & -> & _). now exists (String c "").
  - destruct Hd as (s1 & H1 & H2).
    destruct (IH1 _ _ H1) as (p1 & ->). destruct (IH2 _ _ H2) as (p2 & ->).
    exists (p1 +:+ p2). now rewrite append_assoc_str.
  - destruct Hd; eauto.
  - eapply iter_suffix; eauto.
  - eauto.
  - destruct Hd as [-> _]. now exists "".
Qed.

Lemma len_append (a b : string) : len (a +:+ b) = len a + len b.
Proof. induction a as [|x a IH]; str_simpl; [reflexivity | now rewrite IH]. Qed.

Lemma drop_append (a b : string) : drop_str (len a) (a +:+ b) = b.
Proof. induction a as [|x a IH]; str_simpl; [now destruct b | exact IH]. Qed.

Lemma take_append (a b : string) : take_str (len a) (a +:+ b) = a.
Proof. induction a as [|x a IH]; str_simpl; [now destruct b | now rewrite IH]. Qed.

Lemma take_drop (n : nat) (s : string) : take_str n s +:+ drop_str n s = s.
Proof.
  revert s; induction n as [|n IH]; intros [|c s]; try reflexivity.
  cbn [take_str drop_str]. now rewrite append_cons, IH.
Qed.

Lemma drop_S n c s : drop_str (S n) (String c s) = drop_str n s.
Proof. reflexivity. Qed.

Lemma append_inj_l (a b c : string) : a +:+ b = a +:+ c → b = c.
Proof. induction a as [|x a IH]; str_simpl; [auto | intros [= E]; auto]. Qed.

(** [re.search]: the match found starts at the first position at which the
    pattern matches. *)
Lemma search_from_den r n0 : ∀ s pos m,
  search_from r n0 s pos = Some m →
  ∃ i s', i ≤ len s ∧ den n0 r (drop_str i s) s' ∧
          m_start m = pos + i ∧ m_end m = pos + i + (len s - i - len s') ∧
          ∀ j, j < i → ∀ s'', ¬ den n0 r (drop_str j s) s''.
Proof.
  induction s as [|c s IH]; intros pos m; cbn [search_from].
  - destruct (match_here r n0 "" pos) as [m'|] eqn:E; [|discriminate].
    intros [= <-]. apply match_here_den in E. destruct E as (s' & Hd & Hs & He).
    exists 0, s'. cbn [drop_str len] in *. repeat split; try lia; auto.
  - destruct (match_here r n0 (String c s) pos) as [m'|] eqn:E.
    + intros [= <-]. apply match_here_den in E. destruct E as (s' & Hd & Hs & He).
      exists 0, s'. change (drop_str 0 (String c s)) with (String c s).
      repeat split; try lia; auto.
    + intros Hs. apply IH in Hs. destruct Hs as (i & s' & Hi & Hd & Hs & He & Hmin).
      exists (S i), s'. rewrite drop_S. cbn [len]. repeat split; try lia; auto.
      intros [|j] Hj s''.
      * change (drop_str 0 (String c s)) with (String c s).
        now apply (match_here_none _ _ _ _ E).
      * rewrite drop_S. apply Hmin. lia.
Qed.

Lemma search_from_none r n0 : ∀ s pos,
  search_from r n0 s pos = None → ∀ i s', ¬ den n0 r (drop_str i s) s'.
Proof.
  induction s as [|c s IH]; intros pos; cbn [search_from].
  - destruct (match_here r n0 "" pos) as [m'|] eqn:E; [discriminate|].
    intros _ i s'. replace (drop_str i "") with "" by now destruct i.
    now apply (match_here_none _ _ _ _ E).
  - destruct (match_here r n0 (String c s) pos) as [m'|] eqn:E; [discriminate|].
    intros Hs [|i] s'.
    + change (drop_str 0 (String c s)) with (String c s).
      now apply (match_here_none _ _ _ _ E).
    + rewrite drop_S. now apply (IH _ Hs).
Qed.

(** [r] matches in [text] at index [i], and the match is [matched]. *)
Definition matches_at (r : regex) (text : string) (i : nat) (matched : string) : Prop :=
  ∃ rest, drop_str i text = matched +:+ rest ∧ i ≤ len text ∧
          den (len text) r (matched +:+ rest) rest.

(** [re.search(r, text)] finds a match at the first index that has one, and
    finds none when no index has one. *)
Lemma re_search_spec r text :
  match re_search r text with
  | Some m =>
      matches_at r text (m_start m) (group0 text m) ∧
      m_end m = m_start m + len (group0 text m) ∧
      ∀ j matched, j < m_start m → ¬ matches_at r text j matched
  | None => ∀ i matched, ¬ matches_at r text i matched
  end.
Proof.
  unfold re_search. destruct (search_from r (len text) text 0) as [m|] eqn:E.
  - apply search_from_den in E.
    destruct E as (i & s' & Hi & Hd & Hs & He & Hmin). simpl in Hs, He.
    destruct (den_suffix _ _ _ _ Hd) as (pre & Hpre).
    assert (Hlen : len text - i = len pre + len s').
    { rewrite <- len_drop, Hpre. apply len_append. }
    assert (Hg : group0 text m = pre).
    { unfold group0, slice. rewrite Hs, He, Hpre.
      replace (i + (len text - i - len s') - i) with (len pre) by lia.
      apply take_append. }
    rewrite Hg, Hs. split; [|split].
    + exists s'. rewrite <- Hpre. auto.
    + lia.
    + intros j matched Hj (rest & Hq & _ & Hd'). rewrite <- Hq in Hd'.
      now apply (Hmin j Hj rest).
  - intros i matched (rest & Hq & _ & Hd). rewrite <- Hq in Hd.
    now apply (search_from_none _ _ _ _ E i rest).
Qed.

(** ** Runs of a character class *)

Fixpoint all_chars (p : ascii → bool) (s : string) : bool :=
  match s with
  | EmptyString => true
  | String c s' => p c && all_chars p s'
  end.

(** The length of the longest start of [s] made of characters of [p]. *)
Fixpoint span (p : ascii → bool) (s : string) : nat :=
  match s with
  | EmptyString => 0
  | String c s' => if p c then S (span p s') else 0
  end.

(** The ends of [s] that a greedy [[p]{lo,hi}] can leave, best first. *)
Fixpoint tails_down (p : ascii → bool) (lo : nat) (hi : option nat) (s : string)
    : list string :=
  match s, hi with
  | _, Some 0 => []
  | String c s', _ =>
      if p c then tails_down p (pred lo) (pred <$> hi) s' else []
  | EmptyString, _ => []
  end ++ match lo with 0 => [s] | S _ => [] end.

Lemma ways_rep_chr n0 p : ∀ fuel lo hi s caps,
  len s ≤ fuel →
  ways_rep (ways n0 (Chr p)) true fuel lo hi s caps
  = map (fun t => (t, caps)) (tails_down p lo hi s).
Proof.
  induction fuel as [|fuel IH]; intros lo hi s caps Hf.
  - destruct s; [|simpl in Hf; lia]. cbn [ways_rep tails_down].
    destruct hi as [[|h]|], lo; reflexivity.
  - cbn [ways_rep]. destruct s as [|c s].
    + cbn [ways tails_down flat_map]. destruct hi as [[|h]|], lo; reflexivity.
    + cbn [ways tails_down]. destruct (p c) eqn:E.
      * cbn [flat_map fst snd len]. rewrite app_nil_r.
        assert (Hlt : (len s <? S (len s)) = true) by (apply Nat.ltb_lt; lia).
        rewrite Hlt, IH by (simpl in Hf; lia).
        destruct hi as [[|h]|]; cbn [fmap option_fmap option_map];
          rewrite ?map_app; destruct lo; reflexivity.
      * cbn [flat_map]. destruct hi as [[|h]|], lo; reflexivity.
Qed.

Lemma ways_chr_rep n0 p lo hi s caps :
  ways n0 (Rep true lo hi (Chr p)) s caps
  = map (fun t => (t, caps)) (tails_down p lo hi s).
Proof. exact (ways_rep_chr n0 p (len s) lo hi s caps (le_n _)). Qed.

(** The greedy choice: the whole run. *)
Lemma tails_down_plus p lo s :
  tails_down p lo None s
  = if lo <=? span p s
    then drop_str (span p s) s :: tl (tails_down p lo None s)
    else [].
Proof.
  revert lo; induction s as [|c s IH]; intros lo.
  - cbn [tails_down span drop_str]. destruct lo; reflexivity.
  - cbn [tails_down span]. destruct (p c) eqn:E.
    + cbn [fmap option_fmap option_map]. rewrite (IH (pred lo)).
      cbn [drop_str].
      replace (lo <=? S (span p s)) with (pred lo <=? span p s)
        by (destruct lo; [reflexivity|]; cbn [pred]; reflexivity).
      destruct (pred lo <=? span p s) eqn:E'.
      * reflexivity.
      * destruct lo; [|reflexivity]. simpl in E'. discriminate.
    + destruct lo; reflexivity.
Qed.

Lemma first_accepted_total {R} (f : string → captures → R) l :
  first_accepted (fun s c => Some (f s c)) l
  = match l with [] => None | w :: _ => Some (f (fst w) (snd w)) end.
Proof. destruct l as [|w l]; reflexivity. Qed.

(** [[p]+] at a position: the whole run, when it is not empty. *)
Lemma match_here_plus p n0 s pos :
  match_here (re_plus (Chr p)) n0 s pos
  = if span p s =? 0 then None else Some (MkMatch pos (pos + span p s) []).
Proof.
  unfold match_here, re_plus. rewrite rmatch_ways, ways_chr_rep.
  rewrite first_accepted_total, tails_down_plus.
  destruct (span p s) as [|n] eqn:E; [reflexivity|].
  cbn [Nat.leb Nat.eqb map fst snd]. rewrite <- E.
  do 2 f_equal. rewrite len_drop.
  assert (span p s ≤ len s).
  { clear. induction s as [|c s IH]; simpl; [lia|]. destruct (p c); lia. }
  lia.
Qed.

Lemma span_le p s : span p s ≤ len s.
Proof. induction s as [|c s IH]; simpl; [lia|]. destruct (p c); lia. Qed.

(** ** Cleaning: [clean_text] *)

(** Each run of whitespace turned into one blank; [in_ws] tells that the
    character before was whitespace. *)
Fixpoint squeeze (in_ws : bool) (s : string) : string :=
  match s with
  | EmptyString => EmptyString
  | String c s' =>
      if isspace c
      then (if in_ws then squeeze true s' else String " " (squeeze true s'))
      else String c (squeeze false s')
  end.

Lemma drop_app_le (p : nat) (a b : string) :
  p ≤ len a → drop_str p (a +:+ b) = drop_str p a +:+ b.
Proof.
  revert a; induction p as [|p IH]; intros a Hp.
  - now destruct a, b.
  - destruct a as [|x a]; [simpl in Hp; lia|]. rewrite append_cons. cbn [drop_str].
    apply IH. simpl in Hp. lia.
Qed.

Lemma drop_len (a : string) : drop_str (len a) a = "".
Proof. induction a as [|x a IH]; [reflexivity | exact IH]. Qed.

Lemma slice_pre (pre s : string) (p : nat) :
  p ≤ len pre → slice (pre +:+ s) p (len pre) = drop_str p pre.
Proof.
  intros Hp. unfold slice. rewrite drop_app_le by exact Hp.
  rewrite <- (len_drop p pre). apply take_append.
Qed.

Lemma squeeze_span0 s : span isspace s = 0 → squeeze true s = squeeze false s.
Proof. destruct s as [|c s]; [reflexivity|]. simpl. now destruct (isspace c). Qed.

Lemma sub_pieces_ws n0 (whole : string) : ∀ s pre, whole = pre +:+ s →
  (∀ p, p ≤ len pre →
     sub_pieces (finditer_from (re_plus re_space) n0 s (len pre) 0) " " whole p
     = drop_str p pre +:+ squeeze false s) ∧
  (∀ skip, 0 < skip → span isspace s = skip →
     sub_pieces (finditer_from (re_plus re_space) n0 s (len pre) skip) " " whole
                (len pre + skip)
     = squeeze true s).
Proof.
  unfold re_space.
  induction s as [|c s IH]; intros pre Hw.
  - split.
    + intros p Hp. cbn [finditer_from]. rewrite match_here_plus. cbn [span Nat.eqb].
      cbn [sub_pieces squeeze]. rewrite Hw, !append_nil_r. reflexivity.
    + intros skip Hs Hsp. simpl in Hsp. lia.
  - assert (Hw' : whole = (pre +:+ String c "") +:+ s)
      by (now rewrite append_assoc_str).
    assert (Hlen : len (pre +:+ String c "") = S (len pre))
      by (rewrite len_append; simpl; lia).
    destruct (IH _ Hw') as [IH0 IHs]. rewrite Hlen in IH0, IHs. split.
    + intros p Hp. cbn [finditer_from]. rewrite match_here_plus.
      cbn [span squeeze]. destruct (isspace c) eqn:Ec.
      * cbn [Nat.eqb m_end m_start sub_pieces].
        replace (len pre + S (span isspace s) - len pre) with (S (span isspace s)) by lia.
        cbn [pred]. rewrite Hw at 1. rewrite slice_pre by exact Hp.
        f_equal. change (" " ++ ?x)%string with (String " " x). f_equal.
        destruct (span isspace s) as [|k] eqn:Ek.
        -- rewrite Nat.add_1_r. rewrite IH0 by lia.
           rewrite <- Hlen, drop_len, append_nil_l. symmetry. now apply squeeze_span0.
        -- replace (len pre + S (S k)) with (S (len pre) + S k) by lia.
           apply IHs; [lia | reflexivity].
      * cbn [Nat.eqb]. rewrite IH0 by lia.
        rewrite drop_app_le by exact Hp. now rewrite append_assoc_str.
    + intros skip Hs Hsp. cbn [span] in Hsp. destruct (isspace c) eqn:Ec; [|lia].
      cbn [squeeze]. rewrite Ec. destruct skip as [|skip]; [lia|].
      cbn [finditer_from]. injection Hsp as Hsp.
      destruct skip as [|skip].
      * rewrite Nat.add_1_r, IH0 by lia.
        rewrite <- Hlen, drop_len, append_nil_l. symmetry. now apply squeeze_span0.
      * replace (len pre + S (S skip)) with (S (len pre) + S skip) by lia.
        apply IHs; [lia | exact Hsp].
Qed.

(** [re.sub(r'\s+', ' ', text)] *)
Lemma re_sub_spaces text : re_sub (re_plus re_space) " " text = squeeze false text.
Proof.
  unfold re_sub, re_finditer.
  destruct (sub_pieces_ws (len text) text text "" eq_refl) as [H0 _].
  exact (H0 0 (le_n _)).
Qed.

Lemma all_chars_impl (p q : ascii → bool) s :
  (∀ c, p c = true → q c = true) → all_chars p s = true → all_chars q s = true.
Proof.
  intros Hpq. induction s as [|c s IH]; simpl; [reflexivity|].
  intros [Hc Hs]%andb_true_iff. now rewrite (Hpq c Hc), IH.
Qed.

Lemma all_chars_app p (a b : string) :
  all_chars p (a +:+ b) = all_chars p a && all_chars p b.
Proof.
  induction a as [|x a IH]; [reflexivity|]. rewrite append_cons. simpl.
  now rewrite IH, andb_assoc.
Qed.

(** A character that [p] rejects is not whitespace, or it is a blank. *)
Definition blank_or_not_space (c : ascii) : bool :=
  negb (isspace c) || Ascii.eqb c " ".

Lemma squeeze_blanks b s : all_chars blank_or_not_space (squeeze b s) = true.
Proof.
  revert b; induction s as [|c s IH]; intros b; simpl; [reflexivity|].
  destruct (isspace c) eqn:E.
  - destruct b; [apply IH|]. simpl. apply IH.
  - simpl. unfold blank_or_not_space at 1. rewrite E. simpl. apply IH.
Qed.

Lemma remove_char_id old s :
  all_chars (fun c => negb (Ascii.eqb c old)) s = true → remove_char old s = s.
Proof.
  induction s as [|c s IH]; simpl; [reflexivity|].
  intros [Hc Hs]%andb_true_iff. apply negb_true_iff in Hc. rewrite Hc.
  now rewrite IH.
Qed.

Lemma rstrip_cons p c s :
  rstrip_with p (String c s)
  = match rstrip_with p s with
    | EmptyString => if p c then EmptyString else String c EmptyString
    | r => String c r
    end.
Proof. reflexivity. Qed.

Lemma rstrip_app p (a b : string) :
  rstrip_with p (a +:+ b)
  = match rstrip_with p b with
    | EmptyString => rstrip_with p a
    | r => a +:+ r
    end.
Proof.
  induction a as [|x a IH].
  - rewrite append_nil_l. now destruct (rstrip_with p b).
  - rewrite append_cons, !rstrip_cons, IH.
    destruct (rstrip_with p b) as [|y r]; [reflexivity|].
    rewrite append_cons. now destruct (a +:+ String y r) eqn:E; [destruct a; discriminate|].
Qed.

Lemma no_space_app (a b : string) :
  no_space (a +:+ b) = no_space a && no_space b.
Proof.
  induction a as [|x a IH]; [reflexivity|]. rewrite append_cons. simpl.
  now rewrite IH, andb_assoc.
Qed.

Lemma rstrip_no_space w : no_space w = true → rstrip_with isspace w = w.
Proof.
  induction w as [|c w IH]; [reflexivity|]. simpl no_space.
  intros [Hc Hw]%andb_true_iff. apply negb_true_iff in Hc.
  rewrite rstrip_cons, IH by exact Hw. rewrite Hc. now destruct w.
Qed.

Lemma lstrip_squeeze s : lstrip_with isspace (squeeze true s) = squeeze true s.
Proof.
  induction s as [|c s IH]; [reflexivity|]. simpl.
  destruct (isspace c) eqn:E; [exact IH|]. simpl. now rewrite E.
Qed.

Lemma lstrip_squeeze_false s : lstrip_with isspace (squeeze false s) = squeeze true s.
Proof.
  destruct s as [|c s]; [reflexivity|]. simpl.
  destruct (isspace c) eqn:E.
  - simpl. apply lstrip_squeeze.
  - simpl. now rewrite E.
Qed.

Lemma join_cons sep w ws :
  join sep (w :: ws) = match ws with [] => w | _ => w +:+ sep +:+ join sep ws end.
Proof. reflexivity. Qed.

Lemma join_empty sep ws :
  (∀ t, In t ws → t ≠ "") → join sep ws = "" → ws = [].
Proof.
  destruct ws as [|w ws]; [reflexivity|]. intros Hne. rewrite join_cons.
  assert (w ≠ "") by (apply Hne; now left).
  destruct ws; [congruence|]. destruct w; [congruence|discriminate].
Qed.

Lemma split_go_not_empty cur s t : In t (split_go cur s) → t ≠ "".
Proof. intros Hin. apply split_go_spec in Hin. now destruct Hin as [[H _]|[H _]]. Qed.

Lemma join_split_go : ∀ s cur,
  no_space (String.rev cur) = true →
  join " " (split_go cur s)
  = rstrip_with isspace (String.rev cur +:+ squeeze (String.eqb cur "") s).
Proof.
  induction s as [|c s IH]; intros cur Hcur.
  - cbn [split_go squeeze]. rewrite append_nil_r, rstrip_no_space by exact Hcur.
    destruct (String.eqb cur "") eqn:E; [|reflexivity].
    apply String.eqb_eq in E. now subst cur.
  - cbn [split_go squeeze]. destruct (isspace c) eqn:Ec.
    + pose proof (IH "" eq_refl) as IH0.
      change (String.rev "") with "" in IH0. rewrite append_nil_l in IH0.
      change (String.eqb "" "") with true in IH0.
      destruct (String.eqb cur "") eqn:E.
      * apply String.eqb_eq in E. subst cur. cbn [app].
        change (String.rev "") with "". now rewrite append_nil_l.
      * cbn [app]. rewrite join_cons, rstrip_app, rstrip_cons, <- IH0.
        change (isspace " ") with true. cbv iota.
        destruct (join " " (split_go "" s)) as [|x r] eqn:Ej.
        -- apply join_empty in Ej; [|intros t; apply split_go_not_empty].
           rewrite Ej. now rewrite rstrip_no_space.
        -- destruct (split_go "" s); [discriminate|]. reflexivity.
    + rewrite IH.
      * change (String.eqb (String c cur) "") with false.
        now rewrite rev_cons_append.
      * rewrite <- (append_nil_r (String.rev (String c cur))), rev_cons_append.
        rewrite no_space_app, Hcur. simpl. now rewrite Ec.
Qed.

Lemma remove_form_feed text :
  remove_char "012" (re_sub (re_plus re_space) " " text)
  = re_sub (re_plus re_space) " " text.
Proof.
  rewrite re_sub_spaces. apply remove_char_id.
  eapply all_chars_impl; [|apply squeeze_blanks].
  intros c. unfold blank_or_not_space.
  destruct (Ascii.eqb c "012") eqn:E; [|reflexivity].
  apply Ascii.eqb_eq in E. subst c. vm_compute. discriminate.
Qed.

Lemma clean_text_words text : clean_text text = join " " (split text).
Proof.
  unfold clean_text. rewrite remove_form_feed, re_sub_spaces.
  unfold strip, strip_with. rewrite lstrip_squeeze_false.
  unfold split. rewrite join_split_go by reflexivity.
  change (String.rev "") with "". now rewrite append_nil_l.
Qed.

Lemma split_go_word w : ∀ cur s,
  no_space w = true → split_go cur (w +:+ s) = split_go (String.rev_app w cur) s.
Proof.
  induction w as [|c w IH]; intros cur s Hw; [reflexivity|].
  simpl in Hw. apply andb_true_iff in Hw as [Hc Hw]. apply negb_true_iff in Hc.
  rewrite append_cons. cbn [split_go]. rewrite Hc. now apply IH.
Qed.

Lemma rev_rev_app w cur : String.rev (String.rev_app w cur) = String.rev cur +:+ w.
Proof.
  revert cur; induction w as [|c w IH]; intros cur; simpl.
  - now rewrite append_nil_r.
  - now rewrite IH, rev_cons_append.
Qed.

(** A word: not empty and without whitespace. *)
Definition word (t : string) : Prop := t ≠ "" ∧ no_space t = true.

Lemma split_one w : word w → split w = [w].
Proof.
  intros [Hne Hw]. unfold split.
  rewrite <- (append_nil_r w), split_go_word by exact Hw. cbn [split_go].
  destruct (String.eqb (String.rev_app w "") "") eqn:E.
  - apply String.eqb_eq in E. apply (f_equal String.rev) in E.
    rewrite rev_rev_app in E. now destruct w.
  - rewrite rev_rev_app, ?append_nil_r. reflexivity.
Qed.

Lemma split_word_blank w s : word w → split (w +:+ String " " s) = w :: split s.
Proof.
  intros [Hne Hw]. unfold split. rewrite split_go_word by exact Hw.
  cbn [split_go]. change (isspace " ") with true. cbv iota.
  destruct (String.eqb (String.rev_app w "") "") eqn:E.
  - apply String.eqb_eq in E. apply (f_equal String.rev) in E.
    rewrite rev_rev_app in E. now destruct w.
  - rewrite rev_rev_app, ?append_nil_r. reflexivity.
Qed.

(** Splitting what [join] made of words gives the words back. *)
Lemma split_join ws : (∀ t, In t ws → word t) → split (join " " ws) = ws.
Proof.
  induction ws as [|w ws IH]; intros Hws; [reflexivity|].
  assert (Hw : word w) by (apply Hws; now left).
  rewrite join_cons. destruct ws as [|w' ws].
  - now apply split_one.
  - change (w +:+ " " +:+ ?x) with (w +:+ String " " x).
    rewrite split_word_blank by exact Hw. f_equal.
    apply IH. intros t Ht. apply Hws. now right.
Qed.

Lemma split_word s t : In t (split s) → word t.
Proof. intros Hin. apply split_words in Hin. now destruct Hin as (Hne & Hw & _). Qed.

Lemma lstrip_cons_id p c s : p c = false → lstrip_with p (String c s) = String c s.
Proof. intros Hc. simpl. now rewrite Hc. Qed.

Lemma rstrip_idem p s : rstrip_with p (rstrip_with p s) = rstrip_with p s.
Proof.
  induction s as [|c s IH]; [reflexivity|]. rewrite rstrip_cons.
  destruct (rstrip_with p s) as [|y r] eqn:E.
  - destruct (p c) eqn:Ec; [reflexivity|]. simpl. now rewrite Ec.
  - rewrite rstrip_cons, IH. reflexivity.
Qed.

Lemma lstrip_head p s :
  match lstrip_with p s with
  | EmptyString => True
  | String c _ => p c = false
  end.
Proof.
  induction s as [|c s IH]; simpl; [exact I|].
  destruct (p c) eqn:E; [exact IH|exact E].
Qed.

Lemma strip_idem p s : strip_with p (strip_with p s) = strip_with p s.
Proof.
  unfold strip_with. pose proof (lstrip_head p s) as Hh.
  destruct (lstrip_with p s) as [|c l]; [reflexivity|].
  rewrite rstrip_cons. destruct (rstrip_with p l) as [|y r] eqn:E.
  - rewrite Hh. cbn [lstrip_with]. rewrite Hh. cbn [rstrip_with]. now rewrite Hh.
  - rewrite lstrip_cons_id by exact Hh. rewrite rstrip_cons.
    rewrite <- E, rstrip_idem, E. reflexivity.
Qed.

Lemma all_chars_lstrip p q s :
  all_chars p s = true → all_chars p (lstrip_with q s) = true.
Proof.
  induction s as [|c s IH]; simpl; [reflexivity|].
  intros Hs. destruct (q c); [|exact Hs].
  apply andb_true_iff in Hs as [_ Hs]. now apply IH.
Qed.

Lemma all_chars_rstrip p q s :
  all_chars p s = true → all_chars p (rstrip_with q s) = true.
Proof.
  induction s as [|c s IH]; [reflexivity|]. rewrite rstrip_cons. simpl.
  intros [Hc Hs]%andb_true_iff. specialize (IH Hs).
  destruct (rstrip_with q s) as [|y r].
  - destruct (q c); simpl; [reflexivity | now rewrite Hc].
  - simpl in *. now rewrite Hc.
Qed.

Lemma all_chars_strip p q s :
  all_chars p s = true → all_chars p (strip_with q s) = true.
Proof. intros Hs. now apply all_chars_rstrip, all_chars_lstrip. Qed.

Lemma all_chars_take p n s :
  all_chars p s = true → all_chars p (take_str n s) = true.
Proof.
  revert s; induction n as [|n IH]; intros [|c s]; simpl; try reflexivity.
  intros [Hc Hs]%andb_true_iff. now rewrite Hc, IH.
Qed.

Lemma all_chars_drop p n s :
  all_chars p s = true → all_chars p (drop_str n s) = true.
Proof.
  revert s; induction n as [|n IH]; intros [|c s]; simpl; try reflexivity; auto.
  intros [Hc Hs]%andb_true_iff. now apply IH.
Qed.

Lemma all_chars_join p ws :
  (∀ t, In t ws → all_chars p t = true) → p " "%char = true →
  all_chars p (join " " ws) = true.
Proof.
  intros Hws Hb. induction ws as [|w ws IH]; [reflexivity|].
  rewrite join_cons. destruct ws as [|w' ws].
  - apply Hws. now left.
  - rewrite !all_chars_app. rewrite (Hws w) by now left.
    rewrite IH by (intros t Ht; apply Hws; now right).
    simpl. now rewrite Hb.
Qed.

Lemma clean_text_blanks text :
  all_chars blank_or_not_space (clean_text text) = true.
Proof.
  unfold clean_text. rewrite remove_form_feed, re_sub_spaces.
  apply all_chars_strip, squeeze_blanks.
Qed.

(** X1.  Cleaning a text is splitting it into its words and joining them
    with single blanks; the cleaned text has the same words. *)
Theorem clean_text_join_split (text : string) :
  clean_text text = join " " (split text) ∧
  split (clean_text text) = split text.
Proof.
  split; [apply clean_text_words|].
  rewrite clean_text_words. apply split_join. intros t. apply split_word.
Qed.

(** X2.  Cleaning a cleaned text changes nothing.  A cleaned text has no
    whitespace at its ends, every whitespace character in it is a blank,
    and the removal of form feeds, which comes after the runs of whitespace
    have been replaced, never changes the text. *)
Theorem clean_text_idempotent (text : string) :
  clean_text (clean_text text) = clean_text text ∧
  strip (clean_text text) = clean_text text ∧
  all_chars blank_or_not_space (clean_text text) = true ∧
  remove_char "012" (re_sub (re_plus re_space) " " text)
  = re_sub (re_plus re_space) " " text.
Proof.
  split; [|split; [|split]].
  - rewrite !clean_text_words. rewrite split_join; [reflexivity|].
    intros t. apply split_word.
  - unfold clean_text. apply strip_idem.
  - apply clean_text_blanks.
  - apply remove_form_feed.
Qed.

(** ** A text of one line *)

Definition not_linebreak (c : ascii) : bool := negb (islinebreak c).

Lemma blank_not_linebreak c : blank_or_not_space c = true → not_linebreak c = true.
Proof. destruct c as [[] [] [] [] [] [] [] []]; vm_compute; congruence. Qed.

Lemma splitlines_go_one s : ∀ cur,
  all_chars not_linebreak s = true →
  splitlines_go cur s
  = if String.eqb (String.rev_app s cur) "" then []
    else [String.rev (String.rev_app s cur)].
Proof.
  induction s as [|c s IH]; intros cur Hs; [reflexivity|].
  simpl in Hs. apply andb_true_iff in Hs as [Hc Hs].
  cbn [splitlines_go String.rev_app].
  assert (Hcr : Ascii.eqb c "013" = false).
  { destruct (Ascii.eqb c "013") eqn:E; [|reflexivity].
    apply Ascii.eqb_eq in E. subst c. vm_compute in Hc. discriminate. }
  rewrite Hcr. unfold not_linebreak in Hc. apply negb_true_iff in Hc.
  rewrite Hc. now apply IH.
Qed.

(** [splitlines] of a text without line boundaries. *)
Lemma splitlines_one s :
  all_chars not_linebreak s = true →
  splitlines s = if String.eqb s "" then [] else [s].
Proof.
  intros Hs. unfold splitlines. rewrite splitlines_go_one by exact Hs.
  assert (Hr : String.rev (String.rev_app s "") = s)
    by (rewrite rev_rev_app; reflexivity).
  destruct (String.eqb (String.rev_app s "") "") eqn:E.
  - apply String.eqb_eq in E. rewrite E in Hr. subst s. reflexivity.
  - rewrite Hr. destruct (String.eqb s "") eqn:E'; [|reflexivity].
    apply String.eqb_eq in E'. subst s. discriminate.
Qed.

Lemma extract_by_keywords_chars p text keyword :
  all_chars p text = true → all_chars p (extract_by_keywords text keyword) = true.
Proof.
  intros Ht. unfold extract_by_keywords.
  destruct (re_search (keyword_re keyword) text); [|reflexivity].
  apply all_chars_strip. unfold slice. now apply all_chars_take, all_chars_drop.
Qed.

Lemma extract_by_keywords_stripped text keyword :
  strip (extract_by_keywords text keyword) = extract_by_keywords text keyword.
Proof.
  unfold extract_by_keywords.
  destruct (re_search (keyword_re keyword) text); [|reflexivity].
  apply strip_idem.
Qed.

(** The entries of a text of one line that has no whitespace at its ends. *)
Lemma extract_experience_one_line now text :
  all_chars not_linebreak text = true → strip text = text →
  extract_experience now text
  = Ok (omap (entry_of now text) (re_finditer date_pattern text)).
Proof.
  intros Hl Hs. rewrite extract_experience_entries, splitlines_one by exact Hl.
  destruct (String.eqb text "") eqn:E.
  - apply String.eqb_eq in E. subst text. reflexivity.
  - cbn [flat_map]. unfold line_entries. rewrite Hs. now rewrite app_nil_r.
Qed.

(** X3.  On a cleaned text the experience section is a single line: all the
    date ranges of the section are matches in that one line, and the
    extraction never fails. *)
Theorem experience_of_cleaned_text (now : datetime) (text : string) :
  ∃ data,
    extract_structured_fields now (clean_text text) = Ok data ∧
    splitlines (experience data)
    = (if String.eqb (experience data) "" then [] else [experience data]) ∧
    experience_details data
    = omap (entry_of now (experience data))
           (re_finditer date_pattern (experience data)).
Proof.
  unfold extract_structured_fields.
  set (e := extract_by_keywords (clean_text text) "Experience").
  assert (Hl : all_chars not_linebreak e = true).
  { apply extract_by_keywords_chars.
    eapply all_chars_impl; [apply blank_not_linebreak|].
    apply clean_text_blanks. }
  rewrite (extract_experience_one_line now e Hl)
    by apply extract_by_keywords_stripped.
  cbn [bind]. eexists. split; [reflexivity|]. cbn [experience experience_details].
  split; [now apply splitlines_one | reflexivity].
Qed.

(** ** Parts of a text *)

(** [a] is a part of [s]: a run of consecutive characters of it. *)
Definition sub (a s : string) : Prop := ∃ p q, s = p +:+ a +:+ q.

Lemma sub_refl s : sub s s.
Proof. exists "", "". now rewrite append_nil_l, append_nil_r. Qed.

Lemma sub_trans a b c : sub a b → sub b c → sub a c.
Proof.
  intros (p & q & ->) (p' & q' & ->). exists (p' +:+ p), (q +:+ q').
  now rewrite !append_assoc_str.
Qed.

Lemma sub_app_l a p s : sub a s → sub a (p +:+ s).
Proof.
  intros (p' & q & ->). exists (p +:+ p'), q. now rewrite !append_assoc_str.
Qed.

Lemma sub_app_r a s q : sub a s → sub a (s +:+ q).
Proof.
  intros (p & q' & ->). exists p, (q' +:+ q). now rewrite !append_assoc_str.
Qed.

Lemma sub_take n s : sub (take_str n s) s.
Proof.
  exists "", (drop_str n s). now rewrite append_nil_l, take_drop.
Qed.

Lemma sub_drop n s : sub (drop_str n s) s.
Proof.
  exists (take_str n s), "". now rewrite append_nil_r, take_drop.
Qed.

Lemma sub_slice s a b : sub (slice s a b) s.
Proof. unfold slice. eapply sub_trans; [apply sub_take | apply sub_drop]. Qed.

Lemma sub_lstrip p s : sub (lstrip_with p s) s.
Proof.
  induction s as [|c s IH]; simpl; [apply sub_refl|].
  destruct (p c); [|apply sub_refl].
  now apply (sub_app_l _ (String c "")).
Qed.

Lemma rstrip_prefix p s : ∃ q, s = rstrip_with p s +:+ q.
Proof.
  induction s as [|c s IH]; [now exists ""|]. rewrite rstrip_cons.
  destruct IH as (q & Hq). destruct (rstrip_with p s) as [|y r].
  - destruct (p c); [now exists (String c s) | now exists s].
  - exists q. now rewrite append_cons, <- Hq.
Qed.

Lemma sub_rstrip p s : sub (rstrip_with p s) s.
Proof. destruct (rstrip_prefix p s) as (q & Hq). now exists "", q. Qed.

Lemma sub_strip_with p s : sub (strip_with p s) s.
Proof. eapply sub_trans; [apply sub_rstrip | apply sub_lstrip]. Qed.

Lemma all_chars_sub p a s : sub a s → all_chars p s = true → all_chars p a = true.
Proof.
  intros (x & y & ->). rewrite !all_chars_app.
  intros [_ [H _]%andb_true_iff]%andb_true_iff. exact H.
Qed.

(** ** The groups of a match *)

(** The named groups of a pattern, with their patterns. *)
Fixpoint groups_of (r : regex) : list (string * regex) :=
  match r with
  | Cat r1 r2 | Alt r1 r2 => groups_of r1 ++ groups_of r2
  | Rep _ _ _ r1 => groups_of r1
  | Grp name r1 => (name, r1) :: groups_of r1
  | Eps | Chr _ | Bol => []
  end.

(** The value [nv.2] recorded for the group [nv.1] is a part of [s] that
    the pattern of a group of that name in [r] matches. *)
Definition from_group (n0 : nat) (r : regex) (s : string) (nv : string * string)
    : Prop :=
  ∃ r1 p rest, In (nv.1, r1) (groups_of r) ∧ s = p +:+ nv.2 +:+ rest ∧
               den n0 r1 (nv.2 +:+ rest) rest.

Lemma from_group_incl n0 r r' s nv :
  incl (groups_of r) (groups_of r') → from_group n0 r s nv → from_group n0 r' s nv.
Proof. intros Hi (r1 & p & rest & Hin & Hs & Hd). exists r1, p, rest. auto. Qed.

Lemma from_group_suffix n0 r pre s nv :
  from_group n0 r s nv → from_group n0 r (pre +:+ s) nv.
Proof.
  intros (r1 & p & rest & Hin & -> & Hd). exists r1, (pre +:+ p), rest.
  now rewrite !append_assoc_str.
Qed.

Lemma ways_rep_caps wstep (Q : string → string * string → Prop) greedy :
  (∀ s caps s1 c1, In (s1, c1) (wstep s caps) →
     (∃ pre, s = pre +:+ s1) ∧ ∃ new, c1 = new ++ caps ∧ Forall (Q s) new) →
  (∀ pre s nv, Q s nv → Q (pre +:+ s) nv) →
  ∀ fuel lo hi s caps s' c',
    In (s', c') (ways_rep wstep greedy fuel lo hi s caps) →
    ∃ new, c' = new ++ caps ∧ Forall (Q s) new.
Proof.
  intros Hstep Hmono. induction fuel as [|fuel IH]; intros lo hi s caps s' c' Hin.
  - cbn [ways_rep] in Hin.
    assert (Hstop : In (s', c') (match lo with 0 => [(s, caps)] | S _ => [] end)).
    { destruct greedy; rewrite ?app_nil_r in Hin; exact Hin. }
    destruct lo; [|destruct Hstop]. destruct Hstop as [[= <- <-]|[]].
    exists []. auto.
  - cbn [ways_rep] in Hin.
    assert (Hcase :
      In (s', c') (match lo with 0 => [(s, caps)] | S _ => [] end) ∨
      In (s', c')
         (flat_map
            (fun w => if len (fst w) <? len s
                      then ways_rep wstep greedy fuel (pred lo) (pred <$> hi) (fst w) (snd w)
                      else []) (wstep s caps))).
    { destruct greedy; apply in_app_or in Hin; destruct Hin as [Hin|Hin]; auto;
        destruct hi as [[|h]|]; try (destruct Hin; fail); right; exact Hin. }
    destruct Hcase as [Hstop|Hmore].
    + destruct lo; [|destruct Hstop]. destruct Hstop as [[= <- <-]|[]].
      exists []. auto.
    + apply in_flat_map in Hmore. destruct Hmore as ([s1 c1] & Hw & Hin').
      cbn [fst snd] in Hin'. destruct (len s1 <? len s); [|destruct Hin'].
      destruct (Hstep _ _ _ _ Hw) as [(pre & ->) (new1 & -> & Hn1)].
      destruct (IH _ _ _ _ _ _ Hin') as (new2 & -> & Hn2).
      exists (new2 ++ new1). split; [now rewrite app_assoc|].
      apply Forall_app. split; [|exact Hn1].
      eapply Forall_impl; [exact Hn2|]. intros nv. apply Hmono.
Qed.

(** Every group that a match records comes from a group of the pattern. *)
Lemma ways_caps n0 r : ∀ s caps s' c',
  In (s', c') (ways n0 r s caps) →
  ∃ new, c' = new ++ caps ∧ Forall (from_group n0 r s) new.
Proof.
  induction r as [|p|r1 IH1 r2 IH2|r1 IH1 r2 IH2|g lo hi r1 IH|name r1 IH|];
    intros s caps s' c' Hin.
  - destruct Hin as [[= <- <-]|[]]. exists []. auto.
  - cbn [ways] in Hin. destruct s as [|c s]; [destruct Hin|].
    destruct (p c); [|destruct Hin]. destruct Hin as [[= <- <-]|[]]. exists []. auto.
  - cbn [ways] in Hin. apply in_flat_map in Hin.
    destruct Hin as ([s1 c1] & H1 & H2). cbn [fst snd] in H2.
    destruct (den_suffix _ _ _ _ (ways_den _ _ _ _ _ _ H1)) as (pre & ->).
    destruct (IH1 _ _ _ _ H1) as (new1 & -> & Hn1).
    destruct (IH2 _ _ _ _ H2) as (new2 & -> & Hn2).
    exists (new2 ++ new1). split; [now rewrite app_assoc|].
    apply Forall_app. split.
    + eapply Forall_impl; [exact Hn2|]. intros nv Hnv.
      apply from_group_suffix.
      eapply from_group_incl; [|exact Hnv]. cbn [groups_of]. now apply incl_appr.
    + eapply Forall_impl; [exact Hn1|]. intros nv.
      apply from_group_incl. cbn [groups_of]. now apply incl_appl.
  - cbn [ways] in Hin. apply in_app_or in Hin. destruct Hin as [Hin|Hin].
    + destruct (IH1 _ _ _ _ Hin) as (new & -> & Hn). exists new. split; [reflexivity|].
      eapply Forall_impl; [exact Hn|]. intros nv.
      apply from_group_incl. cbn [groups_of]. now apply incl_appl.
    + destruct (IH2 _ _ _ _ Hin) as (new & -> & Hn). exists new. split; [reflexivity|].
      eapply Forall_impl; [exact Hn|]. intros nv.
      apply from_group_incl. cbn [groups_of]. now apply incl_appr.
  - cbn [ways] in Hin.
    apply (ways_rep_caps (ways n0 r1) (from_group n0 r1)) in Hin.
    + exact Hin.
    + intros s0 caps0 s1 c1 Hw. split; [|eapply IH; exact Hw].
      apply (den_suffix n0 r1). eapply ways_den, Hw.
    + intros pre s0 nv. apply from_group_suffix.
  - cbn [ways] in Hin. apply in_map_iff in Hin.
    destruct Hin as ([s1 c1] & [= <- <-] & Hin). cbn [fst snd].
    pose proof (ways_den _ _ _ _ _ _ Hin) as Hd.
    destruct (den_suffix _ _ _ _ Hd) as (pre & ->).
    destruct (IH _ _ _ _ Hin) as (new & -> & Hn).
    exists ((name, take_str (len (pre +:+ s1) - len s1) (pre +:+ s1)) :: new).
    split; [reflexivity|]. constructor.
    + exists r1, "", s1. cbn [fst snd groups_of]. rewrite len_append.
      replace (len pre + len s1 - len s1) with (len pre) by lia.
      rewrite take_append, append_nil_l. split; [now left|]. split; [reflexivity|exact Hd].
    + eapply Forall_impl; [exact Hn|]. intros nv.
      apply from_group_incl. cbn [groups_of]. now apply incl_tl.
  - cbn [ways] in Hin. destruct (len s =? n0); [|destruct Hin].
    destruct Hin as [[= <- <-]|[]]. exists []. auto.
Qed.

Lemma group_in name caps v : group name caps = Some v → In (name, v) caps.
Proof.
  induction caps as [|[n w] caps IH]; simpl; [discriminate|].
  destruct (String.eqb n name) eqn:E.
  - apply String.eqb_eq in E. subst n. intros [= <-]. now left.
  - intros Hg. right. auto.
Qed.

Lemma match_here_groups r n0 s pos m name v :
  match_here r n0 s pos = Some m → group name (m_groups m) = Some v →
  from_group n0 r s (name, v).
Proof.
  unfold match_here. rewrite rmatch_ways. intros Hm Hg.
  apply first_accepted_some in Hm. destruct Hm as (s1 & c1 & Hin & [= <-]).
  cbn [m_groups] in Hg. apply ways_caps in Hin.
  destruct Hin as (new & -> & Hn). rewrite app_nil_r in Hg.
  apply group_in in Hg. rewrite Forall_forall in Hn.
  now apply Hn, list_elem_of_In.
Qed.

Lemma finditer_from_suffix r n0 : ∀ s pos skip m,
  In m (finditer_from r n0 s pos skip) →
  ∃ i, match_here r n0 (drop_str i s) (pos + i) = Some m.
Proof.
  induction s as [|c s IH]; intros pos skip m Hm.
  - destruct skip; simpl in Hm; [|destruct Hm].
    destruct (match_here r n0 "" pos) eqn:E; [|destruct Hm].
    destruct Hm as [<-|[]]. exists 0. now rewrite Nat.add_0_r.
  - assert (Hrec : ∀ skip', In m (finditer_from r n0 s (S pos) skip') →
                     ∃ i, match_here r n0 (drop_str i (String c s)) (pos + i) = Some m).
    { intros skip' Hin. destruct (IH _ _ _ Hin) as (i & Hi).
      exists (S i). rewrite drop_S. now replace (pos + S i) with (S pos + i) by lia. }
    destruct skip; simpl in Hm; [|eauto].
    destruct (match_here r n0 (String c s) pos) eqn:E; [|eauto].
    destruct Hm as [<-|Hm]; [|eauto].
    exists 0. now rewrite Nat.add_0_r.
Qed.

(** The groups of the matches of [finditer] are parts of the text. *)
Lemma finditer_groups r s m name v :
  In m (re_finditer r s) → group name (m_groups m) = Some v →
  from_group (len s) r s (name, v).
Proof.
  intros Hm Hg. apply finditer_from_suffix in Hm. destruct Hm as (i & Hm).
  apply (match_here_groups _ _ _ _ _ _ _ Hm) in Hg.
  rewrite <- (take_drop i s) at 2. now apply from_group_suffix.
Qed.

Lemma from_group_sub n0 r s name v : from_group n0 r s (name, v) → sub v s.
Proof. intros (r1 & p & rest & _ & -> & _). now exists p, rest. Qed.

(** ** Years of four digits *)

(** The text has four decimal digits in a row. *)
Fixpoint has4 (s : string) : bool :=
  match s with
  | EmptyString => false
  | String _ s' => (4 <=? span isdigit s) || has4 s'
  end.

Lemma span_app_ge p (a b : string) : span p a ≤ span p (a +:+ b).
Proof.
  induction a as [|x a IH]; [simpl; lia|]. rewrite append_cons. simpl.
  destruct (p x); lia.
Qed.

Lemma has4_app_r a q : has4 a = true → has4 (a +:+ q) = true.
Proof.
  induction a as [|x a IH]; [discriminate|]. rewrite append_cons.
  cbn [has4]. intros [H|H]%orb_true_iff; apply orb_true_iff.
  - left. apply Nat.leb_le in H. apply Nat.leb_le.
    pose proof (span_app_ge isdigit (String x a) q) as Hs.
    rewrite append_cons in Hs. lia.
  - right. auto.
Qed.

Lemma has4_app_l p s : has4 s = true → has4 (p +:+ s) = true.
Proof.
  intros Hs. induction p as [|x p IH]; [exact Hs|]. rewrite append_cons.
  cbn [has4]. rewrite IH. apply orb_true_r.
Qed.

Lemma has4_sub a s : sub a s → has4 a = true → has4 s = true.
Proof. intros (p & q & ->) Ha. now apply has4_app_l, has4_app_r. Qed.

Lemma span_all p u rest : all_chars p u = true → len u ≤ span p (u +:+ rest).
Proof.
  induction u as [|x u IH]; [simpl; lia|]. rewrite append_cons. simpl.
  intros [Hx Hu]%andb_true_iff. rewrite Hx. specialize (IH Hu). lia.
Qed.

Lemma has4_digits u rest :
  all_chars isdigit u = true → 4 ≤ len u → has4 (u +:+ rest) = true.
Proof.
  intros Hu Hl. pose proof (span_all isdigit u rest Hu) as Hs.
  destruct u as [|x u]; [simpl in Hl; lia|]. rewrite append_cons in *.
  cbn [has4]. apply orb_true_iff. left. apply Nat.leb_le. lia.
Qed.

(** What a repetition of a character class matches. *)
Lemma iter_chr n0 p lo hi s s' :
  iter (den n0 (Chr p)) lo hi s s' →
  ∃ u, s = u +:+ s' ∧ all_chars p u = true ∧ lo ≤ len u ∧
       ∀ h, hi = Some h → len u ≤ h.
Proof.
  intros Hit. induction Hit as [hi s|lo hi s s1 s2 Hhi H1 Hlt Hit IH].
  - exists "". repeat split; auto. intros h _. simpl. lia.
  - destruct H1 as (c & -> & Hc). destruct IH as (u & -> & Hu & Hlo & Hhi').
    exists (String c u). rewrite append_cons. simpl. rewrite Hc, Hu.
    split; [reflexivity|]. split; [reflexivity|]. split; [lia|].
    intros h ->. destruct h as [|h]; [congruence|].
    specialize (Hhi' h eq_refl). lia.
Qed.

Lemma chr_iter n0 p lo hi u s' :
  all_chars p u = true → lo ≤ len u → (∀ h, hi = Some h → len u ≤ h) →
  iter (den n0 (Chr p)) lo hi (u +:+ s') s'.
Proof.
  revert lo hi; induction u as [|c u IH]; intros lo hi Hu Hlo Hhi.
  - simpl in Hlo. replace lo with 0 by lia. constructor.
  - simpl in Hu. apply andb_true_iff in Hu as [Hc Hu]. rewrite append_cons.
    apply (iter_more _ _ _ _ (u +:+ s')).
    + intros ->. specialize (Hhi 0 eq_refl). simpl in Hhi. lia.
    + exists c. auto.
    + simpl. lia.
    + apply IH; [exact Hu | simpl in Hlo; lia |].
      intros h Hh. destruct hi as [h'|]; [|discriminate]. simpl in Hh.
      injection Hh as <-. specialize (Hhi h' eq_refl). simpl in Hhi. lia.
Qed.

Lemma append_inj_r (a b c : string) : a +:+ c = b +:+ c → a = b.
Proof.
  revert b; induction a as [|x a IH]; intros b E.
  - destruct b as [|y b]; [reflexivity|].
    apply (f_equal len) in E. rewrite !len_append in E. simpl in E. lia.
  - destruct b as [|y b].
    + apply (f_equal len) in E. rewrite !len_append in E. simpl in E. lia.
    + rewrite !append_cons in E. injection E as -> E. f_equal. auto.
Qed.

(** The patterns of the dates of a range: the text matched starts with a
    digit, or has a year of four digits. *)
Lemma den_dmy n0 v s' :
  den n0 re_dmy (v +:+ s') s' → ∃ c t, v = String c t ∧ isdigit c = true.
Proof.
  unfold re_dmy, re_times, re_digit. cbn [cats den]. intros (s1 & Hit & Hrest).
  assert (Hsuf : ∃ pre, s1 = pre +:+ s').
  { destruct Hrest as (s2 & (c2 & -> & _) & s3 & H3 & s4 & (c4 & -> & _) & H5).
    apply (iter_chr n0) in H3, H5. destruct H3 as (u3 & -> & _), H5 as (u5 & -> & _).
    exists (String c2 (u3 +:+ String c4 u5)).
    now rewrite !append_cons, !append_assoc_str, !append_cons. }
  destruct Hsuf as (pre & ->).
  apply (iter_chr n0) in Hit. destruct Hit as (u & Hv & Hu & Hlo & _).
  rewrite <- append_assoc_str in Hv. apply append_inj_r in Hv. subst v.
  destruct u as [|c u]; [simpl in Hlo; lia|].
  simpl in Hu. apply andb_true_iff in Hu as [Hc _].
  exists c, (u +:+ pre). now rewrite append_cons.
Qed.

Lemma den_year_end n0 r v s' :
  den n0 (Cat r (re_times 4 4 re_digit)) (v +:+ s') s' → has4 v = true.
Proof.
  unfold re_times, re_digit. cbn [den]. intros (s1 & H1 & Hit).
  apply den_suffix in H1. destruct H1 as (p & Hv).
  apply (iter_chr n0) in Hit. destruct Hit as (u & -> & Hu & Hlo & _).
  rewrite <- append_assoc_str in Hv. apply append_inj_r in Hv. subst v.
  apply has4_app_l. rewrite <- (append_nil_r u). now apply has4_digits.
Qed.

Lemma den_month_year n0 v s' :
  den n0 re_month_year (v +:+ s') s' → has4 v = true.
Proof.
  unfold re_month_year. cbn [cats]. intros Hd.
  apply (den_year_end n0 (Cat (Rep true 3 None re_alpha)
                            (Cat (re_opt (lit true ".")) (re_opt (lit true " ")))) v s').
  cbn [den] in *. destruct Hd as (s1 & H1 & s2 & H2 & s3 & H3 & H4).
  exists s3. split; [|exact H4]. exists s1. split; [exact H1|]. now exists s2.
Qed.

Lemma den_ym n0 v s' : den n0 re_ym (v +:+ s') s' → has4 v = true.
Proof.
  unfold re_ym, re_times, re_digit. cbn [cats den]. intros (s1 & Hit & Hrest).
  assert (Hsuf : ∃ pre, s1 = pre +:+ s').
  { destruct Hrest as (s2 & (c2 & -> & _) & H3).
    apply (iter_chr n0) in H3. destruct H3 as (u3 & -> & _).
    exists (String c2 u3). now rewrite !append_cons. }
  destruct Hsuf as (pre & ->).
  apply (iter_chr n0) in Hit. destruct Hit as (u & Hv & Hu & Hlo & _).
  rewrite <- append_assoc_str in Hv. apply append_inj_r in Hv. subst v.
  now apply has4_digits.
Qed.

(** The start of a range starts with a digit or has a year of four
    digits. *)
Lemma den_range_start n0 v s' :
  den n0 (alts [re_dmy; re_month_year; re_ym]) (v +:+ s') s' →
  (∃ c t, v = String c t ∧ isdigit c = true) ∨ has4 v = true.
Proof.
  cbn [alts den]. intros [H|[H|H]].
  - left. eapply den_dmy, H.
  - right. eapply den_month_year, H.
  - right. eapply den_ym, H.
Qed.

(** Every format has the directive of the year. *)
Inductive year_in : regex → Prop :=
| year_here : year_in (directive_re "Y")
| year_cat_l r1 r2 : year_in r1 → year_in (Cat r1 r2)
| year_cat_r r1 r2 : year_in r2 → year_in (Cat r1 r2).

Lemma year_in_den n0 r : year_in r → ∀ s s', den n0 r s s' → has4 s = true.
Proof.
  induction 1 as [|r1 r2 _ IH|r1 r2 _ IH]; intros s s' Hd.
  - change (directive_re "Y")
      with (Grp "Y" (Cat re_digit (Cat re_digit (Cat re_digit re_digit)))) in Hd.
    unfold re_digit in Hd. cbn [den] in Hd.
    destruct Hd as (s1 & (c1 & -> & H1) & s2 & (c2 & -> & H2) & s3 &
                    (c3 & -> & H3) & c4 & -> & H4).
    cbn [has4 span]. now rewrite H1, H2, H3, H4.
  - cbn [den] in Hd. destruct Hd as (s1 & Hd & _). eauto.
  - cbn [den] in Hd. destruct Hd as (s1 & H1 & H2).
    apply den_suffix in H1. destruct H1 as (p & ->).
    apply has4_app_l. eauto.
Qed.

Lemma date_formats_year fmt : In fmt date_formats → year_in (format_regex fmt).
Proof.
  unfold date_formats. intros Hin.
  repeat (destruct Hin as [<-|Hin]; [|]); try contradiction.
  - apply year_cat_l, year_here.
  - apply year_cat_l, year_here.
  - apply year_cat_l, year_here.
  - apply year_cat_l, year_here.
  - do 4 apply year_cat_r. apply year_here.
  - do 4 apply year_cat_r. apply year_here.
  - do 2 apply year_cat_r. apply year_here.
  - do 2 apply year_cat_r. apply year_here.
Qed.

Lemma strptime_without_year s fmt :
  has4 s = false → In fmt date_formats →
  strptime s fmt = Raise (ValueError "time data does not match format").
Proof.
  intros Hs Hf. apply strptime_no_match. unfold re_match.
  destruct (match_here (format_regex fmt) (len s) s 0) as [m|] eqn:E; [|reflexivity].
  apply match_here_den in E. destruct E as (s' & Hd & _).
  apply (year_in_den _ _ (date_formats_year fmt Hf)) in Hd. congruence.
Qed.

Lemma try_formats_without_year s fmts date_str :
  has4 s = false → incl fmts date_formats →
  try_formats s fmts date_str
  = Raise (ValueError ("Unknown date format: " +:+ date_str)).
Proof.
  intros Hs. induction fmts as [|fmt fmts IH]; intros Hi; [reflexivity|].
  cbn [try_formats]. rewrite strptime_without_year; [|exact Hs|apply Hi; now left].
  apply IH. intros f Hf. apply Hi. now right.
Qed.

Lemma parse_date_without_year now s :
  has4 s = false →
  parse_date now s
  = if is_present (strip s) then Ok now
    else Raise (ValueError ("Unknown date format: " +:+ s)).
Proof.
  intros Hs. unfold parse_date. destruct (is_present (strip s)); [reflexivity|].
  apply try_formats_without_year; [|apply incl_refl].
  destruct (has4 (strip s)) eqn:E; [|reflexivity].
  apply (has4_sub _ s) in E; [congruence|]. apply sub_strip_with.
Qed.

(** The lines of a text are parts of it. *)
Lemma splitlines_go_sub n : ∀ s cur l,
  len s ≤ n → In l (splitlines_go cur s) → sub l (String.rev cur +:+ s).
Proof.
  induction n as [|n IH]; intros s cur l Hn Hin.
  - destruct s; [|simpl in Hn; lia]. simpl in Hin.
    destruct (String.eqb cur ""); [destruct Hin|].
    destruct Hin as [<-|[]]. rewrite append_nil_r. apply sub_refl.
  - destruct s as [|c s].
    + simpl in Hin. destruct (String.eqb cur ""); [destruct Hin|].
      destruct Hin as [<-|[]]. rewrite append_nil_r. apply sub_refl.
    + assert (Hcur : sub (String.rev cur) (String.rev cur +:+ String c s)).
      { exists "", (String c s). reflexivity. }
      assert (Hrest : ∀ t, len t ≤ n → (∃ p, String c s = p +:+ t) →
                           In l (splitlines_go "" t) →
                           sub l (String.rev cur +:+ String c s)).
      { intros t Ht (p & Hp) Hl. apply sub_app_l. rewrite Hp. apply sub_app_l.
        apply (IH t "" l Ht) in Hl. exact Hl. }
      simpl in Hn. cbn [splitlines_go] in Hin.
      destruct (Ascii.eqb c "013").
      * destruct s as [|d s].
        -- destruct Hin as [<-|[]]. exact Hcur.
        -- destruct (Ascii.eqb d "010").
           ++ destruct Hin as [<-|Hin]; [exact Hcur|].
              apply (Hrest s); [simpl in Hn; lia | | exact Hin].
              now exists (String c (String d "")).
           ++ destruct Hin as [<-|Hin]; [exact Hcur|].
              apply (Hrest (String d s)); [lia | | exact Hin].
              now exists (String c "").
      * destruct (islinebreak c).
        -- destruct Hin as [<-|Hin]; [exact Hcur|].
           apply (Hrest s); [lia | | exact Hin]. now exists (String c "").
        -- apply (IH s (String c cur) l) in Hin; [|lia].
           now rewrite rev_cons_append in Hin.
Qed.

Lemma splitlines_sub text l : In l (splitlines text) → sub l text.
Proof. intros Hin. now apply (splitlines_go_sub (len text)) in Hin. Qed.

Lemma strip_digit c t :
  isdigit c = true → ∃ t', strip (String c t) = String c t'.
Proof.
  intros Hc. unfold strip, strip_with. cbn [lstrip_with].
  rewrite (digit_not_space c Hc), rstrip_cons.
  destruct (rstrip_with isspace t); [|eauto].
  rewrite (digit_not_space c Hc). eauto.
Qed.

Lemma date_pattern_start seg m v :
  In m (re_finditer date_pattern seg) → group "start" (m_groups m) = Some v →
  sub v seg ∧ ((∃ c t, v = String c t ∧ isdigit c = true) ∨ has4 v = true).
Proof.
  intros Hm Hg. pose proof (finditer_groups _ _ _ _ _ Hm Hg) as Hf.
  split; [eapply from_group_sub, Hf|].
  destruct Hf as (r1 & p & rest & Hin & _ & Hd). cbn [fst snd] in *.
  assert (Hgs : groups_of date_pattern
                = [("start", alts [re_dmy; re_month_year; re_ym]);
                   ("end", alts [re_dmy; lit true "Present"; lit true "Now";
                                 re_month_year; re_ym])]) by reflexivity.
  rewrite Hgs in Hin. destruct Hin as [[= <-]|[[=]|[]]].
  eapply den_range_start, Hd.
Qed.

(** No entry comes from a part of a text that has no four digits in a
    row. *)
Lemma entry_of_without_year now seg m :
  has4 seg = false → In m (re_finditer date_pattern seg) →
  entry_of now seg m = None.
Proof.
  intros Hs Hm. unfold entry_of.
  assert (Hp : parsed now m "start" = None); [|now rewrite Hp].
  unfold parsed. destruct (group "start" (m_groups m)) as [v|] eqn:Hg; [|reflexivity].
  destruct (date_pattern_start _ _ _ Hm Hg) as [Hsub Hv].
  assert (Hv4 : has4 v = false).
  { destruct (has4 v) eqn:E; [|reflexivity].
    apply (has4_sub _ _ Hsub) in E. congruence. }
  destruct Hv as [(c & t & -> & Hc)|Hv]; [|congruence].
  rewrite parse_date_without_year by exact Hv4.
  destruct (strip_digit c t Hc) as (t' & ->).
  now rewrite (digit_not_present c t' Hc).
Qed.

Lemma omap_none {A B} (f : A → option B) l :
  (∀ x, In x l → f x = None) → omap f l = [].
Proof.
  induction l as [|x l IH]; intros Hf; [reflexivity|].
  cbn. rewrite Hf by now left. apply IH. intros y Hy. apply Hf. now right.
Qed.

(** X4.  Without four digits in a row a text is no date, unless it is
    [Present] or [Now]: [parse_date] then fails with its own message. *)
Theorem parse_date_needs_year (now : datetime) (s : string) :
  has4 s = false →
  (is_present (strip s) = true ∧ parse_date now s = Ok now) ∨
  (is_present (strip s) = false ∧
   parse_date now s = Raise (ValueError ("Unknown date format: " +:+ s))).
Proof.
  intros Hs. rewrite (parse_date_without_year now s Hs).
  destruct (is_present (strip s)); auto.
Qed.

Lemma parse_date_needs_year_witness :
  has4 "01/02/20" = false ∧
  parse_date (MkDatetime 2024 6 1 9 30 0 0) "01/02/20"
  = Raise (ValueError "Unknown date format: 01/02/20").
Proof.
  assert (Hs : has4 "01/02/20" = false) by reflexivity.
  split; [exact Hs|].
  destruct (parse_date_needs_year (MkDatetime 2024 6 1 9 30 0 0) "01/02/20" Hs)
    as [[Hp _]|[_ Hr]]; [discriminate Hp | exact Hr].
Defined.

(** X5.  A text without four digits in a row has no entry: a range whose
    years have two or three digits is matched and then passed over. *)
Theorem no_entry_without_year (now : datetime) (text : string) :
  has4 text = false → extract_experience now text = Ok [].
Proof.
  intros Ht. rewrite extract_experience_entries. f_equal.
  apply flat_map_nil. intros line Hl. unfold line_entries.
  apply omap_none. intros m Hm. apply entry_of_without_year; [|exact Hm].
  destruct (has4 (strip line)) eqn:E; [|reflexivity].
  apply (has4_sub _ text) in E; [congruence|].
  eapply sub_trans; [apply sub_strip_with | now apply splitlines_sub].
Qed.

Lemma no_entry_without_year_witness :
  has4 "01/02/20 - 03/04/21 Developer at Acme" = false ∧
  re_finditer date_pattern "01/02/20 - 03/04/21 Developer at Acme"
  = [MkMatch 0 19 [("end", "03/04/21"); ("start", "01/02/20")]] ∧
  extract_experience (MkDatetime 2024 6 1 9 30 0 0)
    "01/02/20 - 03/04/21 Developer at Acme" = Ok [].
Proof.
  assert (Hs : has4 "01/02/20 - 03/04/21 Developer at Acme" = false) by reflexivity.
  split; [exact Hs|]. split; [vm_compute; reflexivity|].
  exact (no_entry_without_year _ _ Hs).
Defined.

(** ** Labels: role and company *)

Definition noise_words : list string :=
  ["During"; "Business"; "Website"; "Key"; "As"].

Lemma lit_den n0 kw rest : den n0 (lit false kw) (kw +:+ rest) rest.
Proof.
  induction kw as [|c kw IH]; [reflexivity|]. rewrite append_cons. cbn [lit den].
  exists (kw +:+ rest). split; [|exact IH]. exists c. split; [reflexivity|].
  unfold chr_is. apply Ascii.eqb_refl.
Qed.

Lemma noise_den n0 kw rest :
  In kw noise_words → den n0 noise_re (kw +:+ rest) rest.
Proof.
  unfold noise_words, noise_re. cbn [map alts den].
  intros [<-|[<-|[<-|[<-|[<-|[]]]]]];
    [left|right; left|do 2 right; left|do 3 right; left|do 4 right];
    apply lit_den.
Qed.

(** The text before the first noise word has no noise word. *)
Lemma split_head_no_noise label kw :
  In kw noise_words → ¬ sub kw (re_split_head noise_re label).
Proof.
  intros Hkw (p & q & Hh). unfold re_split_head in Hh.
  assert (Hlen : 0 < len kw).
  { unfold noise_words in Hkw. simpl in Hkw.
    destruct Hkw as [<-|[<-|[<-|[<-|[<-|[]]]]]]; simpl; lia. }
  pose proof (re_search_spec noise_re label) as Hs.
  destruct (re_search noise_re label) as [m|].
  - destruct Hs as ((rest & _ & Hi & _) & _ & Hmin).
    apply (Hmin (len p) kw).
    + apply (f_equal len) in Hh. rewrite len_take, !len_append in Hh. lia.
    + exists (q +:+ drop_str (m_start m) label). split; [|split].
      * rewrite <- (take_drop (m_start m) label) at 1. rewrite Hh.
        rewrite !append_assoc_str. apply drop_append.
      * apply (f_equal len) in Hh. rewrite len_take, !len_append in Hh. lia.
      * now apply noise_den.
  - apply (Hs (len p) kw). exists q. split; [|split].
    + rewrite Hh. apply drop_append.
    + rewrite Hh, !len_append. lia.
    + now apply noise_den.
Qed.

(** A pattern that starts with [^] matches at the start of the text only. *)
Definition anchored (n0 : nat) (r : regex) : Prop :=
  ∀ s s', den n0 r s s' → len s = n0.

Lemma finditer_from_anchored r n0 : anchored n0 r →
  ∀ s pos skip, len s < n0 → finditer_from r n0 s pos skip = [].
Proof.
  intros Ha. induction s as [|c s IH]; intros pos skip Hl.
  - destruct skip; [|reflexivity]. cbn [finditer_from].
    destruct (match_here r n0 "" pos) as [m|] eqn:E; [|reflexivity].
    apply match_here_den in E. destruct E as (s' & Hd & _).
    apply Ha in Hd. lia.
  - simpl in Hl. destruct skip; cbn [finditer_from]; [|apply IH; lia].
    destruct (match_here r n0 (String c s) pos) as [m|] eqn:E; [|apply IH; lia].
    apply match_here_den in E. destruct E as (s' & Hd & _).
    apply Ha in Hd. simpl in Hd. lia.
Qed.

(** Removing the match of an anchored pattern leaves an end of the text. *)
Lemma re_sub_anchored r x : anchored (len x) r → sub (re_sub r "" x) x.
Proof.
  intros Ha. unfold re_sub, re_finditer. destruct x as [|c x].
  - cbn [finditer_from]. destruct (match_here r (len "") "" 0) as [m|]; cbn [sub_pieces].
    + destruct (m_start m), (m_end m); exists "", ""; reflexivity.
    + apply sub_drop.
  - cbn [finditer_from].
    destruct (match_here r (len (String c x)) (String c x) 0) as [m|] eqn:E.
    + rewrite finditer_from_anchored by (auto; simpl; lia). cbn [sub_pieces].
      apply match_here_den in E. destruct E as (s' & _ & -> & _).
      unfold slice. cbn [Nat.sub take_str]. rewrite append_nil_l.
      change ("" ++ ?y)%string with y. apply sub_drop.
    + rewrite finditer_from_anchored by (auto; simpl; lia). apply sub_drop.
Qed.

Lemma prefix_anchored n0 : anchored n0 prefix_re.
Proof.
  intros s s'. unfold prefix_re. cbn [cats den]. now intros (s1 & [-> Hn] & _).
Qed.

Lemma sub_empty s : sub "" s.
Proof. exists "", s. reflexivity. Qed.

Lemma clean_label_sub seg m :
  sub (clean_label seg m)
      (re_split_head noise_re
         (str_or (strip (drop_str (m_end m) seg)) (strip (take_str (m_start m) seg)))).
Proof.
  unfold clean_label. eapply sub_trans; [apply re_sub_anchored, prefix_anchored|].
  apply sub_strip_with.
Qed.

Lemma group_value_sub r s m name :
  re_match r s = Some m → sub (strip (default "" (group name (m_groups m)))) s.
Proof.
  intros Hm. eapply sub_trans; [apply sub_strip_with|].
  destruct (group name (m_groups m)) as [v|] eqn:Hg; [|apply sub_empty].
  eapply from_group_sub, match_here_groups; eauto.
Qed.

Lemma role_company_sub label :
  sub (fst (role_company label)) label ∧ sub (snd (role_company label)) label.
Proof.
  unfold role_company. destruct (re_match role_re label) as [rc|] eqn:E.
  - split; eapply group_value_sub, E.
  - split; [apply sub_refl | apply sub_empty].
Qed.

Lemma make_entry_no_noise seg m sd ed kw :
  In kw noise_words →
  ¬ sub kw (role (make_entry seg m sd ed)) ∧
  ¬ sub kw (company (make_entry seg m sd ed)).
Proof.
  intros Hkw. cbn [make_entry role company].
  destruct (role_company_sub (clean_label seg m)) as [Hr Hc].
  split; intros Hs; eapply (split_head_no_noise _ kw Hkw);
    (eapply sub_trans; [exact Hs|]);
    (eapply sub_trans; [|apply clean_label_sub]); eassumption.
Qed.

(** X6.  Neither the role nor the company of an entry has one of the words
    During, Business, Website, Key and As in it, in this spelling: the label
    is cut at the first of them, wherever it stands. *)
Theorem entry_without_noise_words (now : datetime) (text : string)
    (es : list entry) (e : entry) (kw : string) :
  extract_experience now text = Ok es → In e es → In kw noise_words →
  ¬ sub kw (role e) ∧ ¬ sub kw (company e).
Proof.
  intros Hes He Hkw.
  destruct (entry_in_result now text es e Hes He) as (seg & m & sd & ed & _ & _ & ->).
  now apply make_entry_no_noise.
Qed.

Lemma entry_without_noise_words_witness :
  extract_experience (MkDatetime 2024 6 1 9 30 0 0)
    "2019-01 - 2020-02 Senior Engineer at Acme Business Unit"
  = Ok [MkEntry "Senior Engineer" "Acme" (MkDatetime 2019 1 1 0 0 0 0)
          (MkDatetime 2020 2 1 0 0 0 0) (Qmake 396 365)] ∧
  ¬ sub "Business" "Senior Engineer" ∧ ¬ sub "Business" "Acme".
Proof.
  assert (Hes : extract_experience (MkDatetime 2024 6 1 9 30 0 0)
                  "2019-01 - 2020-02 Senior Engineer at Acme Business Unit"
                = Ok [MkEntry "Senior Engineer" "Acme" (MkDatetime 2019 1 1 0 0 0 0)
                        (MkDatetime 2020 2 1 0 0 0 0) (Qmake 396 365)])
    by (vm_compute; reflexivity).
  split; [exact Hes|].
  apply (entry_without_noise_words _ _ _ _ "Business" Hes (or_introl eq_refl)).
  unfold noise_words. simpl. auto 10.
Defined.

(** ** Contact details *)

Definition contact_keys : list string := ["email"; "phone"; "github"; "linkedin"].

(** Each key holds the text of the first match of its pattern. *)
Lemma contact_lookup text :
  extract_contact_info text !! "email" = group0 text <$> re_search email_re text ∧
  extract_contact_info text !! "phone" = group0 text <$> re_search phone_re text ∧
  extract_contact_info text !! "github" = group0 text <$> re_search github_re text ∧
  extract_contact_info text !! "linkedin"
  = group0 text <$> re_search linkedin_re text ∧
  ∀ k, ¬ In k contact_keys → extract_contact_info text !! k = None.
Proof.
  unfold extract_contact_info, set_found.
  destruct (re_search email_re text), (re_search phone_re text),
    (re_search github_re text), (re_search linkedin_re text);
    cbn [fmap option_fmap option_map];
    (split; [|split; [|split; [|split]]]);
    try (intros k Hk; unfold contact_keys in Hk; simpl in Hk);
    repeat (rewrite lookup_insert_ne by (first [discriminate | intros E; tauto]));
    rewrite ?lookup_insert_eq, ?lookup_empty; reflexivity.
Qed.

Lemma search_from_first r n0 : ∀ s pos m,
  search_from r n0 s pos = Some m →
  ∃ i, i ≤ len s ∧ match_here r n0 (drop_str i s) (pos + i) = Some m ∧
       ∀ j, j < i → match_here r n0 (drop_str j s) (pos + j) = None.
Proof.
  induction s as [|c s IH]; intros pos m; cbn [search_from].
  - destruct (match_here r n0 "" pos) as [m'|] eqn:E; [|discriminate].
    intros [= <-]. exists 0. rewrite Nat.add_0_r. repeat split; auto. lia.
  - destruct (match_here r n0 (String c s) pos) as [m'|] eqn:E.
    + intros [= <-]. exists 0. rewrite Nat.add_0_r.
      repeat split; auto; simpl; lia.
    + intros Hs. apply IH in Hs. destruct Hs as (i & Hi & Hm & Hmin).
      exists (S i). rewrite drop_S. replace (pos + S i) with (S pos + i) by lia.
      split; [simpl; lia|]. split; [exact Hm|].
      intros [|j] Hj.
      * now rewrite Nat.add_0_r.
      * rewrite drop_S. replace (pos + S j) with (S pos + j) by lia.
        apply Hmin. lia.
Qed.

Lemma flat_map_tails {B} p (g : string → list B) :
  (∀ c t, p c = true → g (String c t) = []) →
  ∀ s lo, flat_map g (tails_down p lo None s)
          = if lo <=? span p s then g (drop_str (span p s) s) else [].
Proof.
  intros Hg. induction s as [|c s IH]; intros lo.
  - cbn [tails_down span drop_str]. destruct lo; simpl; [apply app_nil_r|reflexivity].
  - cbn [tails_down span]. destruct (p c) eqn:E.
    + cbn [fmap option_fmap option_map]. rewrite flat_map_app, IH. cbn [drop_str].
      assert (Hlast : flat_map g match lo with 0 => [String c s] | S _ => [] end = []).
      { destruct lo; [|reflexivity]. simpl. rewrite (Hg c s E). reflexivity. }
      rewrite Hlast, app_nil_r. destruct lo; reflexivity.
    + destruct lo; simpl; [apply app_nil_r|reflexivity].
Qed.

Lemma flat_map_map {A B C} (f : B → list C) (h : A → B) l :
  flat_map f (map h l) = flat_map (fun x => f (h x)) l.
Proof. induction l as [|x l IH]; simpl; [reflexivity | now rewrite IH]. Qed.

Lemma ways_at n0 s caps :
  ways n0 (lit false "@") s caps
  = match s with
    | String c t => if Ascii.eqb c "@" then [(t, caps)] else []
    | EmptyString => []
    end.
Proof.
  cbn [lit ways]. destruct s as [|c t]; [reflexivity|].
  unfold chr_is. destruct (Ascii.eqb c "@"); reflexivity.
Qed.

Lemma email_not_at c : isemail c = true → Ascii.eqb c "@" = false.
Proof.
  intros Hc. destruct (Ascii.eqb c "@") eqn:E; [|reflexivity].
  apply Ascii.eqb_eq in E. subst c. vm_compute in Hc. discriminate.
Qed.

Lemma ways_email n0 s caps :
  ways n0 email_re s caps
  = match drop_str (span isemail s) s with
    | String c t =>
        if (1 <=? span isemail s) && Ascii.eqb c "@"
        then map (fun x => (x, caps)) (tails_down isemail 1 None t)
        else []
    | EmptyString => []
    end.
Proof.
  unfold email_re, re_plus. cbn [cats].
  change (ways n0 (Cat ?a (Cat ?b ?c)) s caps)
    with (flat_map (fun w => flat_map (fun w' => ways n0 c (fst w') (snd w'))
                                      (ways n0 b (fst w) (snd w)))
                   (ways n0 a s caps)).
  rewrite ways_chr_rep, flat_map_map. cbn [fst snd].
  rewrite (flat_map_tails isemail
             (fun x => flat_map (fun w' => ways n0 (Rep true 1 None (Chr isemail))
                                             (fst w') (snd w'))
                                (ways n0 (lit false "@") x caps))).
  - destruct (1 <=? span isemail s); [|now destruct (drop_str _ s)].
    rewrite ways_at. destruct (drop_str (span isemail s) s) as [|c t]; [reflexivity|].
    cbn [andb]. destruct (Ascii.eqb c "@"); [|reflexivity].
    cbn [flat_map fst snd]. now rewrite app_nil_r, ways_chr_rep.
  - intros c t Hc. rewrite ways_at, (email_not_at c Hc). reflexivity.
Qed.

Lemma span_drop_len p s :
  len (drop_str (span p s) s) = len s - span p s.
Proof. apply len_drop. Qed.

(** The pattern of an address at a position: the run before the [@], the
    [@] and the run after it. *)
Lemma match_here_email n0 s pos :
  match_here email_re n0 s pos
  = match drop_str (span isemail s) s with
    | String c t =>
        if (1 <=? span isemail s) && Ascii.eqb c "@" && (1 <=? span isemail t)
        then Some (MkMatch pos (pos + (span isemail s + 1 + span isemail t)) [])
        else None
    | EmptyString => None
    end.
Proof.
  unfold match_here. rewrite rmatch_ways, ways_email, first_accepted_total.
  pose proof (len_drop (span isemail s) s) as Hl.
  pose proof (span_le isemail s) as Hle.
  destruct (drop_str (span isemail s) s) as [|c t]; [reflexivity|].
  destruct ((1 <=? span isemail s) && Ascii.eqb c "@"); [|reflexivity].
  cbn [andb]. rewrite tails_down_plus.
  destruct (1 <=? span isemail t); [|reflexivity].
  cbn [map fst snd]. do 2 f_equal. rewrite len_drop.
  pose proof (span_le isemail t). simpl in Hl. lia.
Qed.

Lemma search_from_nowhere r n0 : ∀ s pos,
  search_from r n0 s pos = None →
  ∀ i, match_here r n0 (drop_str i s) (pos + i) = None.
Proof.
  induction s as [|c s IH]; intros pos; cbn [search_from].
  - destruct (match_here r n0 "" pos) as [m'|] eqn:E; [discriminate|].
    intros _ i. replace (drop_str i "") with "" by now destruct i.
    unfold match_here in *. rewrite rmatch_ways in *.
    destruct (ways n0 r "" []); [reflexivity|discriminate].
  - destruct (match_here r n0 (String c s) pos) as [m'|] eqn:E; [discriminate|].
    intros Hs [|i].
    + now rewrite Nat.add_0_r.
    + rewrite drop_S. replace (pos + S i) with (S pos + i) by lia. now apply IH.
Qed.

Lemma span_take p s : all_chars p (take_str (span p s) s) = true.
Proof.
  induction s as [|c s IH]; [reflexivity|]. simpl.
  destruct (p c) eqn:E; [|reflexivity]. simpl. now rewrite E.
Qed.

Lemma span_stop p s : span p (drop_str (span p s) s) = 0.
Proof.
  induction s as [|c s IH]; [reflexivity|]. simpl.
  destruct (p c) eqn:E; [exact IH|]. simpl. now rewrite E.
Qed.

Lemma len_span_take p s : len (take_str (span p s) s) = span p s.
Proof. rewrite len_take. pose proof (span_le p s). lia. Qed.

(** An [@] between two characters of an address is found. *)
Lemma email_candidate n0 a b q pos :
  isemail a = true → isemail b = true →
  match_here email_re n0 (String a (String "@" (String b q))) pos ≠ None.
Proof.
  intros Ha Hb. rewrite match_here_email. cbn [span]. rewrite Ha.
  change (isemail "@") with false. cbn [drop_str Nat.leb andb Ascii.eqb].
  change (Ascii.eqb "@" "@") with true. cbn [span andb]. rewrite Hb.
  discriminate.
Qed.

(** X7.  The e-mail address of the contact details is the first part of the
    text made of a run of address characters (letters, digits, underscore,
    dot, dash), an [@] and another such run, both runs as long as they can
    be; there is no address exactly when no [@] of the text stands between
    two address characters. *)
Theorem contact_email (text : string) :
  match extract_contact_info text !! "email" with
  | Some v =>
      ∃ before u w after,
        text = before +:+ v +:+ after ∧ v = u +:+ String "@" w ∧
        u ≠ "" ∧ w ≠ "" ∧
        all_chars isemail u = true ∧ all_chars isemail w = true ∧
        span isemail after = 0 ∧
        (∀ b x, before = b +:+ String x "" → isemail x = false) ∧
        (∀ p a b q, text = p +:+ String a (String "@" (String b q)) →
                    isemail a = true → isemail b = true → len before ≤ len p)
  | None =>
      ∀ p a b q, text = p +:+ String a (String "@" (String b q)) →
                 isemail a = false ∨ isemail b = false
  end.
Proof.
  destruct (contact_lookup text) as (-> & _).
  unfold re_search. destruct (search_from email_re (len text) text 0) as [m|] eqn:E;
    cbn [fmap option_fmap option_map].
  - apply search_from_first in E. destruct E as (i & Hi & Hm & Hmin).
    rewrite match_here_email in Hm. cbn [Nat.add] in Hm.
    set (d := drop_str i text) in *.
    pose proof (take_drop (span isemail d) d) as Hd.
    pose proof (span_take isemail d) as Hu.
    pose proof (len_span_take isemail d) as Hlu.
    destruct (drop_str (span isemail d) d) as [|c t] eqn:Ed; [discriminate|].
    destruct (1 <=? span isemail d) eqn:Ea; [|discriminate].
    destruct (Ascii.eqb c "@") eqn:Ec; [|discriminate].
    destruct (1 <=? span isemail t) eqn:Eb; [|discriminate].
    cbn [andb] in Hm. injection Hm as <-.
    apply Ascii.eqb_eq in Ec. subst c.
    apply Nat.leb_le in Ea, Eb.
    pose proof (take_drop (span isemail t) t) as Ht.
    pose proof (span_take isemail t) as Hw.
    pose proof (len_span_take isemail t) as Hlw.
    pose proof (span_stop isemail t) as Hafter.
    set (u := take_str (span isemail d) d) in *.
    set (w := take_str (span isemail t) t) in *.
    set (after := drop_str (span isemail t) t) in *.
    assert (Hv : group0 text (MkMatch i (i + (span isemail d + 1 + span isemail t)) [])
                 = u +:+ String "@" w).
    { unfold group0, slice. cbn [m_start m_end]. fold d.
      replace (i + (span isemail d + 1 + span isemail t) - i)
        with (len (u +:+ String "@" w))
        by (rewrite len_append; simpl; lia).
      rewrite <- Hd, <- Ht. rewrite <- (append_cons "@" w after).
      rewrite <- append_assoc_str. apply take_append. }
    assert (Htext : text = take_str i text +:+ (u +:+ String "@" w) +:+ after).
    { rewrite <- (take_drop i text) at 1. fold d. rewrite <- Hd, <- Ht.
      now rewrite append_assoc_str, append_cons. }
    assert (Hlb : len (take_str i text) = i) by (rewrite len_take; lia).
    exists (take_str i text), u, w, after. rewrite Hv.
    split; [exact Htext|]. split; [reflexivity|].
    split; [intros Hn; rewrite Hn in Hlu; simpl in Hlu; lia|].
    split; [intros Hn; rewrite Hn in Hlw; simpl in Hlw; lia|].
    split; [exact Hu|]. split; [exact Hw|]. split; [exact Hafter|]. split.
    + intros b x Hb. destruct (isemail x) eqn:Ex; [|reflexivity]. exfalso.
      assert (Hj : len b < i).
      { rewrite <- Hlb, Hb, len_append. simpl. lia. }
      specialize (Hmin (len b) Hj). cbn [Nat.add] in Hmin.
      assert (Hdrop : drop_str (len b) text = String x d).
      { rewrite <- (take_drop i text). fold d. rewrite Hb, append_assoc_str.
        apply drop_append. }
      rewrite Hdrop, match_here_email in Hmin. cbn [span] in Hmin.
      rewrite Ex in Hmin. cbn [drop_str] in Hmin. rewrite Ed in Hmin.
      change (Ascii.eqb "@" "@") with true in Hmin.
      assert (H1 : (1 <=? span isemail t) = true) by now apply Nat.leb_le.
      rewrite H1 in Hmin. discriminate Hmin.
    + intros p a b q Hp Ha Hb. rewrite Hlb.
      destruct (Nat.le_gt_cases i (len p)) as [|Hlt]; [assumption|]. exfalso.
      specialize (Hmin (len p) Hlt). cbn [Nat.add] in Hmin.
      rewrite Hp, drop_append in Hmin.
      now apply (email_candidate _ _ _ _ _ Ha Hb) in Hmin.
  - intros p a b q Hp.
    pose proof (search_from_nowhere _ _ _ _ E (len p)) as Hn. cbn [Nat.add] in Hn.
    rewrite Hp, drop_append in Hn.
    destruct (isemail a) eqn:Ea; [|now left].
    destruct (isemail b) eqn:Eb; [|now right].
    now apply (email_candidate _ _ _ _ _ Ea Eb) in Hn.
Qed.

(** *** The telephone number *)

Lemma iter_opt (P : string → string → Prop) s s' :
  iter P 0 (Some 1) s s' → s' = s ∨ P s s'.
Proof.
  intros H. inversion H as [|lo hi s0 s1 s2 Hhi HP Hlt Hit]; subst; [now left|].
  right. cbn in Hit. inversion Hit as [|lo' hi' s0' s1' s2' Hhi' _ _ _]; subst.
  - exact HP.
  - congruence.
Qed.

(** A separator of the country code: whitespace or a dash. *)
Definition isphonesep (c : ascii) : bool := isspace c || Ascii.eqb c "-".

(** The text before the digits of a number: nothing, or [+], a country code
    of one to three digits and at most one separator. *)
Definition phone_prefix (pre : string) : Prop :=
  pre = "" ∨
  ∃ cc sep, pre = String "+" (cc +:+ sep) ∧
            all_chars isdigit cc = true ∧ 1 ≤ len cc ≤ 3 ∧
            all_chars isphonesep sep = true ∧ len sep ≤ 1.

Lemma den_phone n0 v rest :
  den n0 phone_re (v +:+ rest) rest →
  ∃ pre ds, v = pre +:+ ds ∧ phone_prefix pre ∧
            all_chars isdigit ds = true ∧ 10 ≤ len ds ≤ 15.
Proof.
  unfold phone_re, re_opt, re_times, re_digit. cbn [cats lit den].
  intros (s1 & Hopt & Hds).
  apply (iter_chr n0) in Hds. destruct Hds as (ds & -> & Hd & Hlo & Hhi).
  specialize (Hhi 15 eq_refl).
  apply iter_opt in Hopt. destruct Hopt as [Hs|Hpre].
  - exists "", ds. rewrite append_nil_l. apply append_inj_r in Hs.
    split; [congruence|]. split; [now left|]. auto.
  - destruct Hpre as (s2 & (s2' & (c & Hv & Hc) & ->) & s3 & Hcc & Hsep).
    unfold chr_is in Hc. apply Ascii.eqb_eq in Hc. subst c.
    apply (iter_chr n0) in Hcc, Hsep.
    destruct Hcc as (cc & -> & Hcc & Hcl & Hch). specialize (Hch 3 eq_refl).
    destruct Hsep as (sep & -> & Hsep & _ & Hsh). specialize (Hsh 1 eq_refl).
    exists (String "+" (cc +:+ sep)), ds. split.
    + apply (append_inj_r _ _ rest). rewrite Hv.
      now rewrite !append_cons, !append_assoc_str.
    + split; [|auto]. right. exists cc, sep. auto.
Qed.

Lemma phone_den n0 ds rest :
  all_chars isdigit ds = true → 10 ≤ len ds ≤ 15 →
  den n0 phone_re (ds +:+ rest) rest.
Proof.
  intros Hd Hl. unfold phone_re, re_opt, re_times, re_digit. cbn [cats den].
  exists (ds +:+ rest). split; [constructor|].
  apply (chr_iter n0); [exact Hd | lia | intros h [= <-]; lia].
Qed.

(** X8.  The telephone number of the contact details is a part of the text
    made of ten to fifteen digits, with a country code in front of them or
    not; it starts at the first place where ten digits stand in a row or
    before it, and there is no number exactly when the text has no ten
    digits in a row. *)
Theorem contact_phone (text : string) :
  match extract_contact_info text !! "phone" with
  | Some v =>
      ∃ before pre ds after,
        text = before +:+ v +:+ after ∧ v = pre +:+ ds ∧ phone_prefix pre ∧
        all_chars isdigit ds = true ∧ 10 ≤ len ds ≤ 15 ∧
        (∀ p ds' q, text = p +:+ ds' +:+ q → all_chars isdigit ds' = true →
                    10 ≤ len ds' → len before ≤ len p)
  | None =>
      ∀ p ds q, text = p +:+ ds +:+ q → all_chars isdigit ds = true →
                len ds < 10
  end.
Proof.
  destruct (contact_lookup text) as (_ & -> & _).
  assert (Hcand : ∀ p ds q, text = p +:+ ds +:+ q → all_chars isdigit ds = true →
                            10 ≤ len ds →
                            matches_at phone_re text (len p) (take_str 10 ds)).
  { intros p ds q Hp Hd Hl. exists (drop_str 10 ds +:+ q). split; [|split].
    - rewrite Hp, drop_append, <- append_assoc_str. now rewrite take_drop.
    - rewrite Hp, len_append. lia.
    - apply phone_den; [now apply all_chars_take | rewrite len_take; lia]. }
  pose proof (re_search_spec phone_re text) as Hs.
  destruct (re_search phone_re text) as [m|]; cbn [fmap option_fmap option_map].
  - destruct Hs as ((rest & Hdrop & Hi & Hd) & _ & Hmin).
    apply (den_phone (len text)) in Hd. destruct Hd as (pre & ds & Hv & Hpre & Hds & Hl).
    exists (take_str (m_start m) text), pre, ds, rest.
    split; [|split; [exact Hv|split; [exact Hpre|split; [exact Hds|split; [exact Hl|]]]]].
    + rewrite <- Hdrop. symmetry. apply take_drop.
    + intros p ds' q Hp Hd' Hl'. rewrite len_take.
      destruct (Nat.le_gt_cases (m_start m) (len p)) as [|Hlt]; [lia|]. exfalso.
      exact (Hmin _ _ Hlt (Hcand _ _ _ Hp Hd' Hl')).
  - intros p ds q Hp Hd.
    destruct (Nat.le_gt_cases 10 (len ds)) as [Hl|]; [|assumption]. exfalso.
    exact (Hs _ _ (Hcand _ _ _ Hp Hd Hl)).
Qed.

(** *** The links *)

Lemma match_here_link kw p n0 s pos :
  match_here (cats [lit true kw; re_plus (Chr p)]) n0 s pos
  = if ci_prefix kw s && (1 <=? span p (drop_str (len kw) s))
    then Some (MkMatch pos (pos + (len kw + span p (drop_str (len kw) s))) [])
    else None.
Proof.
  unfold match_here. cbn [cats]. rewrite rmatch_cat, rmatch_lit.
  destruct (ci_prefix kw s) eqn:E; [|reflexivity]. cbn [andb].
  apply ci_prefix_len in E.
  unfold re_plus. rewrite rmatch_ways, ways_chr_rep, first_accepted_total.
  rewrite tails_down_plus.
  set (t := drop_str (len kw) s) in *.
  assert (Hlt : len t = len s - len kw) by apply len_drop.
  pose proof (span_le p t) as Hsp.
  destruct (1 <=? span p t); [|reflexivity].
  cbn [map fst snd]. do 2 f_equal. rewrite len_drop. lia.
Qed.

Lemma no_space_all s : no_space s = all_chars (fun c => negb (isspace c)) s.
Proof. induction s as [|c s IH]; simpl; [reflexivity | now rewrite IH]. Qed.

Lemma span_zero_at_space s :
  span (fun c => negb (isspace c)) s = 0 → at_space s = true.
Proof.
  destruct s as [|c s]; [reflexivity|]. simpl.
  destruct (isspace c); [reflexivity|discriminate].
Qed.

(** What the value of a link is: the first part of the text made of the
    host name [kw], in any case, and the run of characters up to the next
    whitespace, which is not empty; there is no link exactly when every
    occurrence of the host name is followed by whitespace or by nothing. *)
Definition link_found (kw text : string) (value : option string) : Prop :=
  match value with
  | Some v =>
      ∃ before h t after,
        text = before +:+ v +:+ after ∧ v = h +:+ t ∧ lower h = kw ∧
        t ≠ "" ∧ no_space t = true ∧ at_space after = true ∧
        (∀ p h' c q, text = p +:+ h' +:+ String c q → lower h' = kw →
                     isspace c = false → len before ≤ len p)
  | None =>
      ∀ p h c q, text = p +:+ h +:+ String c q → lower h = kw →
                 isspace c = true
  end.

Lemma link_candidate kw n0 h c q pos :
  lower h = lower kw → isspace c = false →
  match_here (cats [lit true kw; re_plus re_nonspace]) n0 (h +:+ String c q) pos
  ≠ None.
Proof.
  intros Hh Hc. unfold re_nonspace. rewrite match_here_link.
  assert (Hl : len kw = len h) by (rewrite <- (len_lower kw), <- Hh; apply len_lower).
  unfold ci_prefix. rewrite Hl, take_append, drop_append, Hh, String.eqb_refl.
  cbn [span andb]. rewrite Hc. discriminate.
Qed.

Lemma link_search kw text :
  lower kw = kw →
  link_found kw text
    (group0 text <$> re_search (cats [lit true kw; re_plus re_nonspace]) text).
Proof.
  intros Hkw. unfold re_search.
  destruct (search_from (cats [lit true kw; re_plus re_nonspace]) (len text) text 0)
    as [m|] eqn:E; cbn [fmap option_fmap option_map link_found].
  - apply search_from_first in E. destruct E as (i & Hi & Hm & Hmin).
    unfold re_nonspace in Hm. rewrite match_here_link in Hm. cbn [Nat.add] in Hm.
    set (d := drop_str i text) in *.
    destruct (ci_prefix kw d) eqn:Ep; [|discriminate].
    set (t := drop_str (len kw) d) in *.
    destruct (1 <=? span (fun c => negb (isspace c)) t) eqn:Es; [|discriminate].
    cbn [andb] in Hm. injection Hm as <-. apply Nat.leb_le in Es.
    pose proof (ci_prefix_len _ _ Ep) as Hlk.
    unfold ci_prefix in Ep. apply String.eqb_eq in Ep.
    set (n := span (fun c => negb (isspace c)) t) in *.
    assert (Hlh : len (take_str (len kw) d) = len kw) by (rewrite len_take; lia).
    assert (Hlt : len (take_str n t) = n) by apply len_span_take.
    assert (Hd : d = take_str (len kw) d +:+ take_str n t +:+ drop_str n t).
    { rewrite (take_drop n t). unfold t. now rewrite take_drop. }
    assert (Hns : no_space (take_str n t) = true)
      by (rewrite no_space_all; apply span_take).
    assert (Has : at_space (drop_str n t) = true)
      by (apply span_zero_at_space, span_stop).
    remember (take_str (len kw) d) as h eqn:Eh.
    remember (take_str n t) as tt eqn:Ett.
    remember (drop_str n t) as after eqn:Eafter.
    assert (Htext : text = take_str i text +:+ (h +:+ tt) +:+ after).
    { rewrite <- (take_drop i text) at 1. fold d. rewrite Hd.
      now rewrite append_assoc_str. }
    assert (Hv : group0 text (MkMatch i (i + (len kw + n)) []) = h +:+ tt).
    { unfold group0, slice. cbn [m_start m_end]. fold d.
      replace (i + (len kw + n) - i) with (len (h +:+ tt))
        by (rewrite len_append; lia).
      rewrite Hd, <- append_assoc_str. apply take_append. }
    assert (Hlb : len (take_str i text) = i) by (rewrite len_take; lia).
    exists (take_str i text), h, tt, after.
    rewrite Hv. split; [exact Htext|].
    split; [reflexivity|]. split; [congruence|].
    split; [|split; [exact Hns|split; [exact Has|]]].
    + intros Hn. rewrite Hn in Hlt. simpl in Hlt. lia.
    + intros p h' c q Hp Hh Hc. rewrite Hlb.
      destruct (Nat.le_gt_cases i (len p)) as [|Hlt']; [assumption|]. exfalso.
      specialize (Hmin (len p) Hlt'). cbn [Nat.add] in Hmin.
      rewrite Hp, drop_append in Hmin.
      apply (link_candidate kw) in Hmin; [exact Hmin|congruence|exact Hc].
  - intros p h c q Hp Hh.
    pose proof (search_from_nowhere _ _ _ _ E (len p)) as Hn. cbn [Nat.add] in Hn.
    rewrite Hp, drop_append in Hn.
    destruct (isspace c) eqn:Ec; [reflexivity|]. exfalso.
    apply (link_candidate kw) in Hn; [exact Hn|congruence|exact Ec].
Qed.

(** X9.  The GitHub and LinkedIn links of the contact details: each is the
    first occurrence of the host name, in any case, with the characters
    that follow it up to the next whitespace. *)
Theorem contact_links (text : string) :
  link_found "github.com/" text (extract_contact_info text !! "github") ∧
  link_found "linkedin.com/" text (extract_contact_info text !! "linkedin").
Proof.
  destruct (contact_lookup text) as (_ & _ & -> & -> & _).
  split; apply link_search; reflexivity.
Qed.

(** ** The timeline *)

Local Open Scope Z_scope.

Lemma lex_ltb_asym : ∀ a b, lex_ltb a b = true → lex_ltb b a = false.
Proof.
  induction a as [|x a IH]; intros [|y b]; simpl; try congruence.
  intros [Hlt|[He Hr]%andb_true_iff]%orb_true_iff.
  - apply Z.ltb_lt in Hlt.
    replace (y <? x) with false by (symmetry; apply Z.ltb_ge; lia).
    replace (y =? x) with false by (symmetry; apply Z.eqb_neq; lia).
    reflexivity.
  - apply Z.eqb_eq in He. subst y. rewrite Z.ltb_irrefl, Z.eqb_refl. simpl. auto.
Qed.

Lemma lex_ltb_le_trans : ∀ a b c,
  length a = length b → length b = length c →
  lex_ltb b a = false → lex_ltb c b = false → lex_ltb c a = false.
Proof.
  induction a as [|x a IH]; intros [|y b] [|z c]; simpl; try congruence; try lia.
  intros [= La] [= Lb].
  intros [H1 H2]%orb_false_iff [H3 H4]%orb_false_iff.
  apply Z.ltb_ge in H1, H3. apply orb_false_iff. split; [apply Z.ltb_ge; lia|].
  destruct (z =? x) eqn:E; [|reflexivity]. apply Z.eqb_eq in E. subst z.
  assert (y = x) by lia. subst y. rewrite Z.eqb_refl in H2, H4. simpl in *.
  eauto.
Qed.

(** [a <= b] on datetimes, as [not (b < a)]. *)
Definition datetime_le (a b : datetime) : Prop := datetime_ltb b a = false.

Lemma datetime_lt_le a b : datetime_ltb a b = true → datetime_le a b.
Proof. apply lex_ltb_asym. Qed.

Lemma datetime_le_trans a b c : datetime_le a b → datetime_le b c → datetime_le a c.
Proof.
  unfold datetime_le, datetime_ltb. intros H1 H2.
  now apply (lex_ltb_le_trans (fields a) (fields b) (fields c)).
Qed.

(** The order of the sort: by [start]. *)
Definition job_le (a b : job) : Prop := datetime_le (job_start a) (job_start b).

Lemma insert_job_perm j l : Permutation (insert_job j l) (j :: l).
Proof.
  induction l as [|x l IH]; simpl; [reflexivity|].
  destruct (datetime_ltb (job_start j) (job_start x)); [reflexivity|].
  rewrite IH. apply perm_swap.
Qed.

Lemma sort_jobs_perm_acc l : ∀ acc,
  Permutation (fold_left (fun acc j => insert_job j acc) l acc) (acc ++ l).
Proof.
  induction l as [|j l IH]; intros acc; simpl; [now rewrite app_nil_r|].
  rewrite IH, insert_job_perm. simpl. apply Permutation_middle.
Qed.

Lemma sort_jobs_perm l : Permutation (sort_jobs l) l.
Proof. apply (sort_jobs_perm_acc l []). Qed.

Lemma insert_job_sorted j l :
  StronglySorted job_le l → StronglySorted job_le (insert_job j l).
Proof.
  induction l as [|x l IH]; intros Hs; simpl.
  - constructor; constructor.
  - inversion Hs as [|x' l' Hl Hx]; subst.
    destruct (datetime_ltb (job_start j) (job_start x)) eqn:E.
    + constructor; [exact Hs|]. constructor.
      * now apply datetime_lt_le.
      * eapply Forall_impl; [exact Hx|]. intros y Hy.
        eapply datetime_le_trans; [|exact Hy]. now apply datetime_lt_le.
    + constructor; [now apply IH|].
      rewrite insert_job_perm. constructor; [exact E|exact Hx].
Qed.

Lemma sort_jobs_sorted_acc l : ∀ acc,
  StronglySorted job_le acc →
  StronglySorted job_le (fold_left (fun acc j => insert_job j acc) l acc).
Proof.
  induction l as [|j l IH]; intros acc Ha; simpl; [exact Ha|].
  apply IH. now apply insert_job_sorted.
Qed.

Lemma job_of_ordered e : datetime_le (job_start (job_of e)) (job_end (job_of e)).
Proof.
  unfold job_of, datetime_le. cbn [job_start job_end].
  destruct (datetime_ltb (end_date e) (start_date e)) eqn:E; cbn [fst snd].
  - now apply lex_ltb_asym.
  - exact E.
Qed.

(** X10.  The jobs of the timeline are the entries, each with its two dates
    put in order, sorted by start date. *)
Theorem timeline_jobs_sorted (entries : list entry) :
  Permutation (timeline_jobs entries) (map job_of entries) ∧
  StronglySorted job_le (timeline_jobs entries) ∧
  Forall (fun j => datetime_le (job_start j) (job_end j)) (timeline_jobs entries) ∧
  (∀ e, In e entries →
        (job_start (job_of e) = start_date e ∧ job_end (job_of e) = end_date e) ∨
        (datetime_ltb (end_date e) (start_date e) = true ∧
         job_start (job_of e) = end_date e ∧ job_end (job_of e) = start_date e)).
Proof.
  unfold timeline_jobs. split; [apply sort_jobs_perm|]. split; [|split].
  - apply (sort_jobs_sorted_acc _ []). constructor.
  - rewrite sort_jobs_perm. apply Forall_forall. intros j Hj.
    apply list_elem_of_In, in_map_iff in Hj. destruct Hj as (e & <- & _).
    apply job_of_ordered.
  - intros e _. unfold job_of. cbn [job_start job_end].
    destruct (datetime_ltb (end_date e) (start_date e)); cbn [fst snd]; auto.
Qed.

Local Open Scope nat_scope.

(** The title of an entry before it is cut: the role, and the company
    after [at] when there is one. *)
Definition full_title (e : entry) : string :=
  role e +:+ (if String.eqb (company e) "" then "" else " at " +:+ company e).

Lemma split_join_blank ws s :
  ws ≠ [] → (∀ t, In t ws → word t) →
  split (join " " ws +:+ String " " s) = ws ++ split s.
Proof.
  induction ws as [|w ws IH]; intros Hne Hws; [congruence|].
  assert (Hw : word w) by (apply Hws; now left).
  rewrite join_cons. destruct ws as [|w' ws].
  - now apply split_word_blank.
  - change (w +:+ " " +:+ ?x) with (w +:+ String " " x).
    rewrite append_assoc_str, append_cons.
    rewrite split_word_blank by exact Hw. cbn [app]. f_equal.
    apply IH; [discriminate|]. intros t Ht. apply Hws. now right.
Qed.

Lemma in_take {A} (x : A) n l : In x (take n l) → In x l.
Proof.
  revert l; induction n as [|n IH]; intros [|y l]; simpl; try tauto.
  intros [->|H]; auto.
Qed.

(** X11.  The title of a job has at most seven words: a title of more than
    six words is cut to its first six, joined by single blanks, and [...]
    is put after them; a shorter title is kept as it is. *)
Theorem job_title_words (e : entry) :
  (length (split (full_title e)) ≤ 6 → job_title (job_of e) = full_title e) ∧
  (6 < length (split (full_title e)) →
   job_title (job_of e) = join " " (take 6 (split (full_title e))) +:+ " ..." ∧
   split (job_title (job_of e)) = take 6 (split (full_title e)) ++ ["..."]) ∧
  length (split (job_title (job_of e))) ≤ 7.
Proof.
  assert (Hlong : 6 < length (split (full_title e)) →
            job_title (job_of e) = join " " (take 6 (split (full_title e))) +:+ " ..." ∧
            split (job_title (job_of e)) = take 6 (split (full_title e)) ++ ["..."]).
  { intros Hl. unfold job_of. cbn [job_title]. fold (full_title e).
    apply Nat.ltb_lt in Hl. rewrite Hl. split; [reflexivity|].
    change (?x +:+ " ...") with (x +:+ String " " "...").
    rewrite split_join_blank; [reflexivity| |].
    - apply Nat.ltb_lt in Hl. destruct (split (full_title e)); [simpl in Hl; lia|].
      discriminate.
    - intros t Ht. apply in_take in Ht. now apply split_word in Ht. }
  assert (Hshort : length (split (full_title e)) ≤ 6 →
            job_title (job_of e) = full_title e).
  { intros Hl. unfold job_of. cbn [job_title]. fold (full_title e).
    apply Nat.ltb_ge in Hl. now rewrite Hl. }
  split; [exact Hshort|]. split; [exact Hlong|].
  destruct (Nat.le_gt_cases (length (split (full_title e))) 6) as [Hl|Hl].
  - rewrite (Hshort Hl). lia.
  - destruct (Hlong Hl) as [_ ->]. rewrite length_app, length_take.
    cbn [length]. lia.
Qed.

Lemma job_title_words_witness :
  6 < length (split (full_title
        (MkEntry "Senior Staff Software Engineer and Team Lead" "Acme"
           (MkDatetime 2019 1 1 0 0 0 0) (MkDatetime 2020 2 1 0 0 0 0) 0))) ∧
  job_title (job_of
        (MkEntry "Senior Staff Software Engineer and Team Lead" "Acme"
           (MkDatetime 2019 1 1 0 0 0 0) (MkDatetime 2020 2 1 0 0 0 0) 0))
  = "Senior Staff Software Engineer and Team ...".
Proof.
  assert (Hl : 6 < length (split (full_title
        (MkEntry "Senior Staff Software Engineer and Team Lead" "Acme"
           (MkDatetime 2019 1 1 0 0 0 0) (MkDatetime 2020 2 1 0 0 0 0) 0))))
    by (vm_compute; lia).
  split; [exact Hl|].
  destruct (job_title_words
        (MkEntry "Senior Staff Software Engineer and Team Lead" "Acme"
           (MkDatetime 2019 1 1 0 0 0 0) (MkDatetime 2020 2 1 0 0 0 0) 0))
    as (_ & Hlong & _).
  destruct (Hlong Hl) as [-> _]. vm_compute. reflexivity.
Defined.

(** *** The years of experience *)

Local Open Scope Z_scope.

Definition job_days (j : job) : Z := td_days (datetime_sub (job_end j) (job_start j)).

Lemma sum_not_negative (l : list Z) :
  Forall (fun z => 0 <= z) l → 0 <= fold_right Z.add 0 l.
Proof. induction 1; simpl; lia. Qed.

Lemma job_of_days e :
  valid_datetime (start_date e) → valid_datetime (end_date e) →
  0 <= job_days (job_of e).
Proof.
  intros Hs He. pose proof (job_of_ordered e) as Ho.
  unfold job_days. unfold datetime_le in Ho.
  assert (Hv : valid_datetime (job_start (job_of e)) ∧
               valid_datetime (job_end (job_of e))).
  { unfold job_of. cbn [job_start job_end].
    destruct (datetime_ltb (end_date e) (start_date e)); cbn [fst snd]; auto. }
  destruct Hv as [Hv1 Hv2].
  destruct (Z.lt_ge_cases (td_days (datetime_sub (job_end (job_of e))
                                      (job_start (job_of e)))) 0) as [Hn|]; [|assumption].
  apply (datetime_sub_negative _ _ Hv2 Hv1) in Hn. congruence.
Qed.

Lemma entry_dates_valid now text es e :
  valid_datetime now → extract_experience now text = Ok es → In e es →
  valid_datetime (start_date e) ∧ valid_datetime (end_date e).
Proof.
  intros Hnow Hes He.
  destruct (entry_in_result now text es e Hes He)
    as (seg & m & sd & ed & Hs & Hd & ->).
  cbn [make_entry start_date end_date]. split; eapply parsed_valid; eauto.
Qed.

(** X12.  The years of experience that the timeline reports are never
    negative, whatever the order of the two dates of an entry: they are the
    whole days between the dates of each job, summed and divided by 365. *)
Theorem total_years_not_negative (now : datetime) (text : string)
    (es : list entry) :
  valid_datetime now → extract_experience now text = Ok es →
  (0 <= total_years (timeline_jobs es))%Q ∧
  Forall (fun j => 0 <= job_days j) (timeline_jobs es) ∧
  total_years (timeline_jobs es)
  = Qmake (fold_right Z.add 0 (map job_days (timeline_jobs es))) 365.
Proof.
  intros Hnow Hes.
  assert (Hall : Forall (fun j => 0 <= job_days j) (timeline_jobs es)).
  { unfold timeline_jobs. rewrite sort_jobs_perm. apply Forall_forall.
    intros j Hj. apply list_elem_of_In, in_map_iff in Hj.
    destruct Hj as (e & <- & He).
    destruct (entry_dates_valid now text es e Hnow Hes He).
    now apply job_of_days. }
  split; [|split; [exact Hall|reflexivity]].
  unfold total_years, Qle. cbn [Qnum Qden]. rewrite Z.mul_1_r, Z.mul_0_l.
  apply sum_not_negative. apply Forall_forall. intros z Hz.
  apply list_elem_of_In, in_map_iff in Hz. destruct Hz as (j & <- & Hj).
  rewrite Forall_forall in Hall. now apply Hall, list_elem_of_In.
Qed.

Lemma total_years_not_negative_witness :
  valid_datetime (MkDatetime 2024 6 1 9 30 0 0) ∧
  extract_experience (MkDatetime 2024 6 1 9 30 0 0) "2019-01 to 2018/03 Intern"
  = Ok [MkEntry "Intern" "" (MkDatetime 2019 1 1 0 0 0 0)
          (MkDatetime 2018 3 1 0 0 0 0) (Qmake (-306) 365)] ∧
  (0 <= total_years (timeline_jobs
          [MkEntry "Intern" "" (MkDatetime 2019 1 1 0 0 0 0)
             (MkDatetime 2018 3 1 0 0 0 0) (Qmake (-306) 365)]))%Q.
Proof.
  assert (Hnow : valid_datetime (MkDatetime 2024 6 1 9 30 0 0))
    by (unfold valid_datetime; simpl; repeat split; lia).
  assert (Hes : extract_experience (MkDatetime 2024 6 1 9 30 0 0)
                  "2019-01 to 2018/03 Intern"
                = Ok [MkEntry "Intern" "" (MkDatetime 2019 1 1 0 0 0 0)
                        (MkDatetime 2018 3 1 0 0 0 0) (Qmake (-306) 365)])
    by (vm_compute; reflexivity).
  split; [exact Hnow|]. split; [exact Hes|].
  exact (proj1 (total_years_not_negative _ _ _ Hnow Hes)).
Defined.

(** ** What the scorer reads *)

Local Open Scope nat_scope.

Lemma score_loop_ext `{Embedder} (self : scorer) (cv jd cv' jd' : gmap string string) :
  (∀ sec, In sec SECTIONS →
          section_similarity cv jd sec = section_similarity cv' jd' sec) →
  score_loop self cv jd = score_loop self cv' jd'.
Proof.
  intros Hs. unfold score_loop, SECTIONS. cbn [fold_left]. unfold score_step.
  rewrite !(Hs "skills"), !(Hs "experience"), !(Hs "education")
    by (unfold SECTIONS; simpl; auto).
  reflexivity.
Qed.

Lemma missing_ext (cv jd cv' jd' : gmap string string) :
  (∀ sec, In sec SECTIONS → get_text cv sec = get_text cv' sec) →
  (∀ sec, In sec SECTIONS → get_text jd sec = get_text jd' sec) →
  find_missing_keywords cv jd = find_missing_keywords cv' jd'.
Proof.
  intros Hc Hj. unfold find_missing_keywords, SECTIONS. cbn [fold_left].
  unfold missing_step.
  rewrite !(Hc "skills"), !(Hc "experience"), !(Hc "education"),
          !(Hj "skills"), !(Hj "experience"), !(Hj "education")
    by (unfold SECTIONS; simpl; auto).
  reflexivity.
Qed.

(** X13.  The scorer reads the texts of the sections skills, experience and
    education, and nothing else of the two records: other keys have no
    effect; for the scores a missing key, an empty text and a text of
    whitespace are the same, and so are two texts that differ by the
    whitespace at their ends. *)
Theorem scorer_reads_three_sections `{Embedder} (self : scorer)
    (cv jd cv' jd' : gmap string string) :
  ((∀ sec, In sec SECTIONS → strip (get_text cv sec) = strip (get_text cv' sec)) →
   (∀ sec, In sec SECTIONS → strip (get_text jd sec) = strip (get_text jd' sec)) →
   score_cv self cv jd = score_cv self cv' jd') ∧
  ((∀ sec, In sec SECTIONS → get_text cv sec = get_text cv' sec) →
   (∀ sec, In sec SECTIONS → get_text jd sec = get_text jd' sec) →
   find_missing_keywords cv jd = find_missing_keywords cv' jd').
Proof.
  split; [|apply missing_ext].
  intros Hc Hj. unfold score_cv. rewrite (score_loop_ext self cv jd cv' jd'); [reflexivity|].
  intros sec Hsec. unfold section_similarity, embed.
  now rewrite (Hc sec Hsec), (Hj sec Hsec).
Qed.

Lemma scorer_reads_three_sections_witness :
  @score_cv plane (MkScorer default_weights)
     {[ "skills" := " north " ]} {[ "skills" := "slant" ]}
  = @score_cv plane (MkScorer default_weights)
      (<[ "projects" := "west" ]> {[ "skills" := "north"; "education" := "  " ]})
      {[ "skills" := "slant"; "contact" := "north" ]}.
Proof.
  apply (@scorer_reads_three_sections plane).
  - intros sec Hsec. unfold SECTIONS in Hsec. simpl in Hsec.
    destruct Hsec as [<-|[<-|[<-|[]]]]; vm_compute; reflexivity.
  - intros sec Hsec. unfold SECTIONS in Hsec. simpl in Hsec.
    destruct Hsec as [<-|[<-|[<-|[]]]]; vm_compute; reflexivity.
Defined.

(** ** Nothing missing *)

Lemma find_missing_keywords_in cv jd t :
  In t (find_missing_keywords cv jd) ↔
  ∃ sec, In sec SECTIONS ∧ is_word t (spaced jd sec) ∧ ¬ is_word t (spaced cv sec).
Proof.
  unfold find_missing_keywords.
  rewrite <- list_elem_of_In, merge_sort_Permutation, elem_of_elements.
  apply missing_fold.
Qed.

(** Every word of the job description's sections is a word of the same
    section of the CV. *)
Definition covered (cv jd : gmap string string) : Prop :=
  ∀ sec t, In sec SECTIONS → is_word t (spaced jd sec) → is_word t (spaced cv sec).

Lemma is_word_dec t s : is_word t s ∨ ¬ is_word t s.
Proof.
  destruct (in_dec string_dec t (split s)) as [Hin|Hn].
  - left. now apply split_words.
  - right. intros Hw. now apply Hn, split_words.
Qed.

Lemma nothing_missing cv jd : find_missing_keywords cv jd = [] ↔ covered cv jd.
Proof.
  split.
  - intros He sec t Hsec Hw.
    destruct (is_word_dec t (spaced cv sec)) as [|Hn]; [assumption|]. exfalso.
    assert (Hin : In t (find_missing_keywords cv jd))
      by (apply find_missing_keywords_in; eauto).
    rewrite He in Hin. destruct Hin.
  - intros Hc. destruct (find_missing_keywords cv jd) as [|t l] eqn:E; [reflexivity|].
    assert (Hin : In t (find_missing_keywords cv jd)) by (rewrite E; now left).
    apply find_missing_keywords_in in Hin. destruct Hin as (sec & Hsec & Hw & Hn).
    exfalso. apply Hn. now apply Hc.
Qed.

(** X14.  No keyword is missing exactly when every word of each of the three
    sections of the job description is a word of the same section of the
    CV, as it is when the two records are the same; the word cloud is then
    [None], and it is never [None] otherwise. *)
Theorem no_word_cloud (draw_cloud : string → result string)
    (cv jd : gmap string string) :
  (find_missing_keywords cv jd = [] ↔ covered cv jd) ∧
  (generate_word_cloud draw_cloud (find_missing_keywords cv jd) = Ok None
   ↔ covered cv jd) ∧
  find_missing_keywords cv cv = [].
Proof.
  split; [apply nothing_missing|]. split.
  - rewrite <- nothing_missing. unfold generate_word_cloud.
    destruct (find_missing_keywords cv jd) as [|t l]; [tauto|].
    split; [|discriminate].
    destruct (draw_cloud (join " " (t :: l))); discriminate.
  - apply nothing_missing. intros sec t _ Hw. exact Hw.
Qed.

(** ** The total and the best match *)

Local Open Scope Q_scope.

Lemma round_half_even_mono x y :
  x <= y → (round_half_even x <= round_half_even y)%Z.
Proof.
  intros Hxy. unfold round_half_even.
  pose proof (Qfloor_resp_le _ _ Hxy) as Hf.
  pose proof (Qfloor_le x) as Hx1. pose proof (Qlt_floor x) as Hx2.
  pose proof (Qfloor_le y) as Hy1. pose proof (Qlt_floor y) as Hy2.
  rewrite inject_Z_plus in Hx2, Hy2. change (inject_Z 1) with 1 in Hx2, Hy2.
  destruct (Z.eq_dec (Qfloor x) (Qfloor y)) as [E|Hne].
  - rewrite <- E in *. clear E Hf.
    revert Hx1 Hx2 Hy1 Hy2. generalize (Qfloor x). intros f Hx1 Hx2 Hy1 Hy2.
    destruct (Qcompare (x - inject_Z f) (1 # 2)) eqn:Ex;
      [apply Qeq_alt in Ex|apply Qlt_alt in Ex|apply Qgt_alt in Ex];
      (destruct (Qcompare (y - inject_Z f) (1 # 2)) eqn:Ey;
       [apply Qeq_alt in Ey|apply Qlt_alt in Ey|apply Qgt_alt in Ey]);
      destruct (Z.even f); try lia;
      exfalso; revert Hx1 Hx2 Hy1 Hy2 Ex Ey; generalize (inject_Z f); intros; lra.
  - assert (Qfloor x + 1 <= Qfloor y)%Z by lia.
    destruct (Qcompare (x - inject_Z (Qfloor x)) (1 # 2));
      destruct (Qcompare (y - inject_Z (Qfloor y)) (1 # 2));
      destruct (Z.even (Qfloor x)); destruct (Z.even (Qfloor y)); lia.
Qed.

Lemma round2_mono x y : x <= y → round2 x <= round2 y.
Proof.
  intros Hxy. unfold round2. rewrite !Qred_correct.
  assert (Hm : (round_half_even (x * 100) <= round_half_even (y * 100))%Z)
    by (apply round_half_even_mono; lra).
  unfold Qle. cbn [Qnum Qden]. lia.
Qed.

(** X15.  With the built-in weights the total score is never above the best
    match score, as soon as one section has a similarity that is not
    negative. *)
Theorem total_below_best `{Embedder} (self : scorer) (cv jd : gmap string string) :
  SemanticScorer = Ok self →
  (∃ sec, In sec SECTIONS ∧ 0 <= section_similarity cv jd sec) →
  ∃ t b,
    score_cv self cv jd !! "total_score"%string = Some (VFloat t) ∧
    score_cv self cv jd !! "best_match_score"%string = Some (VFloat b) ∧
    t <= b.
Proof.
  intros Hself (sec & Hsec & Hpos).
  rewrite SemanticScorer_ok in Hself. injection Hself as <-.
  rewrite report_total, report_best_score. eexists _, _.
  split; [reflexivity|]. split; [reflexivity|].
  apply round2_mono. rewrite score_loop_total. unfold weight. cbn [weights].
  destruct default_weight_values as (-> & -> & ->).
  unfold score_loop, SECTIONS. cbn [fold_left score_step best_match_score].
  unfold SECTIONS in Hsec. simpl in Hsec.
  set (s1 := section_similarity cv jd "skills") in *.
  set (s2 := section_similarity cv jd "experience") in *.
  set (s3 := section_similarity cv jd "education") in *.
  assert (Hsome : 0 <= s1 ∨ 0 <= s2 ∨ 0 <= s3).
  { destruct Hsec as [<-|[<-|[<-|[]]]]; auto. }
  clear Hsec Hpos. clearbody s1 s2 s3.
  destruct (Qltb (-1) s1) eqn:E1;
    [apply Qltb_lt in E1 | apply Qltb_ge in E1];
    (destruct (Qltb _ s2) eqn:E2;
     [apply Qltb_lt in E2 | apply Qltb_ge in E2]);
    (destruct (Qltb _ s3) eqn:E3;
     [apply Qltb_lt in E3 | apply Qltb_ge in E3]);
    destruct Hsome as [Hs|[Hs|Hs]]; lra.
Qed.

Lemma total_below_best_witness :
  SemanticScorer = Ok (MkScorer default_weights) ∧
  ∃ t b,
    @score_cv plane (MkScorer default_weights) (all_sections "north")
       (all_sections "slant") !! "total_score"%string = Some (VFloat t) ∧
    @score_cv plane (MkScorer default_weights) (all_sections "north")
       (all_sections "slant") !! "best_match_score"%string = Some (VFloat b) ∧
    t <= b.
Proof.
  pose proof SemanticScorer_ok as Hs.
  split; [exact Hs|].
  apply (@total_below_best plane _ (all_sections "north") (all_sections "slant") Hs).
  exists "skills"%string. split; [unfold SECTIONS; simpl; auto|].
  vm_compute. discriminate.
Defined.

(** ** Where an entry comes from *)

Local Open Scope nat_scope.

Lemma entry_origin now text es e :
  extract_experience now text = Ok es → In e es →
  ∃ line m start_date end_date,
    In line (splitlines text) ∧ In m (re_finditer date_pattern (strip line)) ∧
    parsed now m "start" = Some start_date ∧
    parsed now m "end" = Some end_date ∧
    e = make_entry (strip line) m start_date end_date.
Proof.
  rewrite extract_experience_entries. intros [= <-] He.
  apply in_flat_map in He. destruct He as (line & Hl & He).
  apply list_elem_of_In, list_elem_of_omap in He. destruct He as (m & Hm & He).
  unfold entry_of in He.
  destruct (parsed now m "start") as [sd|] eqn:Es; [|discriminate].
  destruct (parsed now m "end") as [ed|] eqn:Ee; [|discriminate].
  injection He as <-. exists line, m, sd, ed.
  repeat split; auto. now apply list_elem_of_In.
Qed.

Lemma split_head_sub r s : sub (re_split_head r s) s.
Proof.
  unfold re_split_head. destruct (re_search r s); [apply sub_take|apply sub_refl].
Qed.

Lemma label_part_sub seg m :
  sub (str_or (strip (drop_str (m_end m) seg)) (strip (take_str (m_start m) seg))) seg.
Proof.
  unfold str_or. destruct (String.eqb _ "").
  - eapply sub_trans; [apply sub_strip_with | apply sub_take].
  - eapply sub_trans; [apply sub_strip_with | apply sub_drop].
Qed.

Lemma make_entry_sub seg m sd ed :
  sub (role (make_entry seg m sd ed)) seg ∧
  sub (company (make_entry seg m sd ed)) seg.
Proof.
  cbn [make_entry role company].
  destruct (role_company_sub (clean_label seg m)) as [Hr Hc].
  assert (Hl : sub (clean_label seg m) seg).
  { eapply sub_trans; [apply clean_label_sub|].
    eapply sub_trans; [apply split_head_sub | apply label_part_sub]. }
  split; eapply sub_trans; eauto.
Qed.

(** X16.  Every entry comes from one line of the text and one date range in
    that line: its dates are the two halves of the range as [parse_date]
    reads them, and its role and its company are parts of that line. *)
Theorem entry_from_one_line (now : datetime) (text : string)
    (es : list entry) (e : entry) :
  extract_experience now text = Ok es → In e es →
  ∃ line m,
    In line (splitlines text) ∧ sub line text ∧
    In m (re_finditer date_pattern (strip line)) ∧
    parsed now m "start" = Some (start_date e) ∧
    parsed now m "end" = Some (end_date e) ∧
    sub (role e) (strip line) ∧ sub (company e) (strip line).
Proof.
  intros Hes He.
  destruct (entry_origin now text es e Hes He) as (line & m & sd & ed & Hl & Hm & Hs & Hd & ->).
  exists line, m. destruct (make_entry_sub (strip line) m sd ed) as [Hr Hc].
  repeat split; auto. now apply splitlines_sub.
Qed.

Lemma entry_from_one_line_witness :
  extract_experience (MkDatetime 2024 6 1 9 30 0 0)
    ("Acme Corp" +:+ String "010" "2019-01 - 2020-02 Developer at Initech")
  = Ok [MkEntry "Developer" "Initech" (MkDatetime 2019 1 1 0 0 0 0)
          (MkDatetime 2020 2 1 0 0 0 0) (Qmake 396 365)] ∧
  ∃ line, In line (splitlines
                     ("Acme Corp" +:+ String "010"
                        "2019-01 - 2020-02 Developer at Initech")) ∧
          sub "Developer" (strip line) ∧ sub "Initech" (strip line).
Proof.
  assert (Hes : extract_experience (MkDatetime 2024 6 1 9 30 0 0)
                  ("Acme Corp" +:+ String "010" "2019-01 - 2020-02 Developer at Initech")
                = Ok [MkEntry "Developer" "Initech" (MkDatetime 2019 1 1 0 0 0 0)
                        (MkDatetime 2020 2 1 0 0 0 0) (Qmake 396 365)])
    by (vm_compute; reflexivity).
  split; [exact Hes|].
  destruct (entry_from_one_line _ _ _ _ Hes (or_introl eq_refl))
    as (line & m & Hl & _ & _ & _ & _ & Hr & Hc).
  exists line. auto.
Defined.

(** ** All the fields *)

Lemma extract_by_keywords_sub text keyword : sub (extract_by_keywords text keyword) text.
Proof.
  unfold extract_by_keywords.
  destruct (re_search (keyword_re keyword) text); [|apply sub_empty].
  eapply sub_trans; [apply sub_strip_with | apply sub_slice].
Qed.

Lemma section_texts_get data :
  get_text (section_texts data) "skills" = skills data ∧
  get_text (section_texts data) "experience" = experience data ∧
  get_text (section_texts data) "education" = education data.
Proof.
  unfold get_text, section_texts. cbn [list_to_map foldr uncurry fst snd].
  repeat split;
    repeat (rewrite lookup_insert_ne by discriminate);
    now rewrite lookup_insert_eq.
Qed.

Lemma extract_structured_fields_ok now text :
  extract_structured_fields now text
  = Ok (MkStructured (extract_contact_info text)
          (extract_by_keywords text "Education")
          (extract_by_keywords text "Experience")
          (extract_by_keywords text "Skills")
          (extract_by_keywords text "Projects")
          (flat_map (line_entries now)
             (splitlines (extract_by_keywords text "Experience")))).
Proof.
  unfold extract_structured_fields. now rewrite extract_experience_entries.
Qed.

(** X17.  [extract_structured_fields] never fails.  Each of its four section
    texts is a part of the document, without whitespace at its ends; the
    detailed entries are those of the experience text alone; and the scorer
    reads three of the section texts from the record. *)
Theorem extract_structured_fields_total (now : datetime) (text : string) :
  ∃ data,
    extract_structured_fields now text = Ok data ∧
    Forall (fun s => sub s text ∧ strip s = s)
           [education data; experience data; skills data; projects data] ∧
    extract_experience now (experience data) = Ok (experience_details data) ∧
    get_text (section_texts data) "skills" = skills data ∧
    get_text (section_texts data) "experience" = experience data ∧
    get_text (section_texts data) "education" = education data.
Proof.
  rewrite extract_structured_fields_ok. eexists. split; [reflexivity|].
  cbn [education experience skills projects experience_details].
  split; [|split; [apply extract_experience_entries|apply section_texts_get]].
  repeat constructor;
    first [apply extract_by_keywords_sub | apply extract_by_keywords_stripped].
Qed.

(** ** A job description without section names *)

Lemma is_word_empty t : ¬ is_word t "".
Proof.
  intros (Hne & _ & [(post & Hs & _)|(pre & c & post & Hs & _)]).
  - apply append_inv_nil in Hs. now destruct Hs.
  - apply append_inv_nil in Hs. destruct Hs as [_ Hs]. discriminate.
Qed.

Lemma spaced_empty d sec : get_text d sec = "" → spaced d sec = "".
Proof. unfold spaced. now intros ->. Qed.

(** X18.  When the job description has none of the words Skills, Experience
    and Education in it, in any case, its three sections are empty and no
    keyword is reported missing, whatever the CV is. *)
Theorem nothing_missing_without_sections (now : datetime)
    (cv_text jd_text : string) (cv_data jd_data : structured) :
  absent "Skills" jd_text → absent "Experience" jd_text →
  absent "Education" jd_text →
  extract_structured_fields now cv_text = Ok cv_data →
  extract_structured_fields now jd_text = Ok jd_data →
  skills jd_data = "" ∧ experience jd_data = "" ∧ education jd_data = "" ∧
  find_missing_keywords (section_texts cv_data) (section_texts jd_data) = [].
Proof.
  intros Hs He Hd _. rewrite extract_structured_fields_ok. intros [= <-].
  cbn [skills experience education].
  assert (E1 : extract_by_keywords jd_text "Skills" = "")
    by (unfold extract_by_keywords; now rewrite re_search_absent).
  assert (E2 : extract_by_keywords jd_text "Experience" = "")
    by (unfold extract_by_keywords; now rewrite re_search_absent).
  assert (E3 : extract_by_keywords jd_text "Education" = "")
    by (unfold extract_by_keywords; now rewrite re_search_absent).
  split; [exact E1|]. split; [exact E2|]. split; [exact E3|].
  apply nothing_missing. intros sec t Hsec Hw. exfalso.
  revert Hw. rewrite spaced_empty; [apply is_word_empty|].
  match goal with |- get_text (section_texts ?d) _ = _ =>
    destruct (section_texts_get d) as (G1 & G2 & G3) end.
  cbn [skills experience education] in G1, G2, G3.
  unfold SECTIONS in Hsec. simpl in Hsec.
  destruct Hsec as [<-|[<-|[<-|[]]]]; congruence.
Qed.

Lemma nothing_missing_without_sections_witness :
  absent "Skills" "We need a Python developer with AWS" ∧
  ∃ cv_data jd_data,
    extract_structured_fields (MkDatetime 2024 6 1 9 30 0 0) "Skills: cooking"
    = Ok cv_data ∧
    extract_structured_fields (MkDatetime 2024 6 1 9 30 0 0)
      "We need a Python developer with AWS" = Ok jd_data ∧
    find_missing_keywords (section_texts cv_data) (section_texts jd_data) = [].
Proof.
  assert (H1 : absent "Skills" "We need a Python developer with AWS")
    by (apply absent_by_search; vm_compute; reflexivity).
  assert (H2 : absent "Experience" "We need a Python developer with AWS")
    by (apply absent_by_search; vm_compute; reflexivity).
  assert (H3 : absent "Education" "We need a Python developer with AWS")
    by (apply absent_by_search; vm_compute; reflexivity).
  split; [exact H1|].
  eexists _, _. split; [apply extract_structured_fields_ok|].
  split; [apply extract_structured_fields_ok|].
  exact (proj2 (proj2 (proj2
    (nothing_missing_without_sections _ _ _ _ _ H1 H2 H3
       (extract_structured_fields_ok _ _) (extract_structured_fields_ok _ _))))).
Defined.

(** ** Uploads: [allowed_file] and [load_file] *)

Local Open Scope nat_scope.

Lemma rsplit1_spec s :
  (mem_char "." s = false ∧ rsplit1 "." s = [s]) ∨
  (∃ stem ext, s = stem +:+ String "." ext ∧ mem_char "." ext = false ∧
               rsplit1 "." s = [stem; ext]).
Proof.
  induction s as [|c s IH]; [now left|].
  cbn [rsplit1 mem_char]. destruct IH as [[Hn ->]|(stem & ext & -> & Hn & ->)].
  - rewrite Hn, orb_false_r. rewrite Ascii.eqb_sym.
    destruct (Ascii.eqb c ".") eqn:E.
    + apply Ascii.eqb_eq in E. subst c. right. exists "", s. auto.
    + left. auto.
  - right. exists (String c stem), ext. auto.
Qed.

Lemma lower_app (a b : string) : lower (a +:+ b) = lower a +:+ lower b.
Proof.
  induction a as [|x a IH]; [reflexivity|]. rewrite append_cons. simpl.
  now rewrite IH.
Qed.

Lemma endswith_app (a suffix : string) : endswith (a +:+ suffix) suffix = true.
Proof.
  unfold endswith. rewrite len_append.
  replace (len a + len suffix - len suffix) with (len a) by lia.
  rewrite drop_append, String.eqb_refl.
  replace (len suffix <=? len a + len suffix) with true
    by (symmetry; apply Nat.leb_le; lia).
  reflexivity.
Qed.

Lemma endswith_other (a end1 suffix : string) :
  len end1 = len suffix → end1 ≠ suffix → endswith (a +:+ end1) suffix = false.
Proof.
  intros Hl Hne. unfold endswith. rewrite len_append, <- Hl.
  replace (len a + len end1 - len end1) with (len a) by lia.
  rewrite drop_append. apply andb_false_iff. right. now apply String.eqb_neq.
Qed.

Lemma allowed_file_spec filename :
  allowed_file filename = true →
  ∃ stem ext, filename = stem +:+ String "." ext ∧ mem_char "." ext = false ∧
              (lower ext = "pdf" ∨ lower ext = "docx").
Proof.
  unfold allowed_file. intros [Hdot Hin]%andb_true_iff.
  destruct (rsplit1_spec filename) as [[Hn _]|(stem & ext & Hs & Hn & Hr)];
    [congruence|].
  rewrite Hr in Hin. cbn [nth] in Hin. apply bool_decide_eq_true in Hin.
  exists stem, ext. split; [exact Hs|]. split; [exact Hn|].
  unfold ALLOWED_EXTENSIONS in Hin. apply list_elem_of_In in Hin. simpl in Hin.
  destruct Hin as [<-|[<-|[]]]; auto.
Qed.

(** X19.  A file name that the upload filter accepts ends with a dot and
    [pdf] or [docx], in any case.  For [pdf] the text comes from the PDF
    reader; for [docx] loading fails with [ValueError], and so does the
    whole preprocessing: the filter lets through files that the loader
    refuses. *)
Theorem accepted_upload_loads (extract_text : string → result string)
    (sent_tokenize : string → result (list string)) (dir filename : string) :
  allowed_file filename = true →
  ∃ stem ext,
    filename = stem +:+ String "." ext ∧
    ((lower ext = "pdf" ∧
      load_file extract_text (dir +:+ filename) = extract_text (dir +:+ filename)) ∨
     (lower ext = "docx" ∧
      load_file extract_text (dir +:+ filename)
      = Raise (ValueError "Unsupported file format. Only PDF is supported.") ∧
      preprocess_cv extract_text sent_tokenize (dir +:+ filename)
      = Raise (ValueError "Unsupported file format. Only PDF is supported."))).
Proof.
  intros Ha. destruct (allowed_file_spec _ Ha) as (stem & ext & -> & _ & Hext).
  exists stem, ext. split; [reflexivity|].
  assert (Hl : lower (dir +:+ stem +:+ String "." ext)
               = lower (dir +:+ stem) +:+ String "." (lower ext)).
  { rewrite <- append_assoc_str, lower_app. reflexivity. }
  unfold preprocess_cv, load_file. rewrite Hl.
  destruct Hext as [E|E]; rewrite E; [left|right].
  - split; [reflexivity|]. now rewrite (endswith_app _ ".pdf").
  - split; [reflexivity|].
    change (String "." "docx") with ("." +:+ "docx").
    rewrite <- append_assoc_str, endswith_other; [|reflexivity|discriminate].
    split; reflexivity.
Qed.
Lemma accepted_upload_loads_witness :
  allowed_file "Resume.DOCX" = true ∧
  preprocess_cv (fun _ => Ok "text") (fun s => Ok [s]) "uploads/Resume.DOCX"
  = Raise (ValueError "Unsupported file format. Only PDF is supported.").
Proof.
  assert (Ha : allowed_file "Resume.DOCX" = true) by reflexivity.
  split; [exact Ha|].
  destruct (accepted_upload_loads (fun _ => Ok "text") (fun s => Ok [s])
              "uploads/" "Resume.DOCX" Ha)
    as (stem & ext & Hs & [[_ Hpdf]|(_ & _ & Hdocx)]).
  - vm_compute. reflexivity.
  - exact Hdocx.
Defined.

(** ** The keys of the report *)

Local Open Scope nat_scope.

Definition report_keys : gset string :=
  {[ "skills_similarity"; "experience_similarity"; "education_similarity";
     "best_match_score"; "best_match_section"; "total_score" ]}.

(** X20.  The report of [score_cv] has six keys, whatever the two records
    are: the three similarities, the best match score and section, and the
    total score.  It has no key [best_match_sentence], which the page of
    [run.py] asks it for. *)
Theorem score_cv_keys `{Embedder} (self : scorer) (cv jd : gmap string string) :
  dom (score_cv self cv jd) = report_keys ∧
  score_cv self cv jd !! "best_match_sentence" = None.
Proof.
  assert (Hd : dom (score_cv self cv jd) = report_keys).
  { unfold score_cv, score_loop, SECTIONS.
    cbn [fold_left score_step section_scores String.append].
    rewrite !dom_insert_L, dom_empty_L. unfold report_keys. set_solver. }
  split; [exact Hd|].
  apply not_elem_of_dom. rewrite Hd. unfold report_keys.
  rewrite !elem_of_union, !elem_of_singleton.
  intros [[[[[E|E]|E]|E]|E]|E]; discriminate E.
Qed.
